(** * BioModels: the graph builder, the name resolver and the parsers

    A shallow embedding of [BioModels/pipeline/build_graph.py] and of
    [BioModels/pipeline/parsers.py]: the name resolver, the scan that
    collects the reference names, and the parsers of compartments and of
    parent models, with the properties stated for them.

    Python dictionaries are finite maps ([gmap]); the descriptor
    dictionaries that [build_graph] receives are objects of a store, since
    the function mutates them ([dict.pop]) and two tuples may hold the same
    object.  Exceptions are an error result that is threaded with the
    store.  A generator is the list of the tuples it yields, with the
    exception that ends it, if there is one.

    The libraries the functions call are modelled as far as the calls
    reach: [networkx.DiGraph] by its three dictionaries and the methods
    [add_node] and [add_edge]; [difflib.get_close_matches] with the
    [SequenceMatcher] below it, on exact fractions instead of floats; a
    BeautifulSoup tag by its name, attributes and contents.  The lookup
    service [get_go_json] is not among the sources and is a parameter, and
    so are the text of a tag and the date parser of [dateutil]. *)

From Stdlib Require Import ZArith Lia Ascii.
From stdpp Require Import gmap strings list fin_maps functions.

Local Open Scope string_scope.

(** * Definitions *)

(** ** Python values *)

(** The values that occur as node names, edge labels and attribute values.
    All of them are hashable, and equality of Python values of these three
    kinds is structural. *)
Inductive value : Type :=
  | VNone
  | VInt (z : Z)
  | VStr (s : string).

Global Instance value_eq_dec : EqDecision value.
Proof. solve_decision. Defined.

Definition value_encode (v : value) : unit + (Z + string) :=
  match v with
  | VNone => inl tt
  | VInt z => inr (inl z)
  | VStr s => inr (inr s)
  end.

Definition value_decode (x : unit + (Z + string)) : value :=
  match x with
  | inl _ => VNone
  | inr (inl z) => VInt z
  | inr (inr s) => VStr s
  end.

Global Instance value_countable : Countable value.
Proof.
  apply (inj_countable' value_encode value_decode).
  by intros [].
Defined.

(** A Python [dict] with string keys, as keyword unpacking needs them. *)
Abbreviation dict := (gmap string value).

(** ** Exceptions, results and the store *)

Inductive exn : Type :=
  | KeyError
  | TypeError
  | ValueError
  | AssertionError
  | IndexError.

Global Instance exn_eq_dec : EqDecision exn.
Proof. solve_decision. Defined.

Inductive result (A : Type) : Type :=
  | Ok (a : A)
  | Raise (e : exn).
Arguments Ok {A} a.
Arguments Raise {A} e.

Global Instance result_ret : MRet result := fun _ a => Ok a.
Global Instance result_bind : MBind result := fun _ _ f r =>
  match r with
  | Ok a => f a
  | Raise e => Raise e
  end.

(** Descriptor objects live in a store; a tuple holds their addresses. *)
Abbreviation loc := nat.
Abbreviation store := (loc → dict).

(** A computation reads and writes the store and returns or raises; a
    raised exception keeps the store as it was when it was raised. *)
Definition M (A : Type) : Type := store → result A * store.

Global Instance M_ret : MRet M := fun _ a h => (Ok a, h).
Global Instance M_bind : MBind M := fun _ _ f m h =>
  match m h with
  | (Ok a, h') => f a h'
  | (Raise e, h') => (Raise e, h')
  end.

Definition lift {A} (r : result A) : M A := fun h => (r, h).

(** [d.pop(k)] on the dictionary at address [l]. *)
Definition dict_pop (l : loc) (k : string) : M value := fun h =>
  match h l !! k with
  | Some v => (Ok v, <[l := delete k (h l)]> h)
  | None => (Raise KeyError, h)
  end.

(** Reading the dictionary at [l], as [**d] does when a call unpacks it. *)
Definition dict_read (l : loc) : M dict := fun h => (Ok (h l), h).

(** ** networkx.DiGraph *)

(** The three dictionaries of a [networkx.DiGraph]: node attributes,
    successors and predecessors; the innermost dictionaries are the edge
    attributes. *)
Record DiGraph : Type := mkDiGraph {
  _node : gmap value dict;
  _succ : gmap value (gmap value dict);
  _pred : gmap value (gmap value dict)
}.

Definition empty_graph : DiGraph := mkDiGraph ∅ ∅ ∅.

(** [DiGraph.add_node(node_for_adding, **attr)] *)
Definition add_node (g : DiGraph) (node_for_adding : value) (attr : dict)
  : result DiGraph :=
  match _succ g !! node_for_adding with
  | None =>
      if decide (node_for_adding = VNone) then Raise ValueError
      else Ok (mkDiGraph (<[node_for_adding := attr]> (_node g))
                         (<[node_for_adding := ∅]> (_succ g))
                         (<[node_for_adding := ∅]> (_pred g)))
  | Some _ =>
      match _node g !! node_for_adding with
      | Some d =>
          Ok (mkDiGraph (<[node_for_adding := attr ∪ d]> (_node g))
                        (_succ g) (_pred g))
      | None => Raise KeyError
      end
  end.

(** The first part of [add_edge]: an endpoint that is not a node yet becomes
    one, without attributes. *)
Definition ensure_node (g : DiGraph) (n : value) : result DiGraph :=
  match _succ g !! n with
  | None =>
      if decide (n = VNone) then Raise ValueError
      else Ok (mkDiGraph (<[n := ∅]> (_node g))
                         (<[n := ∅]> (_succ g))
                         (<[n := ∅]> (_pred g)))
  | Some _ => Ok g
  end.

(** [DiGraph.add_edge(u_of_edge, v_of_edge, **attr)] *)
Definition add_edge (g : DiGraph) (u v : value) (attr : dict)
  : result DiGraph :=
  g1 ← ensure_node g u;
  g2 ← ensure_node g1 v;
  match _succ g2 !! u, _pred g2 !! v with
  | Some su, Some pv =>
      let datadict := attr ∪ default ∅ (su !! v) in
      Ok (mkDiGraph (_node g2)
                    (<[u := <[v := datadict]> su]> (_succ g2))
                    (<[v := <[u := datadict]> pv]> (_pred g2)))
  | _, _ => Raise KeyError
  end.

(** A call [g.add_node(n, **attrs)]: a key of [attrs] that names a
    positional parameter of the method is a [TypeError] (multiple values for
    the argument). *)
Definition call_add_node (g : DiGraph) (n : value) (attrs : dict)
  : result DiGraph :=
  if decide (is_Some (attrs !! "self") ∨ is_Some (attrs !! "node_for_adding"))
  then Raise TypeError
  else add_node g n attrs.

(** ** build_graph *)

(** A (Child, Edge, Parent) tuple: the two descriptors are objects. *)
Abbreviation tuple := (loc * value * loc)%type.

(** The body of the loop of [build_graph]. *)
Definition process (g : DiGraph) (t : tuple) : M DiGraph :=
  let '(child_attrs, edge, parent_attrs) := t in
  child_name ← dict_pop child_attrs "name";
  parent_name ← dict_pop parent_attrs "name";
  child_kw ← dict_read child_attrs;
  g1 ← lift (call_add_node g child_name child_kw);
  parent_kw ← dict_read parent_attrs;
  g2 ← lift (call_add_node g1 parent_name parent_kw);
  lift (add_edge g2 child_name parent_name {["label" := edge]}).

Fixpoint build_loop (g : DiGraph) (data : list tuple) : M DiGraph :=
  match data with
  | [] => mret g
  | t :: rest => g' ← process g t; build_loop g' rest
  end.

Definition build_graph (data : list tuple) : M DiGraph :=
  build_loop empty_graph data.

(** ** Queries on a graph *)

Definition has_node (g : DiGraph) (n : value) : Prop := is_Some (_node g !! n).

(** The attribute dictionary of the edge [u -> v], if there is one. *)
Definition edge_data (g : DiGraph) (u v : value) : option dict :=
  _succ g !! u ≫= (.!! v).

Definition number_of_nodes (g : DiGraph) : nat := size (_node g).

Definition number_of_edges (g : DiGraph) : nat :=
  map_fold (λ _ row n, size row + n) 0 (_succ g).

(** The name a descriptor carries in a store. *)
Definition name_of (h : store) (l : loc) : option value := h l !! "name".

(** The attributes a descriptor contributes: its entries except the name. *)
Definition attrs_of (h : store) (l : loc) : dict := delete "name" (h l).

(** A store with the given descriptors at addresses 0, 1, ... and empty
    dictionaries elsewhere. *)
Definition store_of (ds : list dict) : store := λ l, default ∅ (ds !! l).

(** ** The graph calls in closed form *)

(** [d.update(a)] on the attributes of node [n], created empty if absent. *)
Definition node_upd (N : gmap value dict) (n : value) (a : dict)
  : gmap value dict :=
  <[n := a ∪ default ∅ (N !! n)]> N.

(** The adjacency row of [n], created empty if absent. *)
Definition row_touch (S : gmap value (gmap value dict)) (n : value)
  : gmap value (gmap value dict) :=
  <[n := default ∅ (S !! n)]> S.

(** The entry [S[u][v] = d]. *)
Definition edge_ins (S : gmap value (gmap value dict)) (u v : value) (d : dict)
  : gmap value (gmap value dict) :=
  <[u := <[v := d]> (default ∅ (S !! u))]> S.

(** The three dictionaries of a graph have the same keys, and [None] is not
    one of them. *)
Definition graph_inv (g : DiGraph) : Prop :=
  dom (_node g) = dom (_succ g) ∧ dom (_pred g) = dom (_succ g) ∧
  _succ g !! VNone = None.

(** The edge dictionary that [add_edge] stores for [u -> v]. *)
Definition new_datadict (g : DiGraph) (u v : value) (attr : dict) : dict :=
  attr ∪ default ∅ (edge_data g u v).

(** ** One tuple, seen from the store *)

(** What the loop body reads from a tuple: the two names, the label and the
    attributes that remain once the names are popped. *)
Record entry : Type := mkEntry {
  child_name : value;
  child_kw : dict;
  label : value;
  parent_name : value;
  parent_kw : dict
}.

Definition view (h : store) (t : tuple) : option entry :=
  let '(c, e, p) := t in
  cn ← name_of h c;
  pn ← name_of h p;
  Some (mkEntry cn (attrs_of h c) e pn (attrs_of h p)).

(** A keyword dictionary that clashes with a parameter of [add_node]. *)
Definition reserved_kw (a : dict) : Prop :=
  is_Some (a !! "self") ∨ is_Some (a !! "node_for_adding").

(** The entries that the graph calls accept. *)
Definition entry_ok (en : entry) : Prop :=
  child_name en ≠ VNone ∧ parent_name en ≠ VNone ∧
  ¬ reserved_kw (child_kw en) ∧ ¬ reserved_kw (parent_kw en).

(** The graph after the three calls of the loop body, in closed form. *)
Definition graph_after (g : DiGraph) (en : entry) : DiGraph :=
  let dd := new_datadict g (child_name en) (parent_name en)
                         {["label" := label en]} in
  mkDiGraph
    (node_upd (node_upd (_node g) (child_name en) (child_kw en))
              (parent_name en) (parent_kw en))
    (edge_ins (row_touch (row_touch (_succ g) (child_name en)) (parent_name en))
              (child_name en) (parent_name en) dd)
    (edge_ins (row_touch (row_touch (_pred g) (child_name en)) (parent_name en))
              (parent_name en) (child_name en) dd).

(** The three graph calls of the loop body. *)
Definition upsert (g : DiGraph) (en : entry) : result DiGraph :=
  g1 ← call_add_node g (child_name en) (child_kw en);
  g2 ← call_add_node g1 (parent_name en) (parent_kw en);
  add_edge g2 (child_name en) (parent_name en) {["label" := label en]}.

(** ** The loop, seen from the initial store *)

(** The descriptor objects of a stream, in the order the loop pops them. *)
Definition locs (data : list tuple) : list loc :=
  flat_map (λ t : tuple, [t.1.1; t.2]) data.

(** The store once every descriptor of the stream has lost its name. *)
Definition consumed (h : store) (data : list tuple) : store :=
  λ l, if decide (l ∈ locs data) then attrs_of h l else h l.

(** The entries the stream denotes in a store. *)
Definition views (h : store) (data : list tuple) (es : list entry) : Prop :=
  Forall2 (λ t en, view h t = Some en) data es.

(** Every edge dictionary holds a label and nothing else. *)
Definition edges_labelled (g : DiGraph) : Prop :=
  ∀ u v d, edge_data g u v = Some d → ∃ e, d = {["label" := e]}.

(** ** The label an edge ends up with *)

(** The label of the last tuple of the stream whose descriptors carry the
    names [cn] and [pn] in the store [h]. *)
Fixpoint last_label (h : store) (cn pn : value) (data : list tuple)
  : option value :=
  match data with
  | [] => None
  | (c, e, p) :: rest =>
      match last_label h cn pn rest with
      | Some l => Some l
      | None =>
          if decide (name_of h c = Some cn ∧ name_of h p = Some pn)
          then Some e else None
      end
  end.

(** ** Concrete streams *)

(** The graph [build_graph] returns on a stream, for the streams below on
    which it does return one. *)
Definition graph_of (data : list tuple) (h : store) : DiGraph :=
  match (build_graph data h).1 with
  | Ok g => g
  | Raise _ => empty_graph
  end.

(** Two tuples about the same edge, with different labels. *)
Definition overwrite_stream : list tuple :=
  [(0, VStr "isPartOf", 1); (2, VStr "isDerivedFrom", 3)].

Definition overwrite_store : store :=
  store_of [ {["name" := VStr "M1"]}; {["name" := VStr "M0"]};
             {["name" := VStr "M1"]}; {["name" := VStr "M0"]} ].

(** A stream whose second tuple has a child without a name, after a tuple
    with an attribute called "self". *)
Definition clash_stream : list tuple :=
  [(0, VStr "isPartOf", 1); (2, VStr "isPartOf", 3)].

Definition clash_store : store :=
  store_of [ {["name" := VStr "x"; "self" := VInt 1]}; {["name" := VStr "y"]};
             ∅; {["name" := VStr "z"]} ].

(** The same stream, without the clashing attribute. *)
Definition missing_store : store :=
  store_of [ {["name" := VStr "x"]}; {["name" := VStr "y"]};
             ∅; {["name" := VStr "z"]} ].

(** ** Node attributes *)

(** [new] is [old] updated with [a]: the keys of [a] carry the values of
    [a], and the other keys are as in [old]. *)
Definition merged (new a old : dict) : Prop :=
  ∀ k, new !! k = match a !! k with Some v => Some v | None => old !! k end.

(** The stream of the attribute-merge scenario. *)
Definition merge_stream : list tuple :=
  [(0, VStr "L1", 1); (2, VStr "L2", 3)].

Definition merge_store : store :=
  store_of [ {["name" := VStr "x"; "k1" := VInt 1]}; {["name" := VStr "y"]};
             {["name" := VStr "x"; "k2" := VInt 2]}; {["name" := VStr "z"]} ].

(** A protein that is part of itself, with two colours. *)
Definition loop_store : store :=
  store_of [ {["name" := VStr "p53"; "color" := VStr "blue"]};
             {["name" := VStr "p53"; "color" := VStr "green"]} ].

(** A stream whose second tuple overwrites an attribute of the first. *)
Definition stale_stream : list tuple :=
  [(0, VStr "isPartOf", 1); (2, VStr "isPartOf", 3)].

Definition stale_store : store :=
  store_of [ {["name" := VStr "x"; "k" := VInt 1]}; {["name" := VStr "y"]};
             {["name" := VStr "x"; "k" := VInt 2]}; {["name" := VStr "y"]};
             {["name" := VStr "x"; "k" := VInt 1]}; {["name" := VStr "y"]};
             {["name" := VStr "x"; "k" := VInt 2]}; {["name" := VStr "y"]} ].

(** Three tuples about the same edge: the label of the first comes back
    with the third. *)
Definition again_stream : list tuple :=
  [(0, VStr "isPartOf", 1); (2, VStr "isDerivedFrom", 3);
   (4, VStr "isPartOf", 5)].

Definition again_store : store :=
  store_of [ {["name" := VStr "M1"]}; {["name" := VStr "M0"]};
             {["name" := VStr "M1"]}; {["name" := VStr "M0"]};
             {["name" := VStr "M1"]}; {["name" := VStr "M0"]} ].

(** ** The whole stream *)

(** A descriptor that the loop body accepts: it has a name, the name is not
    [None], and no attribute clashes with a parameter of [add_node]. *)
Definition descriptor_ok (h : store) (l : loc) : Prop :=
  ∃ n, name_of h l = Some n ∧ n ≠ VNone ∧ ¬ reserved_kw (attrs_of h l).

Global Instance reserved_kw_dec (a : dict) : Decision (reserved_kw a).
Proof. unfold reserved_kw. apply _. Defined.

(** The error of a tuple whose descriptors no earlier tuple holds, if it has
    one: the pops come first, then the two [add_node] calls, the binding of
    the keywords before the test of the name. *)
Definition tuple_error (h : store) (t : tuple) : option exn :=
  let '(c, e, p) := t in
  match name_of h c, name_of h p with
  | None, _ => Some KeyError
  | Some _, None => Some KeyError
  | Some cn, Some pn =>
      if decide (c = p) then Some KeyError
      else if decide (reserved_kw (attrs_of h c)) then Some TypeError
      else if decide (cn = VNone) then Some ValueError
      else if decide (reserved_kw (attrs_of h p)) then Some TypeError
      else if decide (pn = VNone) then Some ValueError
      else None
  end.

(** The value of the attribute [k] in the last descriptor of the stream that
    carries the name [n] and has the attribute; in a tuple the parent is
    after the child. *)
Fixpoint last_attr (h : store) (n : value) (k : string) (data : list tuple)
  : option value :=
  match data with
  | [] => None
  | (c, e, p) :: rest =>
      match last_attr h n k rest with
      | Some v => Some v
      | None =>
          match (if decide (name_of h p = Some n)
                 then attrs_of h p !! k else None) with
          | Some v => Some v
          | None => if decide (name_of h c = Some n)
                    then attrs_of h c !! k else None
          end
      end
  end.

(** The attribute dictionary of the edge [u -> v] as the predecessors of
    [v] have it. *)
Definition pred_data (g : DiGraph) (v u : value) : option dict :=
  _pred g !! v ≫= (.!! u).

(** The predecessor dictionaries mirror the successor dictionaries. *)
Definition mirrored (g : DiGraph) : Prop :=
  ∀ u v, pred_data g v u = edge_data g u v.

(** The endpoints of every edge are nodes. *)
Definition endpoints_in (g : DiGraph) : Prop :=
  ∀ u v, is_Some (edge_data g u v) → has_node g u ∧ has_node g v.

(** Two entries that have no name in common. *)
Definition apart (e1 e2 : entry) : Prop :=
  child_name e1 ≠ child_name e2 ∧ child_name e1 ≠ parent_name e2 ∧
  parent_name e1 ≠ child_name e2 ∧ parent_name e1 ≠ parent_name e2.

(** Two tuples about four different entities. *)
Definition apart_stream : list tuple :=
  [(0, VStr "isPartOf", 1); (2, VStr "isContainedIn", 3)].

Definition apart_store : store :=
  store_of [ {["name" := VStr "M1"; "color" := VStr "green"]};
             {["name" := VStr "nucleus"; "color" := VStr "yellow"]};
             {["name" := VStr "S1"; "color" := VStr "blue"]};
             {["name" := VStr "M2"]} ].

(** * The compartment name resolver *)

(** ** Strings *)

(** Python strings are sequences of code points; the model has the code
    points below 256.  [str.lower] maps the upper-case letters among them
    (A-Z and the Latin-1 capitals, which leaves the multiplication sign out)
    to the letter 32 places further. *)
Definition lower_char (c : ascii) : ascii :=
  let n := N_of_ascii c in
  if ((65 <=? n) && (n <=? 90) || (192 <=? n) && (n <=? 214)
      || (216 <=? n) && (n <=? 222))%N
  then ascii_of_N (n + 32) else c.

Fixpoint lower (s : string) : string :=
  match s with
  | EmptyString => EmptyString
  | String c r => String (lower_char c) (lower r)
  end.

(** [s.split(sep)] for a separator of one character. *)
Fixpoint split (sep : ascii) (s : string) : list string :=
  match s with
  | EmptyString => [EmptyString]
  | String c r =>
      if decide (c = sep) then EmptyString :: split sep r
      else match split sep r with
           | seg :: segs => String c seg :: segs
           | [] => [String c EmptyString]
           end
  end.

(** ** difflib.SequenceMatcher *)

(** A matching block [(i, j, k)]: [a[i:i+k] == b[j:j+k]]. *)
Abbreviation block := (Z * Z * Z)%type.

Definition block_size (m : block) : Z := m.2.

Section SequenceMatcher.
(** The two sequences, [set_seq1(a)] and [set_seq2(b)]; no junk function
    is given, and [autojunk] is on. *)
Variables a b : list ascii.
Local Open Scope Z_scope.

Definition len (s : list ascii) : Z := Z.of_nat (length s).

(** The positions of [x] in [b], in increasing order. *)
Fixpoint indices (x : ascii) (s : list ascii) (j : Z) : list Z :=
  match s with
  | [] => []
  | y :: r => if decide (y = x) then j :: indices x r (j + 1)
              else indices x r (j + 1)
  end.

(** [b2j.get(x, nothing)], after [__chain_b]: the positions of [x] in [b],
    unless [b] has 200 elements or more and [x] occurs more than
    [len(b) // 100 + 1] times (a popular element, purged). *)
Definition b2j (x : ascii) : list Z :=
  let idxs := indices x b 0 in
  if (200 <=? len b) && (len b / 100 + 1 <? Z.of_nat (length idxs))
  then [] else idxs.

(** The loop over [j] for one [i] in [find_longest_match]; the best block
    so far is [best]. *)
Fixpoint row (i blo bhi : Z) (js : list Z) (j2len newj2len : gmap Z Z)
    (best : block) : gmap Z Z * block :=
  match js with
  | [] => (newj2len, best)
  | j :: js' =>
      if j <? blo then row i blo bhi js' j2len newj2len best
      else if bhi <=? j then (newj2len, best)
      else
        let k := default 0 (j2len !! (j - 1)) + 1 in
        let best' := if block_size best <? k
                     then (i - k + 1, j - k + 1, k) else best in
        row i blo bhi js' j2len (<[j := k]> newj2len) best'
  end.

(** The loop over [i], which runs through a range of positions of [a]. *)
Fixpoint rows (range : list Z) (blo bhi : Z) (j2len : gmap Z Z)
    (best : block) : block :=
  match range with
  | [] => best
  | i :: range' =>
      let js := match a !! Z.to_nat i with Some x => b2j x | None => [] end in
      let '(newj2len, best') := row i blo bhi js j2len ∅ best in
      rows range' blo bhi newj2len best'
  end.

(** [a[i] == b[j]], for the positions the loops below reach, which lie in
    the two sequences. *)
Definition same_elt (i j : Z) : bool :=
  match a !! Z.to_nat i, b !! Z.to_nat j with
  | Some x, Some y => bool_decide (x = y)
  | _, _ => false
  end.

(** The first [while] loop: the block grows to the left; it runs at most
    [besti - alo] times. *)
Fixpoint extend_left (n : nat) (alo blo : Z) (best : block) : block :=
  let '(besti, bestj, bestsize) := best in
  match n with
  | O => best
  | S n' =>
      if (alo <? besti) && (blo <? bestj) && same_elt (besti - 1) (bestj - 1)
      then extend_left n' alo blo (besti - 1, bestj - 1, bestsize + 1)
      else best
  end.

(** The second [while] loop: the block grows to the right; it runs at most
    [ahi - (besti + bestsize)] times. *)
Fixpoint extend_right (n : nat) (ahi bhi : Z) (best : block) : block :=
  let '(besti, bestj, bestsize) := best in
  match n with
  | O => best
  | S n' =>
      if (besti + bestsize <? ahi) && (bestj + bestsize <? bhi)
         && same_elt (besti + bestsize) (bestj + bestsize)
      then extend_right n' ahi bhi (besti, bestj, bestsize + 1)
      else best
  end.

(** [find_longest_match(alo, ahi, blo, bhi)]; the two loops over junk
    elements do nothing, since nothing is junk. *)
Definition find_longest_match (alo ahi blo bhi : Z) : block :=
  let best := rows (seqZ alo (ahi - alo)) blo bhi ∅ (alo, blo, 0) in
  let best := extend_left (Z.to_nat (best.1.1 - alo)) alo blo best in
  extend_right (Z.to_nat (ahi - (best.1.1 + best.2))) ahi bhi best.

(** The loop of [get_matching_blocks]: the head of [queue] is the element
    that [queue.pop()] takes. *)
Fixpoint blocks_loop (fuel : nat) (queue : list (Z * Z * Z * Z))
    (matching_blocks : list block) : list block :=
  match fuel, queue with
  | S fuel', (alo, ahi, blo, bhi) :: queue' =>
      let '(i, j, k) := find_longest_match alo ahi blo bhi in
      if k =? 0 then blocks_loop fuel' queue' matching_blocks
      else
        let queue1 := if (alo <? i) && (blo <? j)
                      then (alo, i, blo, j) :: queue' else queue' in
        let queue2 := if (i + k <? ahi) && (j + k <? bhi)
                      then (i + k, ahi, j + k, bhi) :: queue1 else queue1 in
        blocks_loop fuel' queue2 (matching_blocks ++ [(i, j, k)])
  | _, _ => matching_blocks
  end.

(** The blocks that the loop of [get_matching_blocks] collects, before
    they are sorted and adjacent ones are merged, which keeps the sum of
    their sizes.  Every turn of the loop takes one range from the queue and
    adds two that are shorter together, so [2 * len(a) + 1] turns empty
    the queue. *)
Definition found_blocks : list block :=
  blocks_loop (2 * length a + 1)%nat [(0, len a, 0, len b)] [].

(** [sum(triple[-1] for triple in self.get_matching_blocks())] *)
Definition matches : Z := foldr (λ m n, block_size m + n) 0 found_blocks.

(** The loop of [quick_ratio]: [avail] counts what is left of each element
    of [b]. *)
Fixpoint quick_loop (s : list ascii) (avail : gmap ascii Z) (n : Z) : Z :=
  match s with
  | [] => n
  | x :: r =>
      let numb := match avail !! x with
                  | Some m => m
                  | None => Z.of_nat (length (indices x b 0))
                  end in
      quick_loop r (<[x := numb - 1]> avail) (if 0 <? numb then n + 1 else n)
  end.

Definition quick_matches : Z := quick_loop a ∅ 0.

Definition real_quick_matches : Z := Z.min (len a) (len b).
End SequenceMatcher.

(** A score [2.0 * matches / length], as the fraction it is the quotient of;
    [1.0] for two empty sequences.  The floating-point quotients of the code
    compare with each other and with the cutoff as these fractions do, for
    sequences of fewer than 2^26 elements together. *)
Record score : Type := mkScore { num : Z; den : Z }.

Definition _calculate_ratio (matches length : Z) : score :=
  if (length =? 0)%Z then mkScore 1 1 else mkScore (2 * matches) length.

(** The comparisons of two scores, by cross-multiplication. *)
Definition score_leb (s1 s2 : score) : bool :=
  (num s1 * den s2 <=? num s2 * den s1)%Z.

Definition score_ltb (s1 s2 : score) : bool :=
  (num s1 * den s2 <? num s2 * den s1)%Z.

Definition score_eqb (s1 s2 : score) : bool :=
  (num s1 * den s2 =? num s2 * den s1)%Z.

(** The three ratios of a [SequenceMatcher] on [a] and [b]. *)
Definition ratio (a b : list ascii) : score :=
  _calculate_ratio (matches a b) (len a + len b)%Z.

Definition quick_ratio (a b : list ascii) : score :=
  _calculate_ratio (quick_matches a b) (len a + len b)%Z.

Definition real_quick_ratio (a b : list ascii) : score :=
  _calculate_ratio (real_quick_matches a b) (len a + len b)%Z.

(** [(s1, x1) > (s2, x2)] on tuples of a score and a string. *)
Definition scored_gtb (p1 p2 : score * string) : bool :=
  score_ltb p2.1 p1.1 || score_eqb p1.1 p2.1 && String.ltb p2.2 p1.2.

(** [max] over a list: the first of the largest elements. *)
Fixpoint max_scored (cur : score * string) (l : list (score * string))
    : score * string :=
  match l with
  | [] => cur
  | p :: r => max_scored (if scored_gtb p cur then p else cur) r
  end.

(** [difflib.get_close_matches(word, possibilities, n=1, cutoff)]: the
    possibilities that pass the three tests, with their scores, and the
    largest of them ([heapq.nlargest(1, result)]). *)
Definition get_close_matches (word : string) (possibilities : list string)
    (cutoff : score) : list string :=
  let b := String.list_ascii_of_string word in
  let result :=
    omap (λ x : string,
      let a := String.list_ascii_of_string x in
      if score_leb cutoff (real_quick_ratio a b)
         && score_leb cutoff (quick_ratio a b)
         && score_leb cutoff (ratio a b)
      then Some (ratio a b, x) else None) possibilities in
  match result with
  | [] => []
  | p :: r => [(max_scored p r).2]
  end.

(** ** Tags and lookup responses *)

Local Unset Elimination Schemes.

(** A BeautifulSoup tag: its name, its attributes and the tags among its
    contents, in document order. *)
Inductive Tag : Type :=
  | mkTag (tag_name : string) (attrs : gmap string string) (contents : list Tag).

(** [t.name], [t.attrs] and the tags of [t.contents]. *)
Definition tag_name (t : Tag) : string := let '(mkTag n _ _) := t in n.

Definition attrs (t : Tag) : gmap string string := let '(mkTag _ a _) := t in a.

Definition contents (t : Tag) : list Tag := let '(mkTag _ _ c) := t in c.

(** The first tag called [name] among [t] and its descendants, in document
    order. *)
Fixpoint first_named (name : string) (t : Tag) : option Tag :=
  let '(mkTag n _ cs) := t in
  if decide (n = name) then Some t
  else (fix go (ts : list Tag) : option Tag :=
          match ts with
          | [] => None
          | c :: r => match first_named name c with
                      | Some x => Some x
                      | None => go r
                      end
          end) cs.

(** [t.find(name)]: the first descendant of [t] called [name], or [None]. *)
Definition find (t : Tag) (name : string) : option Tag :=
  (fix go (ts : list Tag) : option Tag :=
     match ts with
     | [] => None
     | c :: r => match first_named name c with
                 | Some x => Some x
                 | None => go r
                 end
     end) (contents t).

(** A decoded JSON document. *)
Inductive json : Type :=
  | JNull
  | JBool (b : bool)
  | JNum (z : Z)
  | JStr (s : string)
  | JList (l : list json)
  | JDict (kvs : list (string * json)).

Local Set Elimination Schemes.

(** The value of the key [k] in the items of a JSON object. *)
Fixpoint assoc (k : string) (kvs : list (string * json)) : option json :=
  match kvs with
  | [] => None
  | (k', v) :: r => if decide (k' = k) then Some v else assoc k r
  end.

(** [j[k]] for a string [k]. *)
Definition getitem (j : json) (k : string) : result json :=
  match j with
  | JDict kvs => match assoc k kvs with
                 | Some v => Ok v
                 | None => Raise KeyError
                 end
  | _ => Raise TypeError
  end.

(** [j[0]] *)
Definition getitem0 (j : json) : result json :=
  match j with
  | JList (x :: _) => Ok x
  | JList [] => Raise IndexError
  | JStr (String c _) => Ok (JStr (String c EmptyString))
  | JStr EmptyString => Raise IndexError
  | JDict _ => Raise KeyError
  | _ => Raise TypeError
  end.

(** ** _get_go_id and _get_name *)

(** [_get_go_id]: without an [rdf:li] descendant the subscript of [None] is
    the [TypeError] that the function turns into [None]; an [rdf:li] without
    the attribute is a [KeyError], which it does not catch. *)
Definition _get_go_id (compartment_tag : Tag) : result (option string) :=
  match find compartment_tag "rdf:li" with
  | None => Ok None
  | Some li =>
      match attrs li !! "rdf:resource" with
      | None => Raise KeyError
      | Some resource => Ok (Some (List.last (split "/" resource) EmptyString))
      end
  end.

(** The cutoff [0.8] that [_get_name] passes to [get_close_matches]. *)
Definition cutoff : score := mkScore 4 5.

Section Resolver.
(** [BioModels.tools.get_go_json], which is not among the sources: the
    lookup of an identifier at the ontology service. *)
Variable get_go_json : string → result json.

(** The body of the [try] statement; [assert go_id] fails on [None] and on
    the empty string. *)
Definition lookup_name (compartment_tag : Tag) : result json :=
  go_id ← _get_go_id compartment_tag;
  match go_id with
  | None | Some EmptyString => Raise AssertionError
  | Some go_id =>
      response ← get_go_json go_id;
      r ← getitem response "response";
      docs ← getitem r "docs";
      doc ← getitem0 docs;
      getitem doc "annotation_class_label"
  end.

(** The handler of [AssertionError] and [ValueError]. *)
Definition fuzzy_name (compartment_tag : Tag)
    (all_go_compartments : list string) : result json :=
  name ← match attrs compartment_tag !! "name" with
         | Some name => Ok name
         | None => match attrs compartment_tag !! "id" with
                   | Some id => Ok id
                   | None => Raise KeyError
                   end
         end;
  match get_close_matches (lower name) all_go_compartments cutoff with
  | m :: _ => Ok (JStr m)
  | [] => Ok (JStr name)
  end.

(** [_get_name]: the [try] statement with its one handler; any other
    exception leaves the function. *)
Definition _get_name (compartment_tag : Tag)
    (all_go_compartments : list string) : result json :=
  match lookup_name compartment_tag with
  | Ok compartment_name => Ok compartment_name
  | Raise AssertionError | Raise ValueError =>
      fuzzy_name compartment_tag all_go_compartments
  | Raise e => Raise e
  end.
End Resolver.

(** The name or, without a name, the id that a tag declares. *)
Definition declared_name (t : Tag) : option string :=
  match attrs t !! "name" with
  | Some name => Some name
  | None => attrs t !! "id"
  end.

(** ** Concrete tags and services *)

(** A compartment called "cytosol", without annotation. *)
Definition cytosol_tag : Tag :=
  mkTag "compartment" {["id" := "c1"; "name" := "cytosol"]} [].

(** The same compartment with an annotation that points to [resource]. *)
Definition annotated_tag (resource : string) : Tag :=
  mkTag "compartment" {["id" := "c1"; "name" := "cytosol"]}
    [mkTag "annotation" ∅
       [mkTag "rdf:rdf" ∅
          [mkTag "rdf:description" ∅
             [mkTag "bqbiol:is" ∅
                [mkTag "rdf:bag" ∅
                   [mkTag "rdf:li" {["rdf:resource" := resource]} []]]]]]].

(** The same compartment with an [rdf:li] that has no [rdf:resource]. *)
Definition bare_li_tag : Tag :=
  mkTag "compartment" {["id" := "c1"; "name" := "cytosol"]}
    [mkTag "annotation" ∅ [mkTag "rdf:li" ∅ []]].

(** A compartment whose declared name is the empty string. *)
Definition unnamed_tag : Tag :=
  mkTag "compartment" {["id" := "c1"; "name" := ""]} [].

(** A service that rejects every identifier. *)
Definition no_service : string → result json := λ _, Raise ValueError.

(** A service that finds no document. *)
Definition empty_service : string → result json :=
  λ _, Ok (JDict [("response",
             JDict [("numFound", JNum 0); ("docs", JList [])])]).

(** A service that finds the cytoplasm. *)
Definition cytoplasm_service : string → result json :=
  λ _, Ok (JDict [("response",
             JDict [("numFound", JNum 1);
                    ("docs", JList [JDict [("annotation_class_label",
                                            JStr "cytoplasm")]])])]).

(** A compartment whose declared name has a capital letter. *)
Definition capital_tag : Tag :=
  mkTag "compartment" {["id" := "c1"; "name" := "Cytosol"]} [].

(** ** The tests of get_close_matches *)

(** The three tests that [get_close_matches] applies to the possibility [x]
    for [word]: the two quick estimates and the ratio reach the cutoff. *)
Definition close_enough (word x : string) (c : score) : bool :=
  score_leb c (real_quick_ratio (String.list_ascii_of_string x)
                                (String.list_ascii_of_string word))
  && score_leb c (quick_ratio (String.list_ascii_of_string x)
                              (String.list_ascii_of_string word))
  && score_leb c (ratio (String.list_ascii_of_string x)
                        (String.list_ascii_of_string word)).

(** The score of the possibility [x] for [word]. *)
Definition similarity (word x : string) : score :=
  ratio (String.list_ascii_of_string x) (String.list_ascii_of_string word).

(** ** Ranges and blocks of the matching loop *)

(** A block found in [a[alo:hi]]. *)
Definition block_within (alo hi : Z) (m : block) : Prop :=
  (alo ≤ m.1.1 ∧ m.1.1 + m.2 ≤ hi ∧ 0 ≤ m.2)%Z.

(** The values of a [j2len] dictionary are at most [u]. *)
Definition values_le (m : gmap Z Z) (u : Z) : Prop :=
  ∀ j v, m !! j = Some v → (v ≤ u)%Z.

(** A range of the queue, and what it adds to the number of turns. *)
Definition range_ok (q : Z * Z * Z * Z) : Prop := (q.1.1.1 ≤ q.1.1.2)%Z.

Definition weight (q : Z * Z * Z * Z) : Z := (2 * (q.1.1.2 - q.1.1.1) + 1)%Z.

Definition queue_weight (queue : list (Z * Z * Z * Z)) : Z :=
  foldr (λ q n, weight q + n)%Z 0%Z queue.

(** ** Segments *)

(** The segments [init] of a split, each followed by the separator. *)
Definition followed_by (sep : string) (init : list string) : string :=
  foldr (λ seg acc, seg ++ sep ++ acc) EmptyString init.

(** ** The reference set *)

(** The tags called [name] among [t] and its descendants, in document
    order. *)
Fixpoint all_named (name : string) (t : Tag) : list Tag :=
  let '(mkTag n _ cs) := t in
  ((if decide (n = name) then [t] else []) ++
   (fix go (ts : list Tag) : list Tag :=
      match ts with
      | [] => []
      | c :: r => all_named name c ++ go r
      end) cs)%list.

(** [t.find_all(name)]: the descendants of [t] called [name]. *)
Definition find_all (t : Tag) (name : string) : list Tag :=
  flat_map (all_named name) (contents t).

(** [hash(j)] succeeds: lists and dictionaries are not hashable. *)
Definition hashable (j : json) : bool :=
  match j with
  | JList _ | JDict _ => false
  | _ => true
  end.

Section ReferenceSet.
(** [BioModels.tools.get_go_json], as for the resolver. *)
Variable get_go_json : string → result json.

(** The first two lines of the [try] statement of
    [get_all_go_compartments]: without an [rdf:li] descendant the subscript
    of [None] is a [TypeError]; the identifier is not tested before it is
    looked up. *)
Definition compartment_label (tag : Tag) : result json :=
  match find tag "rdf:li" with
  | None => Raise TypeError
  | Some li =>
      match attrs li !! "rdf:resource" with
      | None => Raise KeyError
      | Some resource =>
          response ← get_go_json (List.last (split "/" resource) EmptyString);
          r ← getitem response "response";
          docs ← getitem r "docs";
          doc ← getitem0 docs;
          getitem doc "annotation_class_label"
      end
  end.

(** The [try] statement for one tag.  [all_compartments] is the list of the
    values that were added, the last one first; the set holds a value when
    the list does.  Adding a value that is not hashable is a [TypeError],
    which the handler catches like the one of a missing annotation. *)
Definition add_compartment (all_compartments : list json) (tag : Tag)
    : result (list json) :=
  match compartment_label tag with
  | Ok compartment_name =>
      if hashable compartment_name
      then Ok (compartment_name :: all_compartments)
      else Ok all_compartments
  | Raise ValueError | Raise TypeError => Ok all_compartments
  | Raise e => Raise e
  end.

(** The loop over the compartment tags of one document. *)
Fixpoint add_compartments (all_compartments : list json) (tags : list Tag)
    : result (list json) :=
  match tags with
  | [] => Ok all_compartments
  | tag :: rest =>
      all_compartments' ← add_compartment all_compartments tag;
      add_compartments all_compartments' rest
  end.

(** The body of the loop over the files: a document with fewer than two
    compartments is skipped. *)
Definition scan_document (all_compartments : list json) (soup : Tag)
    : result (list json) :=
  let compartment_tags := find_all soup "compartment" in
  if (length compartment_tags <? 2)%nat then Ok all_compartments
  else add_compartments all_compartments compartment_tags.

Fixpoint scan_documents (all_compartments : list json) (soups : list Tag)
    : result (list json) :=
  match soups with
  | [] => Ok all_compartments
  | soup :: rest =>
      all_compartments' ← scan_document all_compartments soup;
      scan_documents all_compartments' rest
  end.

(** [get_all_go_compartments], on the parsed files of the directory. *)
Definition get_all_go_compartments (soups : list Tag) : result (list json) :=
  scan_documents [] soups.
End ReferenceSet.

(** A document has several compartments. *)
Definition multi_compartment (soup : Tag) : Prop :=
  (2 ≤ length (find_all soup "compartment"))%nat.

(** A document with two compartments: one annotated with [resource], one
    without annotation. *)
Definition two_compartments (resource : string) : Tag :=
  mkTag "[document]" ∅
    [mkTag "sbml" ∅
       [mkTag "model" ∅
          [mkTag "listofcompartments" ∅
             [annotated_tag resource; cytosol_tag]]]].

(** A document with one compartment, whose [rdf:li] has no resource. *)
Definition one_compartment : Tag :=
  mkTag "[document]" ∅ [mkTag "sbml" ∅ [bare_li_tag]].

Global Instance multi_compartment_dec soup : Decision (multi_compartment soup).
Proof. unfold multi_compartment. apply _. Defined.

(** A label that the scan adds to the reference set. *)
Definition contributes (get_go_json : string → result json)
    (soups : list Tag) (v : json) : Prop :=
  ∃ soup tag, soup ∈ soups ∧ multi_compartment soup ∧
    tag ∈ find_all soup "compartment" ∧
    compartment_label get_go_json tag = Ok v ∧ hashable v = true.

(** An error that the scan does not catch. *)
Definition escapes (e : exn) : Prop := e ≠ ValueError ∧ e ≠ TypeError.

(** A document with two compartments, one of which has an [rdf:li] without
    resource. *)
Definition broken_compartments : Tag :=
  mkTag "[document]" ∅ [mkTag "sbml" ∅ [cytosol_tag; bare_li_tag]].

(** * The parsers *)

(** ** Strings and paths *)

(** [s.startswith(p)] *)
Fixpoint startswith (s p : string) {struct p} : bool :=
  match p with
  | EmptyString => true
  | String a p' =>
      match s with
      | EmptyString => false
      | String b s' => if decide (a = b) then startswith s' p' else false
      end
  end.

(** [s.split(sep)] for a separator of one character or more, reading [s]
    from the left: [skip] characters of the separator that was found last
    are still to be passed. *)
Fixpoint split_from (sep : string) (skip : nat) (s : string) : list string :=
  match s with
  | EmptyString => [EmptyString]
  | String c r =>
      match skip with
      | S k => split_from sep k r
      | O =>
          if startswith s sep
          then EmptyString :: split_from sep (String.length sep - 1) r
          else match split_from sep 0 r with
               | seg :: segs => String c seg :: segs
               | [] => [String c EmptyString]
               end
      end
  end.

Definition split_str (sep s : string) : list string := split_from sep 0 s.

(** [sep in s] *)
Fixpoint contains (s sep : string) : bool :=
  startswith s sep
  || match s with
     | EmptyString => false
     | String _ r => contains r sep
     end.

(** [s.count(c)] for a character [c]. *)
Fixpoint occurrences (c : ascii) (s : string) : nat :=
  match s with
  | EmptyString => 0
  | String x r => (if decide (x = c) then 1 else 0) + occurrences c r
  end.

(** [os.path.basename(p)] of [posixpath]: what follows the last slash. *)
Definition basename (p : string) : string :=
  List.last (split "/" p) EmptyString.

(** ** Descriptors *)

(** A tuple as a parser yields it: two dictionaries and a label. *)
Abbreviation triple := (dict * value * dict)%type.

(** The exceptions of the parsers: the ones above, the [AttributeError] of
    an attribute of [None] or of a method that a value does not have, and
    the exceptions of the date parser. *)
Inductive error : Type :=
  | Exn (e : exn)
  | AttributeError
  | DateError.

(** What a generator does when it is run to its end: the tuples it yields,
    and the exception that ends it, if there is one. *)
Abbreviation outcome := (list triple * option error)%type.

(** [str(basename(sbml_file.name).split('.')[0])] *)
Definition model_name (name : string) : string :=
  List.hd EmptyString (split "." (basename name)).

(** The dictionary [model_data] of [parse_mcmp_model]. *)
Definition model_data (name created : string) : dict :=
  {[ "name" := VStr (model_name name);
     "provider" := VStr "biomodels.db";
     "URI" := VStr ("http://identifiers.org/biomodels.db/" ++ model_name name);
     "created" := VStr created;
     "color" := VStr "green" ]}.

(** The dictionary [child_data] of [parse_derived_model], with its colour. *)
Definition child_data (name created : string) : dict :=
  <["color" := VStr "green"]>
    {[ "name" := VStr (model_name name);
       "provider" := VStr "biomodels.db";
       "URI" := VStr ("http://identifiers.org/biomodels.db/"
                      ++ model_name name);
       "created" := VStr created ]}.

(** What is left of a URI after [split("http://identifiers.org/")[-1]]. *)
Definition URI_path (parent_URI : string) : string :=
  List.last (split_str "http://identifiers.org/" parent_URI) EmptyString.

Definition URI_name (parent_URI : string) : string :=
  List.last (split "/" (URI_path parent_URI)) EmptyString.

Definition URI_provider (parent_URI : string) : string :=
  List.hd EmptyString (split "/" (URI_path parent_URI)).

(** The dictionary [parent_data] of [parse_derived_model], with its colour
    if the provider has one. *)
Definition parent_data (parent_URI : string) : dict :=
  let parent_data : dict :=
    {[ "name" := VStr (URI_name parent_URI);
       "provider" := VStr (URI_provider parent_URI);
       "URI" := VStr parent_URI ]} in
  if decide (URI_provider parent_URI = "biomodels.db"
             ∨ URI_provider parent_URI = "pubmed")
  then <["color" := if decide (URI_provider parent_URI = "pubmed")
                    then VStr "red" else VStr "green"]> parent_data
  else parent_data.

(** The resources of a list of [rdf:li] tags, up to the first one that has
    none, whose subscript is a [KeyError]. *)
Fixpoint resources (lis : list Tag) : list string * option error :=
  match lis with
  | [] => ([], None)
  | tag :: rest =>
      match attrs tag !! "rdf:resource" with
      | None => ([], Some (Exn KeyError))
      | Some resource =>
          let '(rs, e) := resources rest in (resource :: rs, e)
      end
  end.

(** [_extract_parent_URIs] *)
Definition _extract_parent_URIs (soup : Tag) : list string * option error :=
  resources (flat_map (λ resource, find_all resource "rdf:li")
                      (find_all soup "bqmodel:isderivedfrom")).

Section Parsers.
(** The text of a tag, which the tags above do not hold, and
    [str(dateutil.parser.parse(dt).date())], with [None] for an exception of
    the date parser. *)
Variable text : Tag → string.
Variable parse_date : string → option string.
(** [BioModels.tools.get_go_json], as for the resolver. *)
Variable get_go_json : string → result json.

(** [_extract_publication_date] *)
Definition _extract_publication_date (soup : Tag) : error + string :=
  match find soup "dcterms:created" with
  | None => inl AttributeError
  | Some created =>
      match find created "dcterms:w3cdtf" with
      | None => inl AttributeError
      | Some w3cdtf =>
          match parse_date (text w3cdtf) with
          | Some date => inr date
          | None => inl DateError
          end
      end
  end.

(** [parse_derived_model], for the file called [name] whose content is
    [soup]. *)
Definition parse_derived_model (name : string) (soup : Tag) : outcome :=
  match _extract_publication_date soup with
  | inl e => ([], Some e)
  | inr child_publication_date =>
      let '(parent_URIs, e) := _extract_parent_URIs soup in
      (map (λ parent_URI,
              (child_data name child_publication_date,
               VStr "isDerivedFrom", parent_data parent_URI))
           parent_URIs, e)
  end.

(** The dictionary [compartment_data] of [parse_mcmp_model] when the tuple
    is yielded: [lower] is a method of strings only, and the identifier is
    an entry if it is neither [None] nor empty. *)
Definition compartment_data (compartment_tag : Tag)
    (all_go_compartments : list string) : error + dict :=
  match _get_name get_go_json compartment_tag all_go_compartments with
  | Raise e => inl (Exn e)
  | Ok (JStr compartment_name) =>
      let compartment_data : dict :=
        {[ "name" := VStr (lower compartment_name);
           "color" := VStr "yellow" ]} in
      match _get_go_id compartment_tag with
      | Raise e => inl (Exn e)
      | Ok (Some (String c r)) =>
          inr (<["identifier" := VStr (String c r)]> compartment_data)
      | Ok _ => inr compartment_data
      end
  | Ok _ => inl AttributeError
  end.

(** The loop of [parse_mcmp_model] over the compartment tags. *)
Fixpoint compartment_tuples (name created : string)
    (all_go_compartments : list string) (compartment_tags : list Tag)
    : outcome :=
  match compartment_tags with
  | [] => ([], None)
  | compartment_tag :: rest =>
      match compartment_data compartment_tag all_go_compartments with
      | inl e => ([], Some e)
      | inr compartment_data =>
          let '(ts, e) :=
            compartment_tuples name created all_go_compartments rest in
          ((model_data name created, VStr "isPartOf", compartment_data) :: ts,
           e)
      end
  end.

(** [parse_mcmp_model], for the file called [name] whose content is
    [soup]. *)
Definition parse_mcmp_model (name : string) (soup : Tag)
    (all_go_compartments : list string) (skip_single_cmp_models : bool)
    : outcome :=
  let compartment_tags := find_all soup "compartment" in
  if (length compartment_tags <? 2)%nat && skip_single_cmp_models
  then ([], None)
  else
    match _extract_publication_date soup with
    | inl e => ([], Some e)
    | inr model_publication_date =>
        compartment_tuples name model_publication_date all_go_compartments
                           compartment_tags
    end.
End Parsers.

(** ** The tuples of a parser as a stream of build_graph *)

(** The descriptors of the tuples, each an object of its own, in the order
    of the stream. *)
Definition objects (ts : list triple) : list dict :=
  flat_map (λ t : triple, [t.1.1; t.2]) ts.

(** The tuples with the addresses of their descriptors, from [i] on. *)
Fixpoint addressed (i : nat) (ts : list triple) : list tuple :=
  match ts with
  | [] => []
  | t :: rest => (i, t.1.2, S i) :: addressed (S (S i)) rest
  end.

(** A descriptor that [build_graph] accepts when it is an object of its own:
    its name is a string and none of its keys is a parameter of
    [add_node]. *)
Definition well_formed (d : dict) : Prop :=
  (∃ s, d !! "name" = Some (VStr s)) ∧
  d !! "self" = None ∧ d !! "node_for_adding" = None.

(** The name of a descriptor that has one. *)
Definition name_in (d : dict) : value := default VNone (d !! "name").

(** What [build_graph] reads from a tuple of a parser. *)
Definition entry_of (t : triple) : entry :=
  mkEntry (name_in t.1.1) (delete "name" t.1.1) t.1.2
          (name_in t.2) (delete "name" t.2).

(** ** Concrete documents *)

(** The annotation of a model that was created on some date. *)
Definition created_tag : Tag :=
  mkTag "dcterms:created" {["rdf:parsetype" := "Resource"]}
    [mkTag "dcterms:w3cdtf" ∅ []].

(** A model with a creation date and two compartments: one annotated with
    [resource], one without annotation. *)
Definition dated_document (resource : string) : Tag :=
  mkTag "[document]" ∅
    [mkTag "sbml" ∅
       [mkTag "model" ∅
          [mkTag "annotation" ∅ [created_tag];
           mkTag "listofcompartments" ∅
             [annotated_tag resource; cytosol_tag]]]].

(** A model with a creation date that is derived from the two [resources]. *)
Definition derived_document (r1 r2 : string) : Tag :=
  mkTag "[document]" ∅
    [mkTag "sbml" ∅
       [mkTag "model" ∅
          [mkTag "annotation" ∅
             [created_tag;
              mkTag "bqmodel:isderivedfrom" ∅
                [mkTag "rdf:bag" ∅
                   [mkTag "rdf:li" {["rdf:resource" := r1]} [];
                    mkTag "rdf:li" {["rdf:resource" := r2]} []]]]]]].

(** A date parser for the documents above. *)
Definition a_text : Tag → string := λ _, "2005-06-29T16:10:01Z".
Definition a_date : string → option string := λ _, Some "2005-06-29".

(** A model with a creation date and two compartments, the second with an
    [rdf:li] that has no resource. *)
Definition failing_document : Tag :=
  mkTag "[document]" ∅
    [mkTag "sbml" ∅
       [mkTag "model" ∅
          [mkTag "annotation" ∅ [created_tag];
           mkTag "listofcompartments" ∅ [cytosol_tag; bare_li_tag]]]].

(** * Lemmas and theorems *)

(** ** The loop body, case by case *)

(** What a successful run of the loop body did: both pops succeeded on two
    different objects, and the three graph calls succeeded in turn. *)
Lemma process_ok_inv g c e p h g' h' :
  process g (c, e, p) h = (Ok g', h') →
  ∃ cn pn g1 g2,
    name_of h c = Some cn ∧ name_of h p = Some pn ∧ c ≠ p ∧
    h' = <[p := attrs_of h p]> (<[c := attrs_of h c]> h) ∧
    call_add_node g cn (attrs_of h c) = Ok g1 ∧
    call_add_node g1 pn (attrs_of h p) = Ok g2 ∧
    add_edge g2 cn pn {["label" := e]} = Ok g'.
Proof.
  unfold process, mbind, M_bind, dict_pop, dict_read, lift, name_of, attrs_of.
  destruct (h c !! "name") as [cn|] eqn:Hc; [|done].
  destruct (decide (c = p)) as [->|Hne].
  { rewrite fn_lookup_insert, lookup_delete_eq. done. }
  rewrite fn_lookup_insert_ne by done.
  destruct (h p !! "name") as [pn|] eqn:Hp; [|done].
  rewrite (fn_lookup_insert_ne _ p c) by done.
  rewrite !fn_lookup_insert.
  destruct (call_add_node g cn _) as [g1|] eqn:H1; [|done].
  destruct (call_add_node g1 pn _) as [g2|] eqn:H2; [|done].
  intros [= Hg <-]. eauto 12.
Qed.

(** Whatever the outcome, the loop body changes a descriptor only by
    removing its name. *)
Lemma process_store g t h r h' l :
  process g t h = (r, h') → h' l = h l ∨ h' l = delete "name" (h l).
Proof.
  destruct t as [[c e] p].
  unfold process, mbind, M_bind, dict_pop, dict_read, lift.
  destruct (h c !! "name") as [cn|] eqn:Hc; [|intros [= _ <-]; by left].
  destruct (decide (c = p)) as [->|Hne].
  { rewrite fn_lookup_insert, lookup_delete_eq. intros [= _ <-].
    destruct (decide (p = l)) as [->|?].
    - right. by rewrite fn_lookup_insert.
    - left. by rewrite fn_lookup_insert_ne. }
  rewrite fn_lookup_insert_ne by done.
  assert (∀ h2 : store,
    (h2 = <[c:=delete "name" (h c)]> h ∨
     h2 = <[p:=delete "name" (h p)]> (<[c:=delete "name" (h c)]> h)) →
    h2 l = h l ∨ h2 l = delete "name" (h l)) as Hcase.
  { intros h2 [-> | ->].
    - destruct (decide (c = l)) as [->|?].
      + right. by rewrite fn_lookup_insert.
      + left. by rewrite fn_lookup_insert_ne.
    - destruct (decide (p = l)) as [->|?].
      + right. by rewrite fn_lookup_insert.
      + rewrite fn_lookup_insert_ne by done.
        destruct (decide (c = l)) as [->|?].
        * right. by rewrite fn_lookup_insert.
        * left. by rewrite fn_lookup_insert_ne. }
  destruct (h p !! "name") as [pn|] eqn:Hp.
  2:{ intros [= _ <-]. apply Hcase. by left. }
  rewrite (fn_lookup_insert_ne _ p c) by done.
  rewrite !fn_lookup_insert.
  destruct (call_add_node g cn _) as [g1|] eqn:H1.
  2:{ intros [= _ <-]. apply Hcase. by right. }
  destruct (call_add_node g1 pn _) as [g2|] eqn:H2.
  2:{ intros [= _ <-]. apply Hcase. by right. }
  intros [= _ <-]. apply Hcase. by right.
Qed.

Lemma build_loop_store data : ∀ g h r h' l,
  build_loop g data h = (r, h') → h' l = h l ∨ h' l = delete "name" (h l).
Proof.
  induction data as [|t data IH]; intros g h r h' l; simpl.
  - intros [= _ <-]. by left.
  - unfold mbind, M_bind.
    destruct (process g t h) as [[g1|err] h1] eqn:Hp.
    + intros Hrest. apply IH with (l := l) in Hrest.
      apply process_store with (l := l) in Hp.
      destruct Hrest as [-> | ->], Hp as [-> | ->]; auto.
      right. by rewrite delete_delete_eq.
    + intros [= _ <-]. by eapply process_store.
Qed.

(** A descriptor that still has its name afterwards had it before, with the
    same content. *)
Lemma store_name_back (h h' : store) l n :
  (h' l = h l ∨ h' l = delete "name" (h l)) →
  name_of h' l = Some n → h' l = h l.
Proof.
  unfold name_of. intros [-> | ->]; [done|]. by rewrite lookup_delete_eq.
Qed.

(** ** The graph calls in closed form *)

Lemma graph_inv_empty : graph_inv empty_graph.
Proof. unfold graph_inv, empty_graph; simpl. by rewrite !dom_empty_L. Qed.

Lemma dom_node_upd N n a : dom (node_upd N n a) = {[n]} ∪ dom N.
Proof. unfold node_upd. by rewrite dom_insert_L. Qed.

Lemma dom_row_touch S n : dom (row_touch S n) = {[n]} ∪ dom S.
Proof. unfold row_touch. by rewrite dom_insert_L. Qed.

Lemma dom_edge_ins S u v d : dom (edge_ins S u v d) = {[u]} ∪ dom S.
Proof. unfold edge_ins. by rewrite dom_insert_L. Qed.

Lemma row_touch_id S n : is_Some (S !! n) → row_touch S n = S.
Proof. intros [r Hr]. unfold row_touch. rewrite Hr. by apply insert_id. Qed.

Lemma node_upd_empty_id N n : is_Some (N !! n) → node_upd N n ∅ = N.
Proof.
  intros [d Hd]. unfold node_upd. rewrite Hd; simpl.
  rewrite (left_id_L ∅ (∪)). by apply insert_id.
Qed.

Lemma same_dom_lookup {A B} (m1 : gmap value A) (m2 : gmap value B) n :
  dom m1 = dom m2 → is_Some (m1 !! n) ↔ is_Some (m2 !! n).
Proof. intros Hd. by rewrite <-!elem_of_dom, Hd. Qed.

Lemma add_node_closed g n a :
  graph_inv g → n ≠ VNone →
  add_node g n a =
    Ok (mkDiGraph (node_upd (_node g) n a)
                  (row_touch (_succ g) n) (row_touch (_pred g) n)).
Proof.
  intros (HN & HP & _) Hn. unfold add_node.
  pose proof (same_dom_lookup (_node g) (_succ g) n HN) as H1.
  pose proof (same_dom_lookup (_pred g) (_succ g) n HP) as H2.
  destruct (_succ g !! n) as [r|] eqn:Hs.
  - destruct (_node g !! n) as [d|] eqn:Hd.
    2:{ destruct H1 as [_ H1]. destruct H1 as [? [=]]. eauto. }
    destruct (_pred g !! n) as [q|] eqn:Hq.
    2:{ destruct H2 as [_ H2]. destruct H2 as [? [=]]. eauto. }
    f_equal. unfold node_upd, row_touch. rewrite Hd, Hs, Hq; simpl.
    f_equal; symmetry; by apply insert_id.
  - rewrite decide_False by done.
    destruct (_node g !! n) as [d|] eqn:Hd.
    { destruct H1 as [H1 _]. destruct H1 as [? [=]]. eauto. }
    destruct (_pred g !! n) as [q|] eqn:Hq.
    { destruct H2 as [H2 _]. destruct H2 as [? [=]]. eauto. }
    unfold node_upd, row_touch. rewrite Hd, Hs, Hq; simpl.
    by rewrite (right_id_L ∅ (∪)).
Qed.

Lemma add_node_None g a :
  graph_inv g → add_node g VNone a = Raise ValueError.
Proof. intros (_ & _ & H). unfold add_node. by rewrite H. Qed.

Lemma ensure_node_closed g n :
  graph_inv g → n ≠ VNone →
  ensure_node g n =
    Ok (mkDiGraph (node_upd (_node g) n ∅)
                  (row_touch (_succ g) n) (row_touch (_pred g) n)).
Proof.
  intros (HN & HP & _) Hn. unfold ensure_node.
  pose proof (same_dom_lookup (_node g) (_succ g) n HN) as H1.
  pose proof (same_dom_lookup (_pred g) (_succ g) n HP) as H2.
  destruct (_succ g !! n) as [r|] eqn:Hs.
  - rewrite node_upd_empty_id by (apply H1; eauto).
    rewrite !row_touch_id by (try apply H2; rewrite ?Hs; eauto).
    by destruct g.
  - rewrite decide_False by done.
    destruct (_node g !! n) as [d|] eqn:Hd.
    { destruct H1 as [H1 _]. destruct H1 as [? [=]]. eauto. }
    destruct (_pred g !! n) as [q|] eqn:Hq.
    { destruct H2 as [H2 _]. destruct H2 as [? [=]]. eauto. }
    unfold node_upd, row_touch. rewrite Hd, Hs, Hq; simpl.
    by rewrite (right_id_L ∅ (∪)).
Qed.

Lemma graph_inv_touch N S P n a :
  graph_inv (mkDiGraph N S P) → n ≠ VNone →
  graph_inv (mkDiGraph (node_upd N n a) (row_touch S n) (row_touch P n)).
Proof.
  intros (HN & HP & H0) Hn. unfold graph_inv in *; simpl in *.
  rewrite dom_node_upd, !dom_row_touch, HN, HP. split_and!; [done..|].
  unfold row_touch. by rewrite lookup_insert_ne.
Qed.

Lemma graph_inv_eta g :
  graph_inv g → graph_inv (mkDiGraph (_node g) (_succ g) (_pred g)).
Proof. by destruct g. Qed.

Ltac solve_graph_inv :=
  repeat first [done | apply graph_inv_eta | apply graph_inv_touch].

Lemma add_edge_closed g u v attr :
  graph_inv g → u ≠ VNone → v ≠ VNone →
  add_edge g u v attr =
    Ok (mkDiGraph
          (node_upd (node_upd (_node g) u ∅) v ∅)
          (edge_ins (row_touch (row_touch (_succ g) u) v) u v
                    (new_datadict g u v attr))
          (edge_ins (row_touch (row_touch (_pred g) u) v) v u
                    (new_datadict g u v attr))).
Proof.
  intros Hg Hu Hv. unfold add_edge, mbind, result_bind.
  rewrite ensure_node_closed by done.
  rewrite ensure_node_closed by solve_graph_inv.
  simpl.
  assert (∀ S : gmap value (gmap value dict),
    row_touch (row_touch S u) v !! u = Some (default ∅ (S !! u))) as Hrow_u.
  { intros S. unfold row_touch. destruct (decide (v = u)) as [->|?].
    - by rewrite !lookup_insert_eq.
    - rewrite lookup_insert_ne by done. by rewrite lookup_insert_eq. }
  assert (∀ S : gmap value (gmap value dict),
    row_touch (row_touch S u) v !! v = Some (default ∅ (S !! v))) as Hrow_v.
  { intros S. unfold row_touch. rewrite lookup_insert_eq.
    destruct (decide (u = v)) as [->|?].
    - by rewrite lookup_insert_eq.
    - by rewrite lookup_insert_ne. }
  rewrite Hrow_u, Hrow_v. unfold edge_ins. rewrite Hrow_u, Hrow_v.
  unfold new_datadict, edge_data.
  by destruct (_succ g !! u).
Qed.

Lemma call_add_node_ok g n a g' :
  graph_inv g → call_add_node g n a = Ok g' → n ≠ VNone ∧ ¬ reserved_kw a.
Proof.
  intros Hg. unfold call_add_node, reserved_kw. case_decide; [done|].
  intros Ha. split; [|done]. intros ->. by rewrite add_node_None in Ha.
Qed.

Lemma call_add_node_closed g n a :
  graph_inv g → n ≠ VNone → ¬ reserved_kw a →
  call_add_node g n a =
    Ok (mkDiGraph (node_upd (_node g) n a)
                  (row_touch (_succ g) n) (row_touch (_pred g) n)).
Proof.
  intros Hg Hn Ha. unfold call_add_node. fold (reserved_kw a).
  rewrite decide_False by done. by apply add_node_closed.
Qed.

Lemma node_upd_lookup N n a k :
  node_upd N n a !! k =
    if decide (n = k) then Some (a ∪ default ∅ (N !! n)) else N !! k.
Proof. unfold node_upd. by rewrite lookup_insert. Qed.

Lemma row_touch_lookup S n k :
  row_touch S n !! k =
    if decide (n = k) then Some (default ∅ (S !! n)) else S !! k.
Proof. unfold row_touch. by rewrite lookup_insert. Qed.

Lemma row_touch_default S n k :
  default ∅ (row_touch S n !! k) = default ∅ (S !! k).
Proof. rewrite row_touch_lookup. by case_decide; subst. Qed.

Lemma upsert_closed g en :
  graph_inv g → entry_ok en → upsert g en = Ok (graph_after g en).
Proof.
  intros Hg (Hc & Hp & Hca & Hpa). unfold upsert, mbind, result_bind.
  rewrite call_add_node_closed by done.
  rewrite call_add_node_closed by solve_graph_inv.
  simpl.
  rewrite add_edge_closed by solve_graph_inv.
  simpl. unfold graph_after. f_equal.
  assert (∀ S : gmap value (gmap value dict),
    row_touch (row_touch (row_touch (row_touch S (child_name en))
      (parent_name en)) (child_name en)) (parent_name en) =
    row_touch (row_touch S (child_name en)) (parent_name en)) as Htouch.
  { intros S. rewrite (row_touch_id _ (child_name en)).
    - rewrite (row_touch_id _ (parent_name en)); [done|].
      rewrite row_touch_lookup. rewrite decide_True by done. eauto.
    - rewrite !row_touch_lookup. repeat case_decide; try done; eauto. }
  assert (new_datadict
    {| _node := node_upd (node_upd (_node g) (child_name en) (child_kw en))
                  (parent_name en) (parent_kw en);
       _succ := row_touch (row_touch (_succ g) (child_name en)) (parent_name en);
       _pred := row_touch (row_touch (_pred g) (child_name en)) (parent_name en)
    |} (child_name en) (parent_name en) {["label" := label en]} =
    new_datadict g (child_name en) (parent_name en) {["label" := label en]})
    as ->.
  { unfold new_datadict, edge_data; simpl. f_equal. f_equal.
    rewrite !row_touch_lookup.
    repeat case_decide; subst; simpl; try done;
      by destruct (_succ g !! _). }
  rewrite !Htouch. f_equal.
  rewrite (node_upd_empty_id _ (child_name en)).
  - rewrite (node_upd_empty_id _ (parent_name en)); [done|].
    rewrite node_upd_lookup. rewrite decide_True by done. eauto.
  - rewrite !node_upd_lookup. repeat case_decide; try done; eauto.
Qed.

Lemma upsert_ok_inv g en g' :
  graph_inv g → upsert g en = Ok g' → entry_ok en ∧ g' = graph_after g en.
Proof.
  intros Hg. unfold upsert, mbind, result_bind.
  destruct (call_add_node g _ _) as [g1|] eqn:H1; [|done].
  destruct (call_add_node g1 _ _) as [g2|] eqn:H2; [|done].
  intros H3.
  destruct (call_add_node_ok _ _ _ _ Hg H1) as [Hc Hca].
  rewrite call_add_node_closed in H1 by done. injection H1 as <-.
  assert (graph_inv
    {| _node := node_upd (_node g) (child_name en) (child_kw en);
       _succ := row_touch (_succ g) (child_name en);
       _pred := row_touch (_pred g) (child_name en) |}) as Hg1
    by solve_graph_inv.
  destruct (call_add_node_ok _ _ _ _ Hg1 H2) as [Hp Hpa].
  assert (entry_ok en) as Hok by done.
  split; [done|].
  pose proof (upsert_closed g en Hg Hok) as Hcl.
  unfold upsert, mbind, result_bind in Hcl.
  rewrite call_add_node_closed in Hcl by done. rewrite H2, H3 in Hcl.
  by injection Hcl.
Qed.

Lemma graph_inv_after g en :
  graph_inv g → entry_ok en → graph_inv (graph_after g en).
Proof.
  intros (HN & HP & H0) (Hc & Hp & _). unfold graph_inv, graph_after; simpl.
  rewrite !dom_node_upd, !dom_edge_ins, !dom_row_touch, HN, HP.
  split_and!; [apply set_eq; intros x; rewrite !elem_of_union; tauto..|].
  unfold edge_ins, row_touch. by rewrite !lookup_insert_ne.
Qed.

(** ** The loop, seen from the initial store *)

Lemma locs_cons c e p data : locs ((c, e, p) :: data) = c :: p :: locs data.
Proof. reflexivity. Qed.

Lemma view_ext (h1 h2 : store) c e p :
  h1 c = h2 c → h1 p = h2 p → view h1 (c, e, p) = view h2 (c, e, p).
Proof. intros Hc Hp. unfold view, name_of, attrs_of. by rewrite Hc, Hp. Qed.

Lemma view_names h c e p en :
  view h (c, e, p) = Some en →
  name_of h c = Some (child_name en) ∧ name_of h p = Some (parent_name en) ∧
  child_kw en = attrs_of h c ∧ parent_kw en = attrs_of h p ∧ label en = e.
Proof.
  unfold view. destruct (name_of h c) as [cn|]; [|done].
  destruct (name_of h p) as [pn|]; [|done]. simpl. by intros [= <-].
Qed.

Lemma views_named h data es l :
  views h data es → l ∈ locs data → is_Some (name_of h l).
Proof.
  induction 1 as [|[[c e] p] en data es Hv _ IH]; simpl.
  - by intros ?%elem_of_nil.
  - destruct (view_names _ _ _ _ _ Hv) as (Hc & Hp & _).
    rewrite !elem_of_cons. intros [-> | [-> | ?]]; eauto.
Qed.

Lemma views_back (h h1 : store) data es :
  (∀ l, is_Some (name_of h1 l) → h1 l = h l) →
  views h1 data es → views h data es.
Proof.
  intros Hback. induction 1 as [|[[c e] p] en data es Hv _ IH];
    constructor; [|done].
  destruct (view_names _ _ _ _ _ Hv) as (Hc & Hp & _).
  rewrite <-Hv. apply view_ext; symmetry; apply Hback; eauto.
Qed.

Lemma process_upsert g c e p h :
  name_of h c = None ∨ name_of h p = None ∨ c = p ∨
  ∃ en, view h (c, e, p) = Some en ∧ c ≠ p ∧
    process g (c, e, p) h =
      (upsert g en, <[p := attrs_of h p]> (<[c := attrs_of h c]> h)).
Proof.
  destruct (name_of h c) as [cn|] eqn:Hc; [|by left].
  destruct (name_of h p) as [pn|] eqn:Hp; [|by right; left].
  destruct (decide (c = p)) as [->|Hne]; [by right; right; left|].
  right; right; right.
  exists (mkEntry cn (attrs_of h c) e pn (attrs_of h p)).
  split; [unfold view; by rewrite Hc, Hp|]. split; [done|].
  unfold process, upsert, mbind, M_bind, result_bind, dict_pop, dict_read, lift.
  unfold name_of, attrs_of in *. rewrite Hc.
  rewrite fn_lookup_insert_ne by done. rewrite Hp.
  rewrite (fn_lookup_insert_ne _ p c) by done.
  rewrite !fn_lookup_insert. simpl.
  destruct (call_add_node g cn _) as [g1|]; [|done].
  by destruct (call_add_node g1 pn _) as [g2|].
Qed.

Lemma build_loop_nil g h : build_loop g [] h = (Ok g, h).
Proof. reflexivity. Qed.

Lemma build_loop_cons g t rest h :
  build_loop g (t :: rest) h =
    match process g t h with
    | (Ok g', h') => build_loop g' rest h'
    | (Raise e, h') => (Raise e, h')
    end.
Proof. reflexivity. Qed.

Lemma build_loop_ok_inv data : ∀ g h g' h',
  graph_inv g → build_loop g data h = (Ok g', h') →
  ∃ es, views h data es ∧ Forall entry_ok es ∧
    g' = foldl graph_after g es ∧ graph_inv g' ∧
    NoDup (locs data) ∧ ∀ l, h' l = consumed h data l.
Proof.
  induction data as [|[[c e] p] data IH]; intros g h g' h' Hg.
  - rewrite build_loop_nil. intros [= <- <-].
    exists []. split_and!; try done; by constructor.
  - rewrite build_loop_cons, locs_cons.
    destruct (process g (c, e, p) h) as [[g1|err] h1] eqn:Hproc; [|done].
    intros Hrest.
    destruct (process_ok_inv _ _ _ _ _ _ _ Hproc)
      as (cn & pn & _ & _ & Hc & Hp & Hne & Hh1 & _).
    destruct (process_upsert g c e p h)
      as [Hbad | [Hbad | [Hbad | (en & Hv & _ & Hup)]]]; try congruence.
    rewrite Hproc in Hup. injection Hup as Hup _. symmetry in Hup.
    destruct (upsert_ok_inv _ _ _ Hg Hup) as [Hok ->].
    destruct (IH _ _ _ _ (graph_inv_after _ _ Hg Hok) Hrest)
      as (es & Hvs & Hoks & -> & Hg' & Hnd & Hst).
    assert (∀ l, is_Some (name_of h1 l) → h1 l = h l) as Hback.
    { intros l [n Hn]. eapply store_name_back; [|done].
      by eapply process_store. }
    assert (∀ l, l ∈ locs data → h1 l = h l) as Hsame.
    { intros l Hl. apply Hback. by eapply views_named. }
    assert (name_of h1 c = None ∧ name_of h1 p = None) as [Hc1 Hp1].
    { subst h1. unfold name_of, attrs_of. rewrite fn_lookup_insert.
      rewrite fn_lookup_insert_ne, fn_lookup_insert by done.
      by rewrite !lookup_delete_eq. }
    assert ((c ∉ locs data) ∧ (p ∉ locs data)) as [Hcn Hpn].
    { split; intros Hin; apply (views_named _ _ _ _ Hvs) in Hin;
        destruct Hin as [? Hin]; congruence. }
    exists (en :: es). split_and!; try done.
    + constructor; [done|]. by eapply views_back.
    + by constructor.
    + repeat constructor; [|done..]. rewrite elem_of_cons. tauto.
    + intros l. rewrite Hst. unfold consumed. rewrite locs_cons.
      destruct (decide (l ∈ locs data)) as [Hl|Hl].
      * rewrite decide_True by (rewrite !elem_of_cons; auto).
        unfold attrs_of. by rewrite Hsame.
      * subst h1. destruct (decide (p = l)) as [->|Hpl].
        { rewrite fn_lookup_insert.
          rewrite decide_True by (rewrite !elem_of_cons; auto). done. }
        rewrite fn_lookup_insert_ne by done.
        destruct (decide (c = l)) as [->|Hcl].
        { rewrite fn_lookup_insert.
          rewrite decide_True by (rewrite !elem_of_cons; auto). done. }
        rewrite fn_lookup_insert_ne by done.
        rewrite decide_False; [done|]. rewrite !elem_of_cons.
        intros [-> | [-> | ?]]; done.
Qed.

Lemma views_ext (h1 h2 : store) data es :
  (∀ l, l ∈ locs data → h1 l = h2 l) →
  views h1 data es → views h2 data es.
Proof.
  intros Hsame Hvs. induction Hvs as [|[[c e] p] en data es Hv _ IH];
    constructor.
  - rewrite <-Hv. apply view_ext; symmetry; apply Hsame;
      rewrite locs_cons, !elem_of_cons; auto.
  - apply IH. intros l Hl. apply Hsame. rewrite locs_cons, !elem_of_cons. auto.
Qed.

(** A stream of distinct descriptors that denote acceptable entries is
    folded to the end. *)
Lemma build_loop_ok_intro data : ∀ g h es,
  graph_inv g → NoDup (locs data) → views h data es → Forall entry_ok es →
  ∃ h', build_loop g data h = (Ok (foldl graph_after g es), h').
Proof.
  induction data as [|[[c e] p] data IH]; intros g h es Hg Hnd Hvs Hoks.
  - apply Forall2_nil_inv_l in Hvs as ->. by exists h.
  - apply Forall2_cons_inv_l in Hvs as (en & es' & Hv & Hvs & ->).
    apply Forall_cons_1 in Hoks as [Hok Hoks].
    rewrite locs_cons in Hnd.
    apply list.NoDup_cons in Hnd as [Hcp Hnd].
    apply list.NoDup_cons in Hnd as [Hp Hnd].
    rewrite elem_of_cons in Hcp.
    rewrite build_loop_cons.
    destruct (process_upsert g c e p h)
      as [Hbad | [Hbad | [Hbad | (en' & Hv' & _ & ->)]]].
    + destruct (view_names _ _ _ _ _ Hv) as (? & _). congruence.
    + destruct (view_names _ _ _ _ _ Hv) as (_ & ? & _). congruence.
    + tauto.
    + assert (en' = en) as -> by congruence.
      rewrite upsert_closed by done. simpl foldl.
      apply IH; [by apply graph_inv_after|done| |done].
      eapply views_ext; [|done]. intros l Hl.
      rewrite !fn_lookup_insert_ne; [done|intros ->; tauto..].
Qed.

Lemma build_loop_app d1 : ∀ g d2 h,
  build_loop g (d1 ++ d2) h =
    match build_loop g d1 h with
    | (Ok g1, h1) => build_loop g1 d2 h1
    | (Raise e, h1) => (Raise e, h1)
    end.
Proof.
  induction d1 as [|t d1 IH]; intros g d2 h; [done|].
  rewrite <-app_comm_cons, !build_loop_cons.
  destruct (process g t h) as [[g1|err] h1]; [apply IH|done].
Qed.

(** What [build_graph] returns, when it does. *)
Lemma build_graph_ok_inv data h g h' :
  build_graph data h = (Ok g, h') →
  ∃ es, views h data es ∧ Forall entry_ok es ∧
    g = foldl graph_after empty_graph es ∧ graph_inv g ∧
    NoDup (locs data) ∧ ∀ l, h' l = consumed h data l.
Proof. apply build_loop_ok_inv, graph_inv_empty. Qed.

Lemma build_graph_ok_intro data h es :
  NoDup (locs data) → views h data es → Forall entry_ok es →
  ∃ h', build_graph data h = (Ok (foldl graph_after empty_graph es), h').
Proof. apply build_loop_ok_intro, graph_inv_empty. Qed.

(** ** Nodes and edges after a tuple *)

Lemma edge_data_default g u v :
  edge_data g u v = default ∅ (_succ g !! u) !! v.
Proof. unfold edge_data. by destruct (_succ g !! u). Qed.

Lemma node_after g en n :
  _node (graph_after g en) !! n =
    if decide (parent_name en = n)
    then Some (parent_kw en ∪
                 default ∅ (node_upd (_node g) (child_name en) (child_kw en)
                              !! parent_name en))
    else if decide (child_name en = n)
    then Some (child_kw en ∪ default ∅ (_node g !! child_name en))
    else _node g !! n.
Proof. unfold graph_after; simpl. by rewrite !node_upd_lookup. Qed.

Lemma edge_after g en u v :
  edge_data (graph_after g en) u v =
    if decide (u = child_name en ∧ v = parent_name en)
    then Some (new_datadict g (child_name en) (parent_name en)
                            {["label" := label en]})
    else edge_data g u v.
Proof.
  rewrite !edge_data_default. unfold graph_after, edge_ins; simpl.
  rewrite lookup_insert. destruct (decide (child_name en = u)) as [<-|Hu].
  - simpl. rewrite lookup_insert, !row_touch_default.
    destruct (decide (parent_name en = v)) as [<-|Hv].
    + by rewrite decide_True.
    + rewrite decide_False; [done|]. intros [_ ->]. done.
  - rewrite !row_touch_default.
    rewrite decide_False; [done|]. intros [-> _]. done.
Qed.

Lemma has_node_after g en n :
  has_node g n → has_node (graph_after g en) n.
Proof.
  unfold has_node. rewrite node_after. intros Hn.
  repeat case_decide; eauto.
Qed.

Lemma has_node_after_child g en : has_node (graph_after g en) (child_name en).
Proof.
  unfold has_node. rewrite node_after. repeat case_decide; try done; eauto.
Qed.

Lemma has_node_after_parent g en : has_node (graph_after g en) (parent_name en).
Proof. unfold has_node. rewrite node_after. rewrite decide_True; eauto. Qed.

Lemma has_node_foldl es : ∀ g n,
  has_node g n → has_node (foldl graph_after g es) n.
Proof.
  induction es as [|en es IH]; intros g n Hn; [done|].
  simpl. by apply IH, has_node_after.
Qed.

Lemma foldl_nodes es : ∀ g en,
  en ∈ es →
  has_node (foldl graph_after g es) (child_name en) ∧
  has_node (foldl graph_after g es) (parent_name en).
Proof.
  induction es as [|en' es IH]; intros g en; [by intros ?%elem_of_nil|].
  rewrite elem_of_cons. intros [-> | Hin]; simpl.
  - split; apply has_node_foldl;
      [apply has_node_after_child | apply has_node_after_parent].
  - by apply IH.
Qed.

Lemma edges_labelled_empty : edges_labelled empty_graph.
Proof. intros u v d. unfold edge_data, empty_graph; simpl. by rewrite lookup_empty. Qed.

Lemma new_datadict_labelled g u v e :
  edges_labelled g → new_datadict g u v {["label" := e]} = {["label" := e]}.
Proof.
  intros Hg. unfold new_datadict.
  destruct (edge_data g u v) as [d|] eqn:Hd; simpl.
  - destruct (Hg _ _ _ Hd) as [e' ->].
    apply map_eq. intros k. rewrite lookup_union.
    destruct (decide (k = "label")) as [->|Hk].
    + by rewrite !lookup_singleton_eq.
    + by rewrite !lookup_singleton_ne.
  - by rewrite (right_id_L ∅ (∪)).
Qed.

Lemma edges_labelled_after g en :
  edges_labelled g → edges_labelled (graph_after g en).
Proof.
  intros Hg u v d. rewrite edge_after. case_decide.
  - intros [= <-]. rewrite new_datadict_labelled by done. eauto.
  - apply Hg.
Qed.

(** ** Folding an entry twice *)

Lemma union_absorb (a b : dict) : a ∪ (a ∪ b) = a ∪ b.
Proof. by rewrite (assoc_L (∪)), (idemp_L (∪)). Qed.

Lemma union_absorb2 (a b c : dict) : a ∪ (b ∪ (a ∪ (b ∪ c))) = a ∪ (b ∪ c).
Proof.
  apply map_eq. intros k. rewrite !lookup_union.
  by destruct (a !! k), (b !! k), (c !! k).
Qed.

Lemma node_upd_twice N c ca p pa :
  node_upd (node_upd (node_upd (node_upd N c ca) p pa) c ca) p pa =
  node_upd (node_upd N c ca) p pa.
Proof.
  apply map_eq. intros k. rewrite !node_upd_lookup.
  repeat (case_decide; subst; try done; simpl);
    by rewrite ?union_absorb2, ?union_absorb.
Qed.

Lemma edge_ins_twice S u v w d :
  is_Some (S !! w) →
  edge_ins (row_touch (row_touch (edge_ins S u v d) u) w) u v d =
  edge_ins S u v d.
Proof.
  intros Hw.
  assert (edge_ins S u v d !! u = Some (<[v := d]> (default ∅ (S !! u))))
    as Hu by (unfold edge_ins; by rewrite lookup_insert_eq).
  rewrite (row_touch_id _ u) by eauto.
  rewrite (row_touch_id _ w).
  2:{ unfold edge_ins. rewrite lookup_insert. case_decide; eauto. }
  unfold edge_ins at 1. rewrite Hu. simpl.
  rewrite insert_insert_eq. by apply insert_id.
Qed.

Lemma graph_after_twice g en :
  graph_after (graph_after g en) en = graph_after g en.
Proof.
  assert (new_datadict (graph_after g en) (child_name en) (parent_name en)
            {["label" := label en]} =
          new_datadict g (child_name en) (parent_name en)
            {["label" := label en]}) as Hdd.
  { unfold new_datadict at 1. rewrite edge_after.
    rewrite decide_True by done. simpl.
    unfold new_datadict. by rewrite union_absorb. }
  unfold graph_after at 1. rewrite Hdd. unfold graph_after; simpl.
  f_equal.
  - apply node_upd_twice.
  - apply edge_ins_twice. rewrite row_touch_lookup, decide_True; eauto.
  - set (P := row_touch (row_touch (_pred g) (child_name en)) (parent_name en)).
    set (d := new_datadict _ _ _ _).
    assert (edge_ins P (parent_name en) (child_name en) d !! parent_name en =
      Some (<[child_name en := d]> (default ∅ (P !! parent_name en))))
      as Hp by (unfold edge_ins; by rewrite lookup_insert_eq).
    assert (is_Some (P !! child_name en)) as Hc.
    { unfold P. rewrite !row_touch_lookup. repeat case_decide; try done; eauto. }
    rewrite (row_touch_id _ (child_name en)).
    2:{ unfold edge_ins. rewrite lookup_insert. case_decide; eauto. }
    rewrite (row_touch_id _ (parent_name en)) by eauto.
    unfold edge_ins at 1. rewrite Hp. simpl.
    rewrite insert_insert_eq. by apply insert_id.
Qed.

(** ** Counting *)

Lemma number_of_edges_single (n m : value) (d : dict) N P :
  number_of_edges (mkDiGraph N {[n := {[m := d]}]} P) = 1.
Proof.
  unfold number_of_edges; simpl. rewrite map_fold_singleton.
  by rewrite map_size_singleton.
Qed.

(** The graph of a single entry whose two names are the same. *)
Lemma graph_after_loop n ca e pa :
  graph_after empty_graph (mkEntry n ca e n pa) =
    mkDiGraph {[n := pa ∪ ca]}
              {[n := {[n := {["label" := e]}]}]}
              {[n := {[n := {["label" := e]}]}]}.
Proof.
  unfold graph_after, empty_graph; simpl.
  rewrite new_datadict_labelled by apply edges_labelled_empty.
  unfold node_upd, edge_ins, row_touch.
  rewrite !lookup_empty; simpl.
  repeat (progress (rewrite ?lookup_insert_eq, ?insert_insert_eq; simpl)).
  rewrite !(right_id_L ∅ (∪)). by rewrite !insert_empty.
Qed.

(** ** The label an edge ends up with *)

Lemma last_label_app h cn pn d1 d2 :
  last_label h cn pn (d1 ++ d2) =
    match last_label h cn pn d2 with
    | Some l => Some l
    | None => last_label h cn pn d1
    end.
Proof.
  induction d1 as [|[[c e] p] d1 IH]; simpl.
  - by destruct (last_label h cn pn d2).
  - rewrite IH. by destruct (last_label h cn pn d2).
Qed.

Lemma last_label_None h cn pn data :
  Forall (λ t : tuple,
    ¬ (name_of h t.1.1 = Some cn ∧ name_of h t.2 = Some pn)) data →
  last_label h cn pn data = None.
Proof.
  induction 1 as [|[[c e] p] data Hne _ IH]; simpl; [done|].
  rewrite IH. by rewrite decide_False.
Qed.

Lemma last_label_elem h cn pn data c e p :
  (c, e, p) ∈ data → name_of h c = Some cn → name_of h p = Some pn →
  is_Some (last_label h cn pn data).
Proof.
  intros Hin Hc Hp. induction data as [|[[c' e'] p'] data IH].
  - by apply elem_of_nil in Hin.
  - simpl. apply elem_of_cons in Hin as [[= <- <- <-] | Hin].
    + destruct (last_label h cn pn data); [eauto|].
      rewrite decide_True by done. eauto.
    + destruct (IH Hin) as [l ->]. eauto.
Qed.

Lemma foldl_edge_label h data : ∀ es g cn pn,
  views h data es → edges_labelled g →
  edge_data (foldl graph_after g es) cn pn =
    match last_label h cn pn data with
    | Some l => Some {["label" := l]}
    | None => edge_data g cn pn
    end.
Proof.
  induction data as [|[[c e] p] data IH]; intros es g cn pn Hvs Hg.
  - by apply Forall2_nil_inv_l in Hvs as ->.
  - apply Forall2_cons_inv_l in Hvs as (en & es' & Hv & Hvs & ->).
    simpl. rewrite (IH _ _ _ _ Hvs) by (by apply edges_labelled_after).
    destruct (last_label h cn pn data) as [l|]; [done|].
    destruct (view_names _ _ _ _ _ Hv) as (Hc & Hp & _ & _ & He).
    rewrite edge_after, new_datadict_labelled by done. rewrite He, Hc, Hp.
    destruct (decide (cn = child_name en ∧ pn = parent_name en))
      as [[-> ->]|Hne].
    + by rewrite decide_True.
    + rewrite decide_False; [done|]. intros [? ?]. apply Hne. split; congruence.
Qed.

(** The edge between two names after [build_graph]. *)
Lemma build_graph_edge data h g h' cn pn :
  build_graph data h = (Ok g, h') →
  edge_data g cn pn =
    (λ l, {["label" := l]}) <$> last_label h cn pn data.
Proof.
  intros (es & Hvs & _ & -> & _)%build_graph_ok_inv.
  rewrite (foldl_edge_label h data es) by (done || apply edges_labelled_empty).
  destruct (last_label h cn pn data); [done|].
  unfold edge_data, empty_graph; simpl. by rewrite lookup_empty.
Qed.

Lemma views_elem h data es c e p :
  views h data es → (c, e, p) ∈ data →
  ∃ en, en ∈ es ∧ view h (c, e, p) = Some en.
Proof.
  intros Hvs Hin. apply list_elem_of_lookup in Hin as [i Hi].
  destruct (Forall2_lookup_l _ _ _ _ _ Hvs Hi) as (en & Hen & Hv).
  exists en. split; [|done]. apply list_elem_of_lookup. eauto.
Qed.

(** ** Properties of build_graph *)

(** C9: on the empty stream [build_graph] returns the graph without nodes
    and without edges, and the store is as it was. *)
Theorem build_graph_empty_stream (h : store) :
  build_graph [] h = (Ok empty_graph, h) ∧
  number_of_nodes empty_graph = 0 ∧ number_of_edges empty_graph = 0.
Proof.
  split; [reflexivity|]. unfold number_of_nodes, number_of_edges; simpl.
  by rewrite map_size_empty, map_fold_empty.
Qed.

(** C1, as the code has it: when [build_graph] returns a graph, for every
    tuple of the stream the names of its two descriptors are nodes of the
    graph, and the edge from the child name to the parent name exists; its
    only attribute is the label of the LAST tuple of the stream with this
    pair of names, which is the tuple's own label when no later tuple has
    the same pair. *)
Theorem build_graph_complete data h g h' c e p :
  build_graph data h = (Ok g, h') → (c, e, p) ∈ data →
  ∃ cn pn l,
    name_of h c = Some cn ∧ name_of h p = Some pn ∧
    has_node g cn ∧ has_node g pn ∧
    last_label h cn pn data = Some l ∧
    edge_data g cn pn = Some {["label" := l]} ∧
    ∀ pre post : list tuple,
      data = (pre ++ (c, e, p) :: post)%list →
      Forall (λ t : tuple,
        ¬ (name_of h t.1.1 = Some cn ∧ name_of h t.2 = Some pn)) post →
      l = e.
Proof.
  intros Hb Hin.
  pose proof Hb as (es & Hvs & _ & Hg & _)%build_graph_ok_inv.
  destruct (views_elem _ _ _ _ _ _ Hvs Hin) as (en & Hen & Hv).
  destruct (view_names _ _ _ _ _ Hv) as (Hc & Hp & _).
  destruct (foldl_nodes es empty_graph en Hen) as [Hnc Hnp].
  destruct (last_label_elem h _ _ data c e p Hin Hc Hp) as [l Hl].
  exists (child_name en), (parent_name en), l. rewrite Hg.
  split_and!; try done.
  - rewrite <-Hg, (build_graph_edge _ _ _ _ _ _ Hb), Hl. done.
  - intros pre post Hdata Hpost. rewrite Hdata, last_label_app in Hl.
    simpl in Hl. rewrite (last_label_None _ _ _ _ Hpost) in Hl.
    rewrite decide_True in Hl by done. congruence.
Qed.

Lemma build_graph_complete_witness :
  ∃ cn pn l,
    name_of overwrite_store 0 = Some cn ∧ name_of overwrite_store 1 = Some pn ∧
    has_node (graph_of overwrite_stream overwrite_store) cn ∧
    has_node (graph_of overwrite_stream overwrite_store) pn ∧
    last_label overwrite_store cn pn overwrite_stream = Some l ∧
    edge_data (graph_of overwrite_stream overwrite_store) cn pn =
      Some {["label" := l]} ∧
    ∀ pre post : list tuple,
      overwrite_stream = (pre ++ (0, VStr "isPartOf", 1) :: post)%list →
      Forall (λ t : tuple,
        ¬ (name_of overwrite_store t.1.1 = Some cn ∧
           name_of overwrite_store t.2 = Some pn)) post →
      l = VStr "isPartOf".
Proof.
  apply (build_graph_complete overwrite_stream overwrite_store
           (graph_of overwrite_stream overwrite_store)
           (build_graph overwrite_stream overwrite_store).2
           0 (VStr "isPartOf") 1).
  - reflexivity.
  - repeat constructor.
Defined.

(** C1 as the specification states it fails on this stream: the first tuple
    has the label "isPartOf", and the edge between its two names carries the
    label of the second tuple. *)
Lemma build_graph_label_overwritten :
  ∃ g h',
    build_graph overwrite_stream overwrite_store = (Ok g, h') ∧
    (0, VStr "isPartOf", 1) ∈ overwrite_stream ∧
    name_of overwrite_store 0 = Some (VStr "M1") ∧
    name_of overwrite_store 1 = Some (VStr "M0") ∧
    edge_data g (VStr "M1") (VStr "M0") ≫= (.!! "label") =
      Some (VStr "isDerivedFrom") ∧
    ¬ ∃ d, edge_data g (VStr "M1") (VStr "M0") = Some d ∧
           d !! "label" = Some (VStr "isPartOf").
Proof.
  eexists _, _. split; [reflexivity|].
  assert (edge_data (graph_of overwrite_stream overwrite_store)
            (VStr "M1") (VStr "M0") ≫= (.!! "label") =
          Some (VStr "isDerivedFrom")) as Hl by (vm_compute; reflexivity).
  split_and!.
  - repeat constructor.
  - reflexivity.
  - reflexivity.
  - exact Hl.
  - intros (d & Hd & Hlab).
    change (edge_data (graph_of overwrite_stream overwrite_store)
              (VStr "M1") (VStr "M0") = Some d) in Hd.
    rewrite Hd in Hl. simpl in Hl. congruence.
Qed.

(** C3, as the code has it: if two tuples of the stream carry the same pair
    of names and different labels, and no tuple after the later one carries
    this pair, then the graph has one edge for the pair, and its only
    attribute is the label of the later tuple. *)
Theorem build_graph_label_order
    d1 c1 e1 p1 d2 c2 e2 p2 d3 h g h' cn pn :
  build_graph (d1 ++ (c1, e1, p1) :: d2 ++ (c2, e2, p2) :: d3) h = (Ok g, h') →
  name_of h c1 = Some cn → name_of h p1 = Some pn →
  name_of h c2 = Some cn → name_of h p2 = Some pn →
  e1 ≠ e2 →
  Forall (λ t : tuple,
    ¬ (name_of h t.1.1 = Some cn ∧ name_of h t.2 = Some pn)) d3 →
  edge_data g cn pn = Some {["label" := e2]} ∧
  edge_data g cn pn ≠ Some {["label" := e1]}.
Proof.
  intros Hb _ _ Hc2 Hp2 Hne Hd3.
  assert (edge_data g cn pn = Some {["label" := e2]}) as Hedge.
  { rewrite (build_graph_edge _ _ _ _ _ _ Hb).
    rewrite last_label_app. simpl. rewrite last_label_app. simpl.
    rewrite (last_label_None _ _ _ _ Hd3).
    by rewrite decide_True. }
  split; [done|]. rewrite Hedge. intros Heq.
  apply (f_equal (λ o : option dict, o ≫= (.!! "label"))) in Heq.
  simpl in Heq. rewrite !lookup_singleton_eq in Heq. congruence.
Qed.

Lemma build_graph_label_order_witness :
  edge_data (graph_of overwrite_stream overwrite_store) (VStr "M1") (VStr "M0")
    = Some {["label" := VStr "isDerivedFrom"]} ∧
  edge_data (graph_of overwrite_stream overwrite_store) (VStr "M1") (VStr "M0")
    ≠ Some {["label" := VStr "isPartOf"]}.
Proof.
  apply (build_graph_label_order [] 0 (VStr "isPartOf") 1 []
           2 (VStr "isDerivedFrom") 3 [] overwrite_store
           (graph_of overwrite_stream overwrite_store)
           (build_graph overwrite_stream overwrite_store).2
           (VStr "M1") (VStr "M0")).
  - reflexivity.
  - reflexivity.
  - reflexivity.
  - reflexivity.
  - reflexivity.
  - discriminate.
  - constructor.
Defined.

(** C3 as the specification states it fails on this stream: its first two
    tuples carry the same pair of names and different labels, and the edge
    does not carry the label of the later of the two, "isDerivedFrom", but
    the label "isPartOf" that the third tuple writes. *)
Lemma build_graph_label_not_later :
  ∃ g h',
    build_graph again_stream again_store = (Ok g, h') ∧
    again_stream =
      ([] ++ (0, VStr "isPartOf", 1) ::
         [] ++ (2, VStr "isDerivedFrom", 3) :: [(4, VStr "isPartOf", 5)])%list ∧
    name_of again_store 0 = Some (VStr "M1") ∧
    name_of again_store 1 = Some (VStr "M0") ∧
    name_of again_store 2 = Some (VStr "M1") ∧
    name_of again_store 3 = Some (VStr "M0") ∧
    VStr "isPartOf" ≠ VStr "isDerivedFrom" ∧
    edge_data g (VStr "M1") (VStr "M0") ≫= (.!! "label") =
      Some (VStr "isPartOf") ∧
    ¬ ∃ d, edge_data g (VStr "M1") (VStr "M0") = Some d ∧
           d !! "label" = Some (VStr "isDerivedFrom").
Proof.
  assert (edge_data (graph_of again_stream again_store)
            (VStr "M1") (VStr "M0") ≫= (.!! "label") =
          Some (VStr "isPartOf")) as Hl by (vm_compute; reflexivity).
  assert ((build_graph again_stream again_store).1 =
          Ok (graph_of again_stream again_store)) as Hb
    by (vm_compute; reflexivity).
  exists (graph_of again_stream again_store),
         (build_graph again_stream again_store).2.
  split_and!.
  - rewrite <- Hb. by destruct (build_graph again_stream again_store).
  - reflexivity.
  - reflexivity.
  - reflexivity.
  - reflexivity.
  - reflexivity.
  - discriminate.
  - exact Hl.
  - intros (d & Hd & Hlab). rewrite Hd in Hl. simpl in Hl. congruence.
Qed.

(** ** Missing names *)

Lemma process_missing_name g c e p h :
  name_of h c = None ∨ name_of h p = None →
  ∃ h', process g (c, e, p) h = (Raise KeyError, h').
Proof.
  intros Hmiss.
  unfold process, mbind, M_bind, dict_pop, dict_read, lift, name_of in *.
  destruct (h c !! "name") as [cn|] eqn:Hc; [|eauto].
  destruct Hmiss as [[=]|Hp].
  destruct (decide (c = p)) as [->|Hne]; [congruence|].
  rewrite fn_lookup_insert_ne by done. rewrite Hp. eauto.
Qed.

Lemma build_loop_name_gone data g h r h' l :
  build_loop g data h = (r, h') → name_of h l = None → name_of h' l = None.
Proof.
  intros Hb Hl. unfold name_of in *.
  destruct (build_loop_store _ _ _ _ _ l Hb) as [-> | ->]; [done|].
  by rewrite lookup_delete_eq.
Qed.

(** C5, as the code has it: a stream with a tuple whose child or parent
    descriptor has no "name" never yields a graph; the error is the
    missing-key error whenever the tuples before that one are folded without
    error, and otherwise it is the error of the earlier tuple, raised where
    the fold of the tuples before stops. *)
Theorem build_graph_missing_name pre c e p post h :
  name_of h c = None ∨ name_of h p = None →
  ∃ err h',
    build_graph (pre ++ (c, e, p) :: post) h = (Raise err, h') ∧
    (∀ g1 h1, build_graph pre h = (Ok g1, h1) → err = KeyError) ∧
    (∀ e1 h1, build_graph pre h = (Raise e1, h1) → err = e1 ∧ h' = h1).
Proof.
  intros Hmiss. unfold build_graph. rewrite build_loop_app.
  destruct (build_loop empty_graph pre h) as [[g1|err1] h1] eqn:Hpre.
  - rewrite build_loop_cons.
    destruct (process_missing_name g1 c e p h1) as [h2 ->].
    { destruct Hmiss as [Hc|Hp]; [left|right];
        by eapply build_loop_name_gone. }
    exists KeyError, h2. split_and!; [done|done|]. intros e0 h0 [=].
  - exists err1, h1. split_and!; [done| |].
    + intros g0 h0 [=].
    + intros e0 h0 [= -> ->]. done.
Qed.

Lemma build_graph_missing_name_witness :
  (name_of missing_store 2 = None ∨ name_of missing_store 3 = None) ∧
  ∃ err h',
    build_graph ([(0, VStr "isPartOf", 1)] ++ (2, VStr "isPartOf", 3) :: [])
      missing_store = (Raise err, h') ∧
    (∀ g1 h1,
       build_graph [(0, VStr "isPartOf", 1)] missing_store = (Ok g1, h1) →
       err = KeyError) ∧
    (∀ e1 h1,
       build_graph [(0, VStr "isPartOf", 1)] missing_store = (Raise e1, h1) →
       err = e1 ∧ h' = h1).
Proof.
  split; [left; reflexivity|].
  apply (build_graph_missing_name [(0, VStr "isPartOf", 1)]
           2 (VStr "isPartOf") 3 [] missing_store).
  left. reflexivity.
Defined.

Example missing_name_key_error :
  (build_graph [(0, VStr "isPartOf", 1); (2, VStr "isPartOf", 3)]
     missing_store).1 = Raise KeyError.
Proof. vm_compute. reflexivity. Qed.

(** C5 as the specification states it fails on this stream: the child of the
    second tuple has no name, and [build_graph] fails with the type error of
    the first tuple, not with the missing-key error. *)
Lemma build_graph_earlier_error :
  (2, VStr "isPartOf", 3) ∈ clash_stream ∧
  name_of clash_store 2 = None ∧
  (build_graph clash_stream clash_store).1 = Raise TypeError.
Proof. split_and!; [repeat constructor|reflexivity|vm_compute; reflexivity]. Qed.

(** ** The descriptors after the call *)

(** C8: [build_graph] changes the descriptors it is given in their "name"
    entry only, whatever the outcome; when it returns a graph, every
    descriptor of the stream had a name and has lost exactly that entry, and
    no other object of the store has changed. *)
Theorem build_graph_consumes_names data h r h' :
  build_graph data h = (r, h') →
  (∀ l k, k ≠ "name" → h' l !! k = h l !! k) ∧
  (∀ g, r = Ok g →
     (∀ c e p, (c, e, p) ∈ data →
        is_Some (h c !! "name") ∧ is_Some (h p !! "name") ∧
        h' c = delete "name" (h c) ∧ h' p = delete "name" (h p)) ∧
     (∀ l, l ∉ locs data → h' l = h l)).
Proof.
  intros Hb. split.
  - intros l k Hk.
    destruct (build_loop_store _ _ _ _ _ l Hb) as [-> | ->]; [done|].
    by rewrite lookup_delete_ne.
  - intros g ->.
    destruct (build_graph_ok_inv _ _ _ _ Hb) as (es & Hvs & _ & _ & _ & _ & Hst).
    split.
    + intros c e p Hin.
      assert (c ∈ locs data ∧ p ∈ locs data) as [Hc Hp].
      { clear -Hin. induction data as [|[[c' e'] p'] data IH].
        - by apply elem_of_nil in Hin.
        - rewrite locs_cons, !elem_of_cons.
          apply elem_of_cons in Hin as [[= <- <- <-] | Hin]; [auto|].
          destruct (IH Hin). auto. }
      split_and!.
      * by eapply views_named.
      * by eapply views_named.
      * rewrite Hst. unfold consumed. by rewrite decide_True.
      * rewrite Hst. unfold consumed. by rewrite decide_True.
    + intros l Hl. rewrite Hst. unfold consumed. by rewrite decide_False.
Qed.

Lemma build_graph_consumes_names_witness :
  (∀ l k, k ≠ "name" →
     (build_graph overwrite_stream overwrite_store).2 l !! k =
     overwrite_store l !! k) ∧
  (∀ g, Ok (graph_of overwrite_stream overwrite_store) = Ok g →
     (∀ c e p, (c, e, p) ∈ overwrite_stream →
        is_Some (overwrite_store c !! "name") ∧
        is_Some (overwrite_store p !! "name") ∧
        (build_graph overwrite_stream overwrite_store).2 c =
          delete "name" (overwrite_store c) ∧
        (build_graph overwrite_stream overwrite_store).2 p =
          delete "name" (overwrite_store p)) ∧
     (∀ l, l ∉ locs overwrite_stream →
        (build_graph overwrite_stream overwrite_store).2 l =
        overwrite_store l)).
Proof.
  apply (build_graph_consumes_names overwrite_stream overwrite_store
           (Ok (graph_of overwrite_stream overwrite_store))
           (build_graph overwrite_stream overwrite_store).2).
  reflexivity.
Defined.

(** ** Node attributes *)

Lemma merged_union a old : merged (a ∪ old) a old.
Proof. intros k. rewrite lookup_union. by destruct (a !! k), (old !! k). Qed.

Lemma views_det h data es1 es2 :
  views h data es1 → views h data es2 → es1 = es2.
Proof.
  intros H1. revert es2. induction H1 as [|t en data es Hv _ IH];
    intros es2 H2.
  - by apply Forall2_nil_inv_l in H2.
  - apply Forall2_cons_inv_l in H2 as (en' & es' & Hv' & H2 & ->).
    f_equal; [congruence|by apply IH].
Qed.

Lemma locs_app d1 d2 : locs (d1 ++ d2) = (locs d1 ++ locs d2)%list.
Proof. unfold locs. apply flat_map_app. Qed.

(** The last tuple of a stream, seen from the graph of the tuples before. *)
Lemma build_graph_snoc pre c e p h g h1 g' h' :
  build_graph pre h = (Ok g, h1) →
  build_graph (pre ++ [(c, e, p)]) h = (Ok g', h') →
  ∃ en, view h (c, e, p) = Some en ∧ entry_ok en ∧ graph_inv g ∧
        g' = graph_after g en.
Proof.
  intros (es1 & Hvs1 & _ & -> & Hinv & _)%build_graph_ok_inv
         (es & Hvs & Hoks & -> & _)%build_graph_ok_inv.
  apply Forall2_app_inv_l in Hvs as (es1' & es2 & Hvs1' & Hvs2 & ->).
  apply Forall2_cons_inv_l in Hvs2 as (en & es3 & Hv & Hnil & ->).
  apply Forall2_nil_inv_l in Hnil as ->.
  rewrite (views_det _ _ _ _ Hvs1 Hvs1') in *.
  apply Forall_app in Hoks as [_ Hok]. apply Forall_cons_1 in Hok as [Hok _].
  exists en. split_and!; try done. by rewrite foldl_app.
Qed.

(** C2: when a tuple is folded into the graph of the tuples before it and
    the name of one of its descriptors is a node already, the attributes of
    the node are updated key by key with those of the descriptor, the child
    first and the parent second when both carry that name, and the other
    nodes keep their attributes; in the scenario of the two tuples about "x",
    the node "x" has k1 = 1 and k2 = 2. *)
Theorem build_graph_attribute_merge :
  (∀ pre c e p h g h1 g' h' cn pn,
     build_graph pre h = (Ok g, h1) →
     build_graph (pre ++ [(c, e, p)]) h = (Ok g', h') →
     name_of h c = Some cn → name_of h p = Some pn →
     (∀ old, cn ≠ pn → _node g !! cn = Some old →
        ∃ new, _node g' !! cn = Some new ∧ merged new (attrs_of h c) old) ∧
     (∀ old, cn ≠ pn → _node g !! pn = Some old →
        ∃ new, _node g' !! pn = Some new ∧ merged new (attrs_of h p) old) ∧
     (∀ old, cn = pn → _node g !! cn = Some old →
        ∃ mid new, merged mid (attrs_of h c) old ∧
                   merged new (attrs_of h p) mid ∧
                   _node g' !! cn = Some new) ∧
     (∀ n, n ≠ cn → n ≠ pn → _node g' !! n = _node g !! n)) ∧
  (build_graph merge_stream merge_store).1 =
    Ok (graph_of merge_stream merge_store) ∧
  _node (graph_of merge_stream merge_store) !! VStr "x" ≫= (.!! "k1") =
    Some (VInt 1) ∧
  _node (graph_of merge_stream merge_store) !! VStr "x" ≫= (.!! "k2") =
    Some (VInt 2).
Proof.
  split; [|split_and!; vm_compute; reflexivity].
  intros pre c e p h g h1 g' h' cn pn Hpre Hfull Hc Hp.
  destruct (build_graph_snoc _ _ _ _ _ _ _ _ _ Hpre Hfull)
    as (en & Hv & _ & _ & ->).
  destruct (view_names _ _ _ _ _ Hv) as (Hc' & Hp' & Hca & Hpa & _).
  assert (child_name en = cn) as Hcn by congruence.
  assert (parent_name en = pn) as Hpn by congruence.
  subst cn pn. split_and!.
  - intros old Hne Hold. rewrite node_after.
    rewrite decide_False, decide_True by done.
    rewrite Hold, Hca. simpl. eexists. split; [done|]. apply merged_union.
  - intros old Hne Hold. rewrite node_after.
    rewrite decide_True by done. rewrite node_upd_lookup.
    rewrite decide_False by done. rewrite Hold, Hpa. simpl.
    eexists. split; [done|]. apply merged_union.
  - intros old Heq Hold. rewrite node_after.
    rewrite decide_True by done. rewrite node_upd_lookup.
    rewrite decide_True by done. rewrite Hold, Hca, Hpa. simpl.
    eexists _, _. split_and!; [| |done]; apply merged_union.
  - intros n Hnc Hnp. rewrite node_after.
    by rewrite !decide_False.
Qed.

Lemma build_graph_attribute_merge_witness :
  ∃ new,
    _node (graph_of merge_stream merge_store) !! VStr "x" = Some new ∧
    merged new (attrs_of merge_store 2) {["k1" := VInt 1]}.
Proof.
  destruct build_graph_attribute_merge as [Hmerge _].
  destruct (Hmerge [(0, VStr "L1", 1)] 2 (VStr "L2") 3 merge_store
              (graph_of [(0, VStr "L1", 1)] merge_store)
              (build_graph [(0, VStr "L1", 1)] merge_store).2
              (graph_of merge_stream merge_store)
              (build_graph merge_stream merge_store).2
              (VStr "x") (VStr "z"))
    as (Hchild & _).
  - reflexivity.
  - reflexivity.
  - reflexivity.
  - reflexivity.
  - apply (Hchild {["k1" := VInt 1]}).
    + discriminate.
    + vm_compute. reflexivity.
Defined.

(** ** A tuple whose two descriptors carry the same name *)

(** C10: when the two descriptors of a single tuple carry the same name,
    the graph [build_graph] returns has that one node, with a self-loop that
    carries the label; the attributes of the node are those of the child
    updated with those of the parent, so the parent's value stands for a key
    they share.  The graph is returned when the two descriptors are
    different objects, the name is not [None] and no attribute clashes with
    a parameter of [add_node]. *)
Theorem build_graph_self_loop c e p h n :
  name_of h c = Some n → name_of h p = Some n →
  (∀ g h', build_graph [(c, e, p)] h = (Ok g, h') →
     _node g = {[n := attrs_of h p ∪ attrs_of h c]} ∧
     number_of_nodes g = 1 ∧
     edge_data g n n = Some {["label" := e]} ∧
     number_of_edges g = 1 ∧
     (∀ k v, attrs_of h p !! k = Some v →
        _node g !! n ≫= (.!! k) = Some v) ∧
     (∀ k, attrs_of h p !! k = None →
        _node g !! n ≫= (.!! k) = attrs_of h c !! k)) ∧
  (c ≠ p → n ≠ VNone →
   ¬ reserved_kw (attrs_of h c) → ¬ reserved_kw (attrs_of h p) →
   ∃ g h', build_graph [(c, e, p)] h = (Ok g, h')).
Proof.
  intros Hc Hp.
  assert (view h (c, e, p) =
          Some (mkEntry n (attrs_of h c) e n (attrs_of h p))) as Hv
    by (unfold view; by rewrite Hc, Hp).
  split.
  - intros g h' (es & Hvs & _ & -> & _)%build_graph_ok_inv.
    apply Forall2_cons_inv_l in Hvs as (en & es' & Hv' & Hnil & ->).
    apply Forall2_nil_inv_l in Hnil as ->.
    assert (en = mkEntry n (attrs_of h c) e n (attrs_of h p)) as ->
      by congruence.
    simpl foldl. rewrite graph_after_loop.
    unfold number_of_nodes, edge_data; simpl.
    rewrite map_size_singleton, number_of_edges_single, !lookup_singleton_eq.
    simpl. rewrite lookup_singleton_eq.
    split_and!; try done.
    + intros k v Hk. by apply lookup_union_Some_l.
    + intros k Hk. by apply lookup_union_r.
  - intros Hne Hn Hca Hpa.
    destruct (build_graph_ok_intro [(c, e, p)] h
                [mkEntry n (attrs_of h c) e n (attrs_of h p)]) as [h' Hb].
    + rewrite locs_cons. repeat constructor.
      * rewrite elem_of_cons. intros [? | ?%elem_of_nil]; done.
      * by intros ?%elem_of_nil.
    + by repeat constructor.
    + by repeat constructor.
    + eauto.
Qed.

Lemma build_graph_self_loop_witness :
  (∀ g h', build_graph [(0, VStr "isPartOf", 1)] loop_store = (Ok g, h') →
     _node g = {[VStr "p53" := attrs_of loop_store 1 ∪ attrs_of loop_store 0]} ∧
     number_of_nodes g = 1 ∧
     edge_data g (VStr "p53") (VStr "p53") =
       Some {["label" := VStr "isPartOf"]} ∧
     number_of_edges g = 1 ∧
     (∀ k v, attrs_of loop_store 1 !! k = Some v →
        _node g !! VStr "p53" ≫= (.!! k) = Some v) ∧
     (∀ k, attrs_of loop_store 1 !! k = None →
        _node g !! VStr "p53" ≫= (.!! k) = attrs_of loop_store 0 !! k)) ∧
  (0 ≠ 1 → VStr "p53" ≠ VNone →
   ¬ reserved_kw (attrs_of loop_store 0) →
   ¬ reserved_kw (attrs_of loop_store 1) →
   ∃ g h', build_graph [(0, VStr "isPartOf", 1)] loop_store = (Ok g, h')).
Proof.
  apply (build_graph_self_loop 0 (VStr "isPartOf") 1 loop_store (VStr "p53"));
    reflexivity.
Defined.

Example self_loop_colour :
  (build_graph [(0, VStr "isPartOf", 1)] loop_store).1 =
    Ok (graph_of [(0, VStr "isPartOf", 1)] loop_store) ∧
  _node (graph_of [(0, VStr "isPartOf", 1)] loop_store) !! VStr "p53"
    ≫= (.!! "color") = Some (VStr "green").
Proof. split; vm_compute; reflexivity. Qed.

(** ** Folding a tuple again *)

(** C4, as the code has it: on a stream for which [build_graph] returns a
    graph, appending a repetition of the LAST tuple, as two other descriptor
    objects with the contents the descriptors of the last tuple had, returns
    the same graph. *)
Theorem build_graph_repeat_last data c e p c' p' h g h1 :
  build_graph (data ++ [(c, e, p)]) h = (Ok g, h1) →
  h c' = h c → h p' = h p → c' ≠ p' →
  c' ∉ locs (data ++ [(c, e, p)]) → p' ∉ locs (data ++ [(c, e, p)]) →
  ∃ h2, build_graph (data ++ [(c, e, p); (c', e, p')]) h = (Ok g, h2).
Proof.
  intros (es & Hvs & Hoks & -> & _ & Hnd & _)%build_graph_ok_inv
         Hc Hp Hne Hc' Hp'.
  pose proof Hvs as Hvs0.
  apply Forall2_app_inv_l in Hvs as (es1 & es2 & Hvs1 & Hvs2 & ->).
  apply Forall2_cons_inv_l in Hvs2 as (en & es3 & Hv & Hnil & ->).
  apply Forall2_nil_inv_l in Hnil as ->.
  pose proof Hoks as Hoks0.
  apply Forall_app in Hoks as [_ Hok]. apply Forall_cons_1 in Hok as [Hok _].
  assert (view h (c', e, p') = Some en) as Hv'
    by (rewrite <-Hv; unfold view, name_of, attrs_of; by rewrite Hc, Hp).
  destruct (build_graph_ok_intro ((data ++ [(c, e, p)]) ++ [(c', e, p')]) h
              ((es1 ++ [en]) ++ [en])) as [h2 Hb].
  - rewrite locs_app. apply list.NoDup_app. split_and!; [done| |].
    + intros l Hl. rewrite locs_cons, !elem_of_cons.
      intros [-> | [-> | ?%elem_of_nil]]; done.
    + rewrite locs_cons. repeat constructor.
      * rewrite elem_of_cons. intros [? | ?%elem_of_nil]; done.
      * by intros ?%elem_of_nil.
  - apply Forall2_app; [done|]. by repeat constructor.
  - apply Forall_app. split; [done|]. constructor; [exact Hok|constructor].
  - exists h2. rewrite <-(assoc_L (++)) in Hb. simpl in Hb. rewrite Hb.
    f_equal. f_equal. rewrite !foldl_app. simpl. apply graph_after_twice.
Qed.

Lemma build_graph_repeat_last_witness :
  ∃ h2,
    build_graph ([(0, VStr "isPartOf", 1)] ++
                 [(2, VStr "isPartOf", 3); (6, VStr "isPartOf", 7)])
      stale_store =
    (Ok (graph_of stale_stream stale_store), h2).
Proof.
  apply (build_graph_repeat_last [(0, VStr "isPartOf", 1)]
           2 (VStr "isPartOf") 3 6 7 stale_store
           (graph_of stale_stream stale_store)
           (build_graph stale_stream stale_store).2).
  - reflexivity.
  - reflexivity.
  - reflexivity.
  - discriminate.
  - vm_compute. intros Hin. repeat (inversion Hin as [|? ? ? Hin']; subst; clear Hin; rename Hin' into Hin).
  - vm_compute. intros Hin. repeat (inversion Hin as [|? ? ? Hin']; subst; clear Hin; rename Hin' into Hin).
Defined.

(** C4 as the specification states it fails on this stream: a repetition of
    its FIRST tuple, as two other objects with the same contents, brings the
    attribute [k] of "x" back to the value the second tuple had overwritten;
    and the first tuple itself, passed again, has lost its names. *)
Lemma build_graph_repeat_earlier :
  (0, VStr "isPartOf", 1) ∈ stale_stream ∧
  stale_store 4 = stale_store 0 ∧ stale_store 5 = stale_store 1 ∧
  (build_graph stale_stream stale_store).1 =
    Ok (graph_of stale_stream stale_store) ∧
  (build_graph (stale_stream ++ [(4, VStr "isPartOf", 5)]) stale_store).1 =
    Ok (graph_of (stale_stream ++ [(4, VStr "isPartOf", 5)]) stale_store) ∧
  _node (graph_of stale_stream stale_store) !! VStr "x" ≫= (.!! "k") =
    Some (VInt 2) ∧
  _node (graph_of (stale_stream ++ [(4, VStr "isPartOf", 5)]) stale_store)
    !! VStr "x" ≫= (.!! "k") = Some (VInt 1) ∧
  (build_graph (stale_stream ++ [(0, VStr "isPartOf", 1)]) stale_store).1 =
    Raise KeyError.
Proof.
  split_and!; [repeat constructor|reflexivity|reflexivity|..];
    vm_compute; reflexivity.
Qed.

(** ** What get_close_matches returns *)

Lemma max_scored_elem l : ∀ cur, max_scored cur l ∈ cur :: l.
Proof.
  induction l as [|p r IH]; intros cur; simpl.
  - apply list_elem_of_here.
  - specialize (IH (if scored_gtb p cur then p else cur)).
    apply elem_of_cons in IH as [-> | IH].
    + destruct (scored_gtb p cur).
      * apply list_elem_of_further, list_elem_of_here.
      * apply list_elem_of_here.
    + by do 2 apply list_elem_of_further.
Qed.

(** A close match is one of the possibilities, and it passes the three
    tests against the cutoff. *)
Lemma get_close_matches_elem word possibilities c m :
  m ∈ get_close_matches word possibilities c →
  m ∈ possibilities ∧
  score_leb c (real_quick_ratio (String.list_ascii_of_string m)
                                (String.list_ascii_of_string word)) = true ∧
  score_leb c (quick_ratio (String.list_ascii_of_string m)
                           (String.list_ascii_of_string word)) = true ∧
  score_leb c (ratio (String.list_ascii_of_string m)
                     (String.list_ascii_of_string word)) = true.
Proof.
  unfold get_close_matches.
  set (f := λ x : string, _).
  destruct (omap f possibilities) as [|p r] eqn:Hres;
    [by intros ?%elem_of_nil|].
  intros ->%list_elem_of_singleton.
  assert (max_scored p r ∈ omap f possibilities) as Hin
    by (rewrite Hres; apply max_scored_elem).
  apply list_elem_of_omap in Hin as (x & Hx & Hfx).
  unfold f in Hfx.
  destruct (score_leb c (real_quick_ratio _ _)) eqn:H1; [|done].
  destruct (score_leb c (quick_ratio _ _)) eqn:H2; [|done].
  destruct (score_leb c (ratio _ _)) eqn:H3; [|done].
  simpl in Hfx. injection Hfx as <-. simpl. by rewrite H1, H2, H3.
Qed.

(** At most one close match is returned. *)
Lemma get_close_matches_length word possibilities c :
  (length (get_close_matches word possibilities c) ≤ 1)%nat.
Proof.
  unfold get_close_matches. by destruct (omap _ possibilities); simpl; lia.
Qed.

(** The empty string is not a close match of a word that is not empty. *)
Lemma real_quick_ratio_empty word :
  word ≠ [] → score_leb cutoff (real_quick_ratio [] word) = false.
Proof.
  intros Hw. unfold real_quick_ratio, real_quick_matches, _calculate_ratio, len.
  destruct word as [|x w]; [done|]. simpl length.
  rewrite (proj2 (Z.eqb_neq _ 0)) by lia.
  unfold score_leb, cutoff; simpl num; simpl den.
  apply Z.leb_gt. lia.
Qed.

Lemma lower_empty s : lower s = EmptyString → s = EmptyString.
Proof. by destruct s. Qed.

Lemma list_ascii_empty s : String.list_ascii_of_string s = [] → s = EmptyString.
Proof. by destruct s. Qed.

(** ** Properties of the resolver *)

Lemma lookup_name_no_annotation get_go_json tag :
  find tag "rdf:li" = None →
  lookup_name get_go_json tag = Raise AssertionError.
Proof. intros H. unfold lookup_name, _get_go_id. by rewrite H. Qed.

Lemma fuzzy_name_declared tag refs name :
  declared_name tag = Some name →
  fuzzy_name tag refs =
    match get_close_matches (lower name) refs cutoff with
    | m :: _ => Ok (JStr m)
    | [] => Ok (JStr name)
    end.
Proof.
  unfold declared_name, fuzzy_name. intros H.
  destruct (attrs tag !! "name") as [n|].
  - by injection H as ->.
  - by rewrite H.
Qed.

(** C6, as the code has it: for a tag without an identifier annotation and
    with the declared name "cytosol", the resolver returns "cytosol" both
    with the reference set {"cytoplasm"}, whose similarity to "cytosol" is
    10/16 and so under the floor, and with the empty reference set. *)
Theorem resolver_fallback_chain get_go_json tag :
  find tag "rdf:li" = None → attrs tag !! "name" = Some "cytosol" →
  _get_name get_go_json tag ["cytoplasm"] = Ok (JStr "cytosol") ∧
  _get_name get_go_json tag [] = Ok (JStr "cytosol") ∧
  ratio (String.list_ascii_of_string "cytoplasm")
        (String.list_ascii_of_string (lower "cytosol")) = mkScore 10 16 ∧
  score_leb cutoff (mkScore 10 16) = false.
Proof.
  intros Hli Hname.
  assert (declared_name tag = Some "cytosol") as Hdecl
    by (unfold declared_name; by rewrite Hname).
  unfold _get_name. rewrite lookup_name_no_annotation by done.
  rewrite !(fuzzy_name_declared _ _ _ Hdecl).
  split_and!; vm_compute; reflexivity.
Qed.

Lemma resolver_fallback_chain_witness :
  _get_name no_service cytosol_tag ["cytoplasm"] = Ok (JStr "cytosol") ∧
  _get_name no_service cytosol_tag [] = Ok (JStr "cytosol") ∧
  ratio (String.list_ascii_of_string "cytoplasm")
        (String.list_ascii_of_string (lower "cytosol")) = mkScore 10 16 ∧
  score_leb cutoff (mkScore 10 16) = false.
Proof.
  apply (resolver_fallback_chain no_service cytosol_tag); reflexivity.
Defined.

(** C6 as the specification states it fails: with the reference set
    {"cytoplasm"} the resolver returns "cytosol", not "cytoplasm"; the two
    names share five characters in matching blocks out of sixteen. *)
Lemma resolver_cytoplasm_below_floor :
  find cytosol_tag "rdf:li" = None ∧
  declared_name cytosol_tag = Some "cytosol" ∧
  _get_name no_service cytosol_tag ["cytoplasm"] = Ok (JStr "cytosol") ∧
  _get_name no_service cytosol_tag ["cytoplasm"] ≠ Ok (JStr "cytoplasm") ∧
  matches (String.list_ascii_of_string "cytoplasm")
          (String.list_ascii_of_string "cytosol") = 5%Z.
Proof. split_and!; try (vm_compute; reflexivity). vm_compute. discriminate. Qed.

(** ** The best close match *)

Lemma score_leb_trans s1 s2 s3 :
  (0 < den s1)%Z → (0 < den s2)%Z → (0 < den s3)%Z →
  score_leb s1 s2 = true → score_leb s2 s3 = true → score_leb s1 s3 = true.
Proof.
  unfold score_leb. intros H1 H2 H3 H12%Z.leb_le H23%Z.leb_le.
  apply Z.leb_le. apply (Z.mul_le_mono_pos_r _ _ (den s2)); [done|].
  apply (Z.mul_le_mono_nonneg_r _ _ (den s3)) in H12; [|lia].
  apply (Z.mul_le_mono_nonneg_r _ _ (den s1)) in H23; [|lia].
  lia.
Qed.

Lemma scored_gtb_leb (p cur : score * string) :
  score_leb cur.1 (if scored_gtb p cur then p else cur).1 = true ∧
  score_leb p.1 (if scored_gtb p cur then p else cur).1 = true.
Proof.
  unfold scored_gtb, score_ltb, score_eqb, score_leb.
  destruct (Z.ltb_spec (num cur.1 * den p.1) (num p.1 * den cur.1));
    destruct (Z.eqb_spec (num p.1 * den cur.1) (num cur.1 * den p.1));
    simpl; try destruct (String.ltb cur.2 p.2); simpl;
    split; apply Z.leb_le; lia.
Qed.

(** [max] returns an element whose score no other element exceeds. *)
Lemma max_scored_ge l : ∀ cur,
  (0 < den cur.1)%Z → Forall (λ q : score * string, (0 < den q.1)%Z) l →
  Forall (λ q : score * string, score_leb q.1 (max_scored cur l).1 = true)
         (cur :: l).
Proof.
  induction l as [|p r IH]; intros cur Hcur Hl; simpl.
  - constructor; [|constructor]. unfold score_leb. apply Z.leb_le. lia.
  - apply Forall_cons_1 in Hl as [Hp Hr].
    set (cur' := if scored_gtb p cur then p else cur).
    assert (0 < den cur'.1)%Z as Hcur' by (unfold cur'; by destruct scored_gtb).
    specialize (IH cur' Hcur' Hr).
    assert (0 < den (max_scored cur' r).1)%Z as Hmax.
    { pose proof (max_scored_elem r cur') as Hin.
      apply elem_of_cons in Hin as [-> | Hin]; [done|].
      exact (proj1 (list.Forall_forall _ _) Hr _ Hin). }
    apply Forall_cons_1 in IH as [Hc' Hr'].
    destruct (scored_gtb_leb p cur) as [Hle1 Hle2]. fold cur' in Hle1, Hle2.
    repeat constructor; [| |done].
    + by apply (score_leb_trans _ cur'.1).
    + by apply (score_leb_trans _ cur'.1).
Qed.

Lemma ratio_den_pos a b : (0 < den (ratio a b))%Z.
Proof.
  unfold ratio, _calculate_ratio, len.
  destruct (Z.eqb_spec (Z.of_nat (length a) + Z.of_nat (length b)) 0);
    simpl; lia.
Qed.

(** No close match is returned exactly when no possibility passes the
    tests. *)
Lemma get_close_matches_nil word possibilities c :
  get_close_matches word possibilities c = [] ↔
  ∀ x, x ∈ possibilities → close_enough word x c = false.
Proof.
  unfold get_close_matches.
  set (f := λ x : string, _).
  assert (∀ x, f x = if close_enough word x c
                     then Some (similarity word x, x) else None) as Hf
    by done.
  split.
  - destruct (omap f possibilities) as [|p r] eqn:Hres; [|done].
    intros _ x Hx. destruct (close_enough word x c) eqn:Hce; [|done].
    assert ((similarity word x, x) ∈ omap f possibilities) as Hin.
    { apply list_elem_of_omap. exists x. by rewrite Hf, Hce. }
    rewrite Hres in Hin. by apply elem_of_nil in Hin.
  - intros Hnone. destruct (omap f possibilities) as [|p r] eqn:Hres; [done|].
    assert (p ∈ omap f possibilities) as Hin
      by (rewrite Hres; apply list_elem_of_here).
    apply list_elem_of_omap in Hin as (x & Hx & Hfx).
    rewrite Hf, (Hnone x Hx) in Hfx. done.
Qed.

(** The close match that is returned has the highest score among the
    possibilities that pass the tests. *)
Lemma get_close_matches_best word possibilities c m x :
  m ∈ get_close_matches word possibilities c →
  x ∈ possibilities → close_enough word x c = true →
  score_leb (similarity word x) (similarity word m) = true.
Proof.
  unfold get_close_matches.
  set (f := λ x : string, _).
  assert (∀ x, f x = if close_enough word x c
                     then Some (similarity word x, x) else None) as Hf
    by done.
  assert (∀ q, q ∈ omap f possibilities → q.1 = similarity word q.2) as Hform.
  { intros q (y & Hy & Hfy)%list_elem_of_omap. rewrite Hf in Hfy.
    destruct (close_enough word y c); [|done]. by injection Hfy as <-. }
  destruct (omap f possibilities) as [|p r] eqn:Hres;
    [by intros ?%elem_of_nil|].
  intros ->%list_elem_of_singleton Hx Hce.
  assert ((similarity word x, x) ∈ p :: r) as Hin.
  { rewrite <- Hres. apply list_elem_of_omap. exists x. by rewrite Hf, Hce. }
  assert (Forall (λ q : score * string, (0 < den q.1)%Z) (p :: r)) as Hpos.
  { apply list.Forall_forall. intros q Hq. rewrite (Hform q Hq).
    apply ratio_den_pos. }
  apply Forall_cons_1 in Hpos as [Hp Hr].
  pose proof (max_scored_ge r p Hp Hr) as Hge.
  rewrite <- (Hform (max_scored p r) (max_scored_elem r p)).
  exact (proj1 (list.Forall_forall _ _) Hge _ Hin).
Qed.

(** C7, as the code has it: for a tag that declares a name or an id, when
    the lookup of the identifier fails because there is no annotation, the
    identifier is empty or the service rejects it with a value error, the
    resolver does not raise and goes on to the fuzzy match: it returns the
    declared name as it is if no reference name passes the tests of the
    match against the lower-cased declared name at the floor, and otherwise
    a reference name that passes them and whose similarity no other passing
    reference name exceeds; the string is not empty unless the declared name
    is. *)
Theorem resolver_falls_through get_go_json tag refs name :
  declared_name tag = Some name →
  (find tag "rdf:li" = None ∨
   ∃ li resource,
     find tag "rdf:li" = Some li ∧
     attrs li !! "rdf:resource" = Some resource ∧
     (List.last (split "/" resource) EmptyString = EmptyString ∨
      get_go_json (List.last (split "/" resource) EmptyString)
        = Raise ValueError)) →
  ∃ s, _get_name get_go_json tag refs = Ok (JStr s) ∧
       ((∀ r, r ∈ refs → close_enough (lower name) r cutoff = false) →
        s = name) ∧
       (∀ r, r ∈ refs → close_enough (lower name) r cutoff = true →
          s ∈ refs ∧ close_enough (lower name) s cutoff = true ∧
          score_leb cutoff (similarity (lower name) s) = true ∧
          score_leb (similarity (lower name) r) (similarity (lower name) s)
            = true) ∧
       (name ≠ EmptyString → s ≠ EmptyString).
Proof.
  intros Hdecl Hfail.
  assert (lookup_name get_go_json tag = Raise AssertionError ∨
          lookup_name get_go_json tag = Raise ValueError) as Hlookup.
  { destruct Hfail as [Hli | (li & resource & Hli & Hres & [Hid | Hsvc])].
    - left. by apply lookup_name_no_annotation.
    - left. unfold lookup_name, _get_go_id. rewrite Hli, Hres. simpl.
      by rewrite Hid.
    - unfold lookup_name, _get_go_id. rewrite Hli, Hres. simpl.
      destruct (List.last _ _) as [|c r] eqn:Hid; [by left|right].
      by rewrite Hsvc. }
  assert (_get_name get_go_json tag refs = fuzzy_name tag refs) as ->
    by (unfold _get_name; by destruct Hlookup as [-> | ->]).
  rewrite (fuzzy_name_declared _ _ _ Hdecl).
  destruct (get_close_matches (lower name) refs cutoff) as [|m ms] eqn:Hcm.
  - exists name. split_and!; [done|done| |done].
    intros r Hr Hce.
    rewrite (proj1 (get_close_matches_nil _ _ _) Hcm r Hr) in Hce. done.
  - assert (m ∈ get_close_matches (lower name) refs cutoff) as Hm
      by (rewrite Hcm; apply list_elem_of_here).
    destruct (get_close_matches_elem _ _ _ _ Hm) as (Hin & Hrq & Hq & Hr).
    exists m. split_and!; [done| | |].
    + intros Hnone. unfold close_enough in Hnone.
      specialize (Hnone m Hin). by rewrite Hrq, Hq, Hr in Hnone.
    + intros r Hrin Hce. split_and!; [done| |done|].
      * unfold close_enough. by rewrite Hrq, Hq, Hr.
      * by apply (get_close_matches_best _ refs cutoff).
    + intros Hname ->. simpl in Hrq.
      rewrite real_quick_ratio_empty in Hrq; [done|].
      intros Hempty%list_ascii_empty%lower_empty. done.
Qed.

Lemma resolver_falls_through_witness :
  ∃ s, _get_name no_service capital_tag ["cytosol"] = Ok (JStr s) ∧
       ((∀ r, r ∈ ["cytosol"] →
           close_enough (lower "Cytosol") r cutoff = false) →
        s = "Cytosol") ∧
       (∀ r, r ∈ ["cytosol"] →
          close_enough (lower "Cytosol") r cutoff = true →
          s ∈ ["cytosol"] ∧ close_enough (lower "Cytosol") s cutoff = true ∧
          score_leb cutoff (similarity (lower "Cytosol") s) = true ∧
          score_leb (similarity (lower "Cytosol") r)
                    (similarity (lower "Cytosol") s) = true) ∧
       ("Cytosol" ≠ EmptyString → s ≠ EmptyString).
Proof.
  apply (resolver_falls_through no_service capital_tag ["cytosol"] "Cytosol").
  - reflexivity.
  - left. reflexivity.
Defined.

(** The lower-cased declared name is what is matched: for the declared name
    "Cytosol" the reference "cytosol" is returned, not the name. *)
Example resolver_matches_lower_case :
  close_enough (lower "Cytosol") "cytosol" cutoff = true ∧
  _get_name no_service capital_tag ["cytosol"] = Ok (JStr "cytosol") ∧
  _get_name no_service
    (annotated_tag "http://identifiers.org/fma/FMA:20394")
    ["cytoplasm"; "cytosole"] = Ok (JStr "cytosole").
Proof. split_and!; vm_compute; reflexivity. Qed.

(** C7 as the specification states it fails on three tags that declare a
    name: an [rdf:li] without [rdf:resource] is a [KeyError] and a response
    without documents is an [IndexError], which the resolver does not catch;
    and for the empty declared name the resolver returns the empty string. *)
Lemma resolver_raises :
  declared_name bare_li_tag = Some "cytosol" ∧
  _get_name cytoplasm_service bare_li_tag ["cytosol"] = Raise KeyError ∧
  declared_name (annotated_tag "http://identifiers.org/go/GO:0005737")
    = Some "cytosol" ∧
  _get_name empty_service
    (annotated_tag "http://identifiers.org/go/GO:0005737") ["cytosol"]
    = Raise IndexError ∧
  declared_name unnamed_tag = Some EmptyString ∧
  _get_name no_service unnamed_tag ["cytosol"] = Ok (JStr EmptyString).
Proof. split_and!; vm_compute; reflexivity. Qed.

Example resolver_lookup_found :
  _get_name cytoplasm_service
    (annotated_tag "http://identifiers.org/go/GO:0005737") []
  = Ok (JStr "cytoplasm").
Proof. vm_compute. reflexivity. Qed.

Example resolver_close_match :
  _get_name no_service cytosol_tag ["cytoplasm"; "cytosole"; "nucleus"]
  = Ok (JStr "cytosole").
Proof. vm_compute. reflexivity. Qed.

(** ** The loops of SequenceMatcher end *)

Section SequenceMatcherLoops.
Variables a b : list ascii.
Local Open Scope Z_scope.

Lemma row_within alo i blo bhi js : ∀ j2len newj2len best,
  alo ≤ i → values_le j2len (i - alo) → values_le newj2len (i - alo + 1) →
  block_within alo (i + 1) best →
  values_le (row i blo bhi js j2len newj2len best).1 (i - alo + 1) ∧
  block_within alo (i + 1) (row i blo bhi js j2len newj2len best).2.
Proof.
  induction js as [|j js IH]; intros j2len newj2len best Hi Hold Hnew Hbest;
    simpl; [done|].
  destruct (j <? blo); [by apply IH|].
  destruct (bhi <=? j); [done|].
  assert (default 0 (j2len !! (j - 1)) ≤ i - alo) as Hk.
  { destruct (j2len !! (j - 1)) as [v|] eqn:Hv; simpl; [by eapply Hold|lia]. }
  apply IH; [done|done| |].
  - intros j' v. rewrite lookup_insert. case_decide.
    + intros [= <-]. lia.
    + apply Hnew.
  - destruct (block_size best <? _) eqn:Hlt; [|done].
    apply Z.ltb_lt in Hlt. destruct Hbest as (_ & _ & Hsize).
    unfold block_within, block_size in *. simpl. lia.
Qed.

Lemma rows_within alo blo bhi (n : nat) : ∀ s j2len best,
  alo ≤ s → values_le j2len (s - alo) → block_within alo s best →
  block_within alo (s + Z.of_nat n)
    (rows a b (seqZ s (Z.of_nat n)) blo bhi j2len best).
Proof.
  induction n as [|n IH]; intros s j2len best Hs Hvals Hbest.
  - simpl. by rewrite Z.add_0_r.
  - rewrite seqZ_cons by lia. simpl rows.
    set (js := match a !! Z.to_nat s with Some x => b2j b x | None => [] end).
    destruct (row_within alo s blo bhi js j2len ∅ best) as [Hnew Hbest'];
      [done|done| |..].
    { intros j v. by rewrite lookup_empty. }
    { unfold block_within in *. lia. }
    destruct (row s blo bhi js j2len ∅ best) as [newj2len best'].
    replace (Z.pred (Z.of_nat (S n))) with (Z.of_nat n) by lia.
    replace (s + Z.of_nat (S n)) with (Z.succ s + Z.of_nat n) by lia.
    apply IH; [lia| |].
    + replace (Z.succ s - alo) with (s - alo + 1) by lia. done.
    + replace (Z.succ s) with (s + 1) by lia. done.
Qed.

Lemma extend_left_within (n : nat) alo blo hi : ∀ best,
  block_within alo hi best →
  block_within alo hi (extend_left a b n alo blo best).
Proof.
  induction n as [|n IH]; intros [[besti bestj] bestsize] Hbest; [done|].
  simpl. destruct (alo <? besti) eqn:Hlo; simpl; [|done].
  destruct (blo <? bestj); simpl; [|done].
  destruct (same_elt a b _ _); [|done].
  apply IH. apply Z.ltb_lt in Hlo.
  unfold block_within in *; simpl in *. lia.
Qed.

Lemma extend_right_within (n : nat) alo ahi bhi : ∀ best,
  block_within alo ahi best →
  block_within alo ahi (extend_right a b n ahi bhi best).
Proof.
  induction n as [|n IH]; intros [[besti bestj] bestsize] Hbest; [done|].
  simpl. destruct (besti + bestsize <? ahi) eqn:Hhi; simpl; [|done].
  destruct (bestj + bestsize <? bhi); simpl; [|done].
  destruct (same_elt a b _ _); [|done].
  apply IH. apply Z.ltb_lt in Hhi.
  unfold block_within in *; simpl in *. lia.
Qed.

(** The longest match of a range lies in the range. *)
Lemma find_longest_match_within alo ahi blo bhi :
  alo ≤ ahi →
  block_within alo ahi (find_longest_match a b alo ahi blo bhi).
Proof.
  intros Hrange. unfold find_longest_match.
  apply extend_right_within, extend_left_within.
  pose proof (rows_within alo blo bhi (Z.to_nat (ahi - alo)) alo ∅
                (alo, blo, 0)) as Hrows.
  rewrite Z2Nat.id in Hrows by lia.
  replace (alo + (ahi - alo)) with ahi in Hrows by lia.
  apply Hrows; [lia| |].
  - intros j v. by rewrite lookup_empty.
  - unfold block_within; simpl. lia.
Qed.

(** The two [while] loops stop within the number of turns they are given:
    more turns change nothing. *)
Lemma extend_left_fuel (n m : nat) alo blo : ∀ best,
  best.1.1 - alo ≤ Z.of_nat n → best.1.1 - alo ≤ Z.of_nat m →
  extend_left a b n alo blo best = extend_left a b m alo blo best.
Proof.
  revert m. induction n as [|n IH];
    intros m [[besti bestj] bestsize] Hn Hm; simpl in Hn, Hm.
  - destruct m as [|m]; [done|]. simpl.
    by rewrite (proj2 (Z.ltb_ge alo besti)) by lia.
  - destruct m as [|m]; simpl.
    + by rewrite (proj2 (Z.ltb_ge alo besti)) by lia.
    + destruct (alo <? besti) eqn:Hlo; simpl; [|done].
      destruct (blo <? bestj); simpl; [|done].
      destruct (same_elt a b _ _); [|done].
      apply IH; simpl; lia.
Qed.

Lemma extend_right_fuel (n m : nat) ahi bhi : ∀ best,
  ahi - (best.1.1 + best.2) ≤ Z.of_nat n →
  ahi - (best.1.1 + best.2) ≤ Z.of_nat m →
  extend_right a b n ahi bhi best = extend_right a b m ahi bhi best.
Proof.
  revert m. induction n as [|n IH];
    intros m [[besti bestj] bestsize] Hn Hm; simpl in Hn, Hm.
  - destruct m as [|m]; [done|]. simpl.
    by rewrite (proj2 (Z.ltb_ge (besti + bestsize) ahi)) by lia.
  - destruct m as [|m]; simpl.
    + by rewrite (proj2 (Z.ltb_ge (besti + bestsize) ahi)) by lia.
    + destruct (besti + bestsize <? ahi) eqn:Hhi; simpl; [|done].
      destruct (bestj + bestsize <? bhi); simpl; [|done].
      destruct (same_elt a b _ _); [|done].
      apply IH; simpl; lia.
Qed.

Lemma queue_weight_nonneg queue :
  Forall range_ok queue → 0 ≤ queue_weight queue.
Proof.
  induction 1 as [|q queue Hq _ IH]; simpl; [done|].
  unfold range_ok, weight in *. lia.
Qed.

(** With as many turns as the weight of the queue, the loop of
    [get_matching_blocks] empties the queue: more turns give the same
    blocks. *)
Lemma blocks_loop_fuel (fuel1 : nat) : ∀ (fuel2 : nat) queue acc,
  Forall range_ok queue →
  queue_weight queue ≤ Z.of_nat fuel1 →
  queue_weight queue ≤ Z.of_nat fuel2 →
  blocks_loop a b fuel1 queue acc = blocks_loop a b fuel2 queue acc.
Proof.
  induction fuel1 as [|fuel1 IH]; intros fuel2 queue acc Hok H1 H2.
  - destruct queue as [|q queue]; [by destruct fuel2|].
    apply Forall_cons_1 in Hok as [Hq Hok].
    pose proof (queue_weight_nonneg _ Hok).
    simpl in H1. unfold range_ok, weight in *. lia.
  - destruct queue as [|[[[alo ahi] blo] bhi] queue]; [by destruct fuel2|].
    apply Forall_cons_1 in Hok as [Hq Hok].
    pose proof (queue_weight_nonneg _ Hok) as Hnn.
    unfold range_ok in Hq. simpl in Hq, H1, H2.
    unfold weight in H1, H2; simpl in H1, H2.
    destruct fuel2 as [|fuel2]; [lia|].
    simpl.
    pose proof (find_longest_match_within alo ahi blo bhi Hq) as Hin.
    destruct (find_longest_match a b alo ahi blo bhi) as [[i j] k].
    destruct Hin as (Hlo & Hhi & Hk); simpl in Hlo, Hhi, Hk.
    destruct (k =? 0) eqn:Hk0.
    + apply IH; [done|lia..].
    + apply Z.eqb_neq in Hk0.
      apply IH.
      * destruct (_ && _), (_ && _); repeat constructor;
          unfold range_ok; simpl; try done; lia.
      * destruct (_ && _), (_ && _); simpl; unfold weight; simpl; lia.
      * destruct (_ && _), (_ && _); simpl; unfold weight; simpl; lia.
Qed.

(** The blocks that [found_blocks] gives are those of the loop run to the
    end of the queue. *)
Lemma found_blocks_fuel (n : nat) :
  (2 * length a + 1 ≤ n)%nat →
  blocks_loop a b n [(0, len a, 0, len b)] [] = found_blocks a b.
Proof.
  intros Hn. unfold found_blocks. apply blocks_loop_fuel.
  - repeat constructor. unfold range_ok, len; simpl. lia.
  - simpl. unfold weight, len; simpl. lia.
  - simpl. unfold weight, len; simpl. lia.
Qed.
End SequenceMatcherLoops.

(** * The graph builder on a whole stream *)

(** ** When build_graph returns *)

Lemma views_descriptors_ok h data es :
  views h data es → Forall entry_ok es → Forall (descriptor_ok h) (locs data).
Proof.
  intros Hvs. induction Hvs as [|[[c e] p] en data es Hv _ IH]; intros Hoks.
  - constructor.
  - apply Forall_cons_1 in Hoks as [(Hc & Hp & Hca & Hpa) Hoks].
    destruct (view_names _ _ _ _ _ Hv) as (Hnc & Hnp & Hkc & Hkp & _).
    rewrite locs_cons. rewrite Hkc in Hca. rewrite Hkp in Hpa.
    repeat constructor; [by eexists..|by apply IH].
Qed.

Lemma views_exist h data :
  Forall (descriptor_ok h) (locs data) →
  ∃ es, views h data es ∧ Forall entry_ok es.
Proof.
  induction data as [|[[c e] p] data IH]; intros Hok.
  - exists []. split; constructor.
  - rewrite locs_cons in Hok.
    apply Forall_cons_1 in Hok as [(cn & Hc & Hcn & Hca) Hok].
    apply Forall_cons_1 in Hok as [(pn & Hp & Hpn & Hpa) Hok].
    destruct (IH Hok) as (es & Hvs & Hoks).
    exists (mkEntry cn (attrs_of h c) e pn (attrs_of h p) :: es). split.
    + constructor; [|done]. unfold view. by rewrite Hc, Hp.
    + constructor; [|done]. by split_and!.
Qed.

(** X1: [build_graph] returns a graph exactly when no descriptor object
    occurs twice in the stream and every descriptor has a name that is not
    [None] and no attribute called "self" or "node_for_adding". *)
Theorem build_graph_returns_iff data h :
  (∃ g h', build_graph data h = (Ok g, h')) ↔
  NoDup (locs data) ∧ Forall (descriptor_ok h) (locs data).
Proof.
  split.
  - intros (g & h' & (es & Hvs & Hoks & _ & _ & Hnd & _)%build_graph_ok_inv).
    split; [done|]. by eapply views_descriptors_ok.
  - intros [Hnd (es & Hvs & Hoks)%views_exist].
    destruct (build_graph_ok_intro data h es Hnd Hvs Hoks) as [h' Hb]. eauto.
Qed.

Lemma build_graph_returns_iff_witness :
  ∃ g h', build_graph overwrite_stream overwrite_store = (Ok g, h').
Proof.
  apply (build_graph_returns_iff overwrite_stream overwrite_store). split.
  - vm_compute. repeat constructor; intros Hin;
      repeat (inversion Hin as [|? ? ? Hin']; subst; clear Hin;
              rename Hin' into Hin).
  - repeat constructor; eexists; (split_and!; [reflexivity|discriminate|]);
      vm_compute; intros [[? [=]]|[? [=]]].
Defined.

(** ** The nodes and the edges, exactly *)

Lemma has_node_after_iff g en n :
  has_node (graph_after g en) n ↔
  n = child_name en ∨ n = parent_name en ∨ has_node g n.
Proof.
  unfold has_node. rewrite node_after.
  destruct (decide (parent_name en = n)) as [<-|Hp]; [split; eauto|].
  destruct (decide (child_name en = n)) as [<-|Hc]; [split; eauto|].
  split; [by eauto|]. intros [-> | [-> | ?]]; done.
Qed.

Lemma has_node_foldl_iff es : ∀ g n,
  has_node (foldl graph_after g es) n ↔
  has_node g n ∨ ∃ en, en ∈ es ∧ (n = child_name en ∨ n = parent_name en).
Proof.
  induction es as [|en es IH]; intros g n; simpl.
  - split; [by left|]. intros [? | (en & ?%elem_of_nil & _)]; done.
  - rewrite IH, has_node_after_iff. split.
    + intros [[Hc | [Hp | Hg]] | (en' & Hin & Hn)].
      * right. exists en. split; [apply list_elem_of_here|by left].
      * right. exists en. split; [apply list_elem_of_here|by right].
      * by left.
      * right. exists en'. split; [by apply list_elem_of_further|done].
    + intros [Hg | (en' & Hin & Hn)]; [by left; right; right|].
      apply elem_of_cons in Hin as [-> | Hin].
      * left. destruct Hn; [by left|by right; left].
      * right. eauto.
Qed.

Lemma views_elem_rev h data es en :
  views h data es → en ∈ es →
  ∃ c e p, (c, e, p) ∈ data ∧ view h (c, e, p) = Some en.
Proof.
  intros Hvs Hin. apply list_elem_of_lookup in Hin as [i Hi].
  destruct (Forall2_lookup_r _ _ _ _ _ Hvs Hi) as ([[c e] p] & Ht & Hv).
  exists c, e, p. split; [|done]. apply list_elem_of_lookup. eauto.
Qed.

(** X2: the nodes of the graph that [build_graph] returns are the names of
    the descriptors of the stream, and nothing else. *)
Theorem build_graph_nodes_exact data h g h' n :
  build_graph data h = (Ok g, h') →
  (has_node g n ↔
   ∃ c e p, (c, e, p) ∈ data ∧ (name_of h c = Some n ∨ name_of h p = Some n)).
Proof.
  intros (es & Hvs & _ & -> & _)%build_graph_ok_inv.
  rewrite has_node_foldl_iff. split.
  - intros [[? Hn] | (en & Hin & Hn)].
    { unfold empty_graph in Hn; simpl in Hn. by rewrite lookup_empty in Hn. }
    destruct (views_elem_rev _ _ _ _ Hvs Hin) as (c & e & p & Ht & Hv).
    destruct (view_names _ _ _ _ _ Hv) as (Hc & Hp & _).
    exists c, e, p. split; [done|]. destruct Hn as [-> | ->]; auto.
  - intros (c & e & p & Ht & Hn). right.
    destruct (views_elem _ _ _ _ _ _ Hvs Ht) as (en & Hin & Hv).
    destruct (view_names _ _ _ _ _ Hv) as (Hc & Hp & _).
    exists en. split; [done|]. destruct Hn as [Hn | Hn]; [left|right]; congruence.
Qed.

Lemma build_graph_nodes_exact_witness :
  has_node (graph_of overwrite_stream overwrite_store) (VStr "M1") ↔
  ∃ c e p, (c, e, p) ∈ overwrite_stream ∧
    (name_of overwrite_store c = Some (VStr "M1") ∨
     name_of overwrite_store p = Some (VStr "M1")).
Proof.
  apply (build_graph_nodes_exact overwrite_stream overwrite_store
           (graph_of overwrite_stream overwrite_store)
           (build_graph overwrite_stream overwrite_store).2 (VStr "M1")).
  reflexivity.
Defined.

Lemma last_label_Some h cn pn data l :
  last_label h cn pn data = Some l →
  ∃ c p, (c, l, p) ∈ data ∧ name_of h c = Some cn ∧ name_of h p = Some pn.
Proof.
  induction data as [|[[c e] p] data IH]; simpl; [done|].
  destruct (last_label h cn pn data) as [l'|].
  - intros [= ->]. destruct IH as (c' & p' & Hin & Hn); [done|].
    exists c', p'. split; [by apply list_elem_of_further|done].
  - case_decide as Hn; [|done]. intros [= ->].
    exists c, p. split; [apply list_elem_of_here|done].
Qed.

(** X3: the graph that [build_graph] returns has an edge from [u] to [v]
    exactly when a tuple of the stream has a child called [u] and a parent
    called [v]; the edge then carries the label of one of these tuples and
    no other attribute. *)
Theorem build_graph_edges_exact data h g h' u v :
  build_graph data h = (Ok g, h') →
  (is_Some (edge_data g u v) ↔
   ∃ c e p, (c, e, p) ∈ data ∧ name_of h c = Some u ∧ name_of h p = Some v) ∧
  (∀ d, edge_data g u v = Some d →
     ∃ c e p, (c, e, p) ∈ data ∧ name_of h c = Some u ∧
              name_of h p = Some v ∧ d = {["label" := e]}).
Proof.
  intros Hb. rewrite (build_graph_edge _ _ _ _ _ _ Hb). split.
  - split.
    + intros [d Hd]. destruct (last_label h u v data) as [l|] eqn:Hl; [|done].
      destruct (last_label_Some _ _ _ _ _ Hl) as (c & p & Hin & Hn).
      by exists c, l, p.
    + intros (c & e & p & Hin & Hc & Hp).
      destruct (last_label_elem h u v data c e p Hin Hc Hp) as [l ->].
      by eexists.
  - intros d. destruct (last_label h u v data) as [l|] eqn:Hl; [|done].
    intros [= <-].
    destruct (last_label_Some _ _ _ _ _ Hl) as (c & p & Hin & Hc & Hp).
    by exists c, l, p.
Qed.

Lemma build_graph_edges_exact_witness :
  (is_Some (edge_data (graph_of overwrite_stream overwrite_store)
              (VStr "M1") (VStr "M0")) ↔
   ∃ c e p, (c, e, p) ∈ overwrite_stream ∧
     name_of overwrite_store c = Some (VStr "M1") ∧
     name_of overwrite_store p = Some (VStr "M0")) ∧
  (∀ d, edge_data (graph_of overwrite_stream overwrite_store)
          (VStr "M1") (VStr "M0") = Some d →
     ∃ c e p, (c, e, p) ∈ overwrite_stream ∧
       name_of overwrite_store c = Some (VStr "M1") ∧
       name_of overwrite_store p = Some (VStr "M0") ∧ d = {["label" := e]}).
Proof.
  apply (build_graph_edges_exact overwrite_stream overwrite_store
           (graph_of overwrite_stream overwrite_store)
           (build_graph overwrite_stream overwrite_store).2
           (VStr "M1") (VStr "M0")).
  reflexivity.
Defined.

(** ** The shape of the graph *)

Lemma pred_data_default g v u :
  pred_data g v u = default ∅ (_pred g !! v) !! u.
Proof. unfold pred_data. by destruct (_pred g !! v). Qed.

Lemma pred_after g en v u :
  pred_data (graph_after g en) v u =
    if decide (u = child_name en ∧ v = parent_name en)
    then Some (new_datadict g (child_name en) (parent_name en)
                            {["label" := label en]})
    else pred_data g v u.
Proof.
  rewrite !pred_data_default. unfold graph_after, edge_ins; simpl.
  rewrite lookup_insert. destruct (decide (parent_name en = v)) as [<-|Hv].
  - simpl. rewrite lookup_insert, !row_touch_default.
    destruct (decide (child_name en = u)) as [<-|Hu].
    + by rewrite decide_True.
    + rewrite decide_False; [done|]. intros [-> _]. done.
  - rewrite !row_touch_default.
    rewrite decide_False; [done|]. intros [_ ->]. done.
Qed.

Lemma mirrored_after g en : mirrored g → mirrored (graph_after g en).
Proof. intros Hm u v. by rewrite pred_after, edge_after, Hm. Qed.

Lemma endpoints_in_after g en :
  endpoints_in g → endpoints_in (graph_after g en).
Proof.
  intros He u v. rewrite edge_after, !has_node_after_iff.
  case_decide as Huv; [destruct Huv as [-> ->]; auto|].
  intros [??]%He. auto.
Qed.

Lemma foldl_shape es : ∀ g,
  mirrored g → endpoints_in g →
  mirrored (foldl graph_after g es) ∧ endpoints_in (foldl graph_after g es).
Proof.
  induction es as [|en es IH]; intros g Hm He; simpl; [done|].
  apply IH; [by apply mirrored_after|by apply endpoints_in_after].
Qed.

(** X4: in the graph that [build_graph] returns the three dictionaries have
    the same keys, [None] is not a node, the predecessors mirror the
    successors, and both endpoints of every edge are nodes. *)
Theorem build_graph_consistent data h g h' :
  build_graph data h = (Ok g, h') →
  dom (_succ g) = dom (_node g) ∧ dom (_pred g) = dom (_node g) ∧
  ¬ has_node g VNone ∧
  ∀ u v, pred_data g v u = edge_data g u v ∧
         (is_Some (edge_data g u v) → has_node g u ∧ has_node g v).
Proof.
  intros (es & _ & _ & -> & (Hd1 & Hd2 & Hn) & _)%build_graph_ok_inv.
  destruct (foldl_shape es empty_graph) as [Hm He]; [done| |].
  { intros u v [d Hd]. unfold edge_data, empty_graph in Hd. simpl in Hd.
    by rewrite lookup_empty in Hd. }
  split_and!; [done|congruence| |].
  - unfold has_node. rewrite (same_dom_lookup _ _ _ Hd1), Hn.
    by intros [? ?].
  - intros u v. split; [apply Hm|apply He].
Qed.

Lemma build_graph_consistent_witness :
  dom (_succ (graph_of overwrite_stream overwrite_store)) =
    dom (_node (graph_of overwrite_stream overwrite_store)) ∧
  dom (_pred (graph_of overwrite_stream overwrite_store)) =
    dom (_node (graph_of overwrite_stream overwrite_store)) ∧
  ¬ has_node (graph_of overwrite_stream overwrite_store) VNone ∧
  ∀ u v,
    pred_data (graph_of overwrite_stream overwrite_store) v u =
      edge_data (graph_of overwrite_stream overwrite_store) u v ∧
    (is_Some (edge_data (graph_of overwrite_stream overwrite_store) u v) →
     has_node (graph_of overwrite_stream overwrite_store) u ∧
     has_node (graph_of overwrite_stream overwrite_store) v).
Proof.
  apply (build_graph_consistent overwrite_stream overwrite_store
           (graph_of overwrite_stream overwrite_store)
           (build_graph overwrite_stream overwrite_store).2).
  reflexivity.
Defined.

(** ** The attributes a node ends up with *)

Lemma node_after_attr g en n k :
  _node (graph_after g en) !! n ≫= (.!! k) =
    match (if decide (parent_name en = n) then parent_kw en !! k else None) with
    | Some v => Some v
    | None =>
        match (if decide (child_name en = n) then child_kw en !! k else None)
        with
        | Some v => Some v
        | None => _node g !! n ≫= (.!! k)
        end
    end.
Proof.
  rewrite node_after.
  destruct (decide (parent_name en = n)) as [Hp|Hp].
  - simpl. rewrite lookup_union, node_upd_lookup.
    destruct (parent_kw en !! k) as [v|] eqn:Hv.
    { by destruct (default ∅ _ !! k). }
    rewrite (left_id None _). rewrite Hp.
    destruct (decide (child_name en = n)) as [Hc|Hc].
    + simpl. rewrite lookup_union, Hc.
      destruct (child_kw en !! k) as [w|] eqn:Hw.
      { by destruct (default ∅ _ !! k). }
      rewrite (left_id None _). by destruct (_node g !! n).
    + by destruct (_node g !! n).
  - destruct (decide (child_name en = n)) as [Hc|Hc]; [|done].
    simpl. rewrite lookup_union, Hc.
    destruct (child_kw en !! k) as [w|] eqn:Hw.
    { by destruct (default ∅ _ !! k). }
    rewrite (left_id None _). by destruct (_node g !! n).
Qed.

Lemma foldl_node_attr h data n k : ∀ es g,
  views h data es →
  _node (foldl graph_after g es) !! n ≫= (.!! k) =
    match last_attr h n k data with
    | Some v => Some v
    | None => _node g !! n ≫= (.!! k)
    end.
Proof.
  induction data as [|[[c e] p] data IH]; intros es g Hvs.
  - by apply Forall2_nil_inv_l in Hvs as ->.
  - apply Forall2_cons_inv_l in Hvs as (en & es' & Hv & Hvs & ->).
    simpl. rewrite (IH _ _ Hvs).
    destruct (last_attr h n k data) as [v|]; [done|].
    rewrite node_after_attr.
    destruct (view_names _ _ _ _ _ Hv) as (Hc & Hp & -> & -> & _).
    rewrite Hc, Hp.
    assert (∀ (x : value) (o : option value),
      (if decide (Some x = Some n) then o else None) =
      (if decide (x = n) then o else None)) as Hdec.
    { intros x o. repeat case_decide; congruence. }
    rewrite !Hdec.
    destruct (if decide (parent_name en = n) then _ else _); [done|].
    by destruct (if decide (child_name en = n) then _ else _).
Qed.

(** X5: in the graph that [build_graph] returns, the attribute [k] of the
    node [n] has the value that the last descriptor of the stream called [n]
    with an attribute [k] gives it (the parent of a tuple after its child),
    and the node has no such attribute if no descriptor gives one. *)
Theorem build_graph_last_attribute data h g h' n k :
  build_graph data h = (Ok g, h') →
  _node g !! n ≫= (.!! k) = last_attr h n k data.
Proof.
  intros (es & Hvs & _ & -> & _)%build_graph_ok_inv.
  rewrite (foldl_node_attr h data n k es empty_graph Hvs).
  destruct (last_attr h n k data); [done|].
  unfold empty_graph; simpl. by rewrite lookup_empty.
Qed.

Lemma build_graph_last_attribute_witness :
  _node (graph_of stale_stream stale_store) !! VStr "x" ≫= (.!! "k") =
    last_attr stale_store (VStr "x") "k" stale_stream.
Proof.
  apply (build_graph_last_attribute stale_stream stale_store
           (graph_of stale_stream stale_store)
           (build_graph stale_stream stale_store).2).
  reflexivity.
Defined.

(** ** Errors *)

Lemma process_same_object g c e h :
  ∃ h', process g (c, e, c) h = (Raise KeyError, h').
Proof.
  unfold process, mbind, M_bind, dict_pop, dict_read, lift.
  destruct (h c !! "name") as [cn|] eqn:Hc; [|eauto].
  rewrite fn_lookup_insert, lookup_delete_eq. eauto.
Qed.

Lemma build_graph_at pre t post h g1 h1 :
  build_graph pre h = (Ok g1, h1) →
  build_graph (pre ++ t :: post) h =
    match process g1 t h1 with
    | (Ok g', h') => build_loop g' post h'
    | (Raise e, h') => (Raise e, h')
    end.
Proof.
  unfold build_graph. intros Hb. by rewrite build_loop_app, Hb, build_loop_cons.
Qed.

(** X6: a descriptor object that an earlier tuple of the stream holds, or
    that is the child and the parent of one tuple, has lost its name when
    the loop pops it again: the call raises [KeyError]. *)
Theorem build_graph_reused_descriptor pre c e p post h g1 h1 :
  build_graph pre h = (Ok g1, h1) →
  c ∈ locs pre ∨ p ∈ locs pre ∨ c = p →
  ∃ h', build_graph (pre ++ (c, e, p) :: post) h = (Raise KeyError, h').
Proof.
  intros Hb Hre. rewrite (build_graph_at _ _ _ _ _ _ Hb).
  destruct (build_graph_ok_inv _ _ _ _ Hb) as (_ & _ & _ & _ & _ & _ & Hh1).
  assert (∀ l, l ∈ locs pre → name_of h1 l = None) as Hgone.
  { intros l Hl. unfold name_of. rewrite Hh1. unfold consumed.
    rewrite decide_True by done. unfold attrs_of. by rewrite lookup_delete_eq. }
  assert (∃ h', process g1 (c, e, p) h1 = (Raise KeyError, h')) as [h' ->];
    [|by eauto].
  destruct Hre as [Hc | [Hp | ->]].
  - apply process_missing_name. left. by apply Hgone.
  - apply process_missing_name. right. by apply Hgone.
  - apply process_same_object.
Qed.

Lemma build_graph_reused_descriptor_witness :
  ∃ h', build_graph ([(0, VStr "isPartOf", 1)] ++
                     (0, VStr "isPartOf", 3) :: [])%list missing_store
        = (Raise KeyError, h').
Proof.
  apply (build_graph_reused_descriptor [(0, VStr "isPartOf", 1)]
           0 (VStr "isPartOf") 3 [] missing_store
           (graph_of [(0, VStr "isPartOf", 1)] missing_store)
           (build_graph [(0, VStr "isPartOf", 1)] missing_store).2).
  - reflexivity.
  - left. vm_compute. apply list_elem_of_here.
Defined.

Lemma call_add_node_reserved g n a :
  reserved_kw a → call_add_node g n a = Raise TypeError.
Proof. intros Hr. unfold call_add_node. by rewrite decide_True. Qed.

Lemma call_add_node_None g a :
  graph_inv g → ¬ reserved_kw a → call_add_node g VNone a = Raise ValueError.
Proof.
  intros Hg Hr. unfold call_add_node. rewrite decide_False by done.
  by apply add_node_None.
Qed.

(** X7: the first tuple at which [build_graph] fails, when its descriptors
    are fresh objects, fails with the error of [tuple_error]: [KeyError] for
    a missing name or one object used as child and parent, [TypeError] for an
    attribute called "self" or "node_for_adding", [ValueError] for the name
    [None], the child before the parent; a tuple without such an error is
    accepted. *)
Theorem build_graph_first_error pre c e p post h g1 h1 :
  build_graph pre h = (Ok g1, h1) → c ∉ locs pre → p ∉ locs pre →
  match tuple_error h (c, e, p) with
  | Some err =>
      ∃ h', build_graph (pre ++ (c, e, p) :: post) h = (Raise err, h')
  | None => ∃ g2 h2, build_graph (pre ++ [(c, e, p)]) h = (Ok g2, h2)
  end.
Proof.
  intros Hb Hc Hp.
  destruct (build_graph_ok_inv _ _ _ _ Hb) as (_ & _ & _ & _ & Hg & _ & Hh1).
  assert (h1 c = h c) as Hhc.
  { rewrite Hh1. unfold consumed. by rewrite decide_False. }
  assert (h1 p = h p) as Hhp.
  { rewrite Hh1. unfold consumed. by rewrite decide_False. }
  assert (name_of h1 c = name_of h c) as Hnc by (unfold name_of; by rewrite Hhc).
  assert (name_of h1 p = name_of h p) as Hnp by (unfold name_of; by rewrite Hhp).
  assert (attrs_of h1 c = attrs_of h c) as Hac
    by (unfold attrs_of; by rewrite Hhc).
  assert (attrs_of h1 p = attrs_of h p) as Hap
    by (unfold attrs_of; by rewrite Hhp).
  unfold tuple_error.
  destruct (name_of h c) as [cn|] eqn:Hcn.
  2:{ rewrite (build_graph_at _ _ _ _ _ _ Hb).
      destruct (process_missing_name g1 c e p h1) as [h' ->]; [by left|eauto]. }
  destruct (name_of h p) as [pn|] eqn:Hpn.
  2:{ rewrite (build_graph_at _ _ _ _ _ _ Hb).
      destruct (process_missing_name g1 c e p h1) as [h' ->]; [by right|eauto]. }
  destruct (decide (c = p)) as [->|Hne].
  { rewrite (build_graph_at _ _ _ _ _ _ Hb).
    destruct (process_same_object g1 p e h1) as [h' ->]. eauto. }
  destruct (process_upsert g1 c e p h1)
    as [Hx | [Hx | [Hx | (en & Hv & _ & Hpr)]]]; [congruence..|].
  destruct (view_names _ _ _ _ _ Hv) as (Hvc & Hvp & Hkc & Hkp & Hl).
  assert (child_name en = cn) as Hecn by congruence.
  assert (parent_name en = pn) as Hepn by congruence.
  rewrite Hac in Hkc. rewrite Hap in Hkp.
  assert (∀ r, upsert g1 en = r →
    match r with
    | Raise err =>
        ∃ h', build_graph (pre ++ (c, e, p) :: post) h = (Raise err, h')
    | Ok _ => ∃ g2 h2, build_graph (pre ++ [(c, e, p)]) h = (Ok g2, h2)
    end) as Hrun.
  { intros r Hr. rewrite !(build_graph_at _ _ _ _ _ _ Hb), Hpr, Hr.
    destruct r; [rewrite build_loop_nil|]; eauto. }
  unfold upsert in Hrun. rewrite Hecn, Hepn, Hkc, Hkp in Hrun.
  destruct (decide (reserved_kw (attrs_of h c))) as [Hrc|Hrc].
  { apply (Hrun (Raise TypeError)).
    by rewrite call_add_node_reserved. }
  destruct (decide (cn = VNone)) as [->|Hcn0].
  { apply (Hrun (Raise ValueError)). by rewrite call_add_node_None. }
  rewrite call_add_node_closed in Hrun by done.
  assert (graph_inv (mkDiGraph (node_upd (_node g1) cn (attrs_of h c))
            (row_touch (_succ g1) cn) (row_touch (_pred g1) cn))) as Hg'
    by solve_graph_inv.
  destruct (decide (reserved_kw (attrs_of h p))) as [Hrp|Hrp].
  { apply (Hrun (Raise TypeError)). simpl.
    by rewrite call_add_node_reserved. }
  destruct (decide (pn = VNone)) as [->|Hpn0].
  { apply (Hrun (Raise ValueError)). simpl. by rewrite call_add_node_None. }
  simpl in Hrun. rewrite call_add_node_closed in Hrun by done.
  simpl in Hrun. rewrite add_edge_closed in Hrun by solve_graph_inv.
  exact (Hrun _ eq_refl).
Qed.

Lemma build_graph_first_error_witness :
  ∃ h', build_graph ([(0, VStr "isPartOf", 1)] ++
                     (2, VStr "isPartOf", 3) :: [])%list missing_store
        = (Raise KeyError, h').
Proof.
  apply (build_graph_first_error [(0, VStr "isPartOf", 1)]
           2 (VStr "isPartOf") 3 [] missing_store
           (graph_of [(0, VStr "isPartOf", 1)] missing_store)
           (build_graph [(0, VStr "isPartOf", 1)] missing_store).2).
  - reflexivity.
  - vm_compute. intros Hin.
    repeat (inversion Hin as [|? ? ? Hin']; subst; clear Hin;
            rename Hin' into Hin).
  - vm_compute. intros Hin.
    repeat (inversion Hin as [|? ? ? Hin']; subst; clear Hin;
            rename Hin' into Hin).
Defined.

(** ** Tuples about different entities *)

Lemma node_upd_comm N n1 a1 n2 a2 :
  n1 ≠ n2 →
  node_upd (node_upd N n1 a1) n2 a2 = node_upd (node_upd N n2 a2) n1 a1.
Proof.
  intros Hne. unfold node_upd.
  rewrite !lookup_insert_ne by done. by apply insert_insert_ne.
Qed.

Lemma row_touch_comm S n1 n2 :
  n1 ≠ n2 → row_touch (row_touch S n1) n2 = row_touch (row_touch S n2) n1.
Proof.
  intros Hne. unfold row_touch.
  rewrite !lookup_insert_ne by done. by apply insert_insert_ne.
Qed.

Lemma row_touch_edge_ins S u v d n :
  n ≠ u → row_touch (edge_ins S u v d) n = edge_ins (row_touch S n) u v d.
Proof.
  intros Hne. unfold row_touch, edge_ins.
  rewrite !lookup_insert_ne by done. by apply insert_insert_ne.
Qed.

Lemma edge_ins_comm S u1 v1 d1 u2 v2 d2 :
  u1 ≠ u2 →
  edge_ins (edge_ins S u1 v1 d1) u2 v2 d2 =
  edge_ins (edge_ins S u2 v2 d2) u1 v1 d1.
Proof.
  intros Hne. unfold edge_ins.
  rewrite !lookup_insert_ne by done. by apply insert_insert_ne.
Qed.

Lemma touches_comm S x1 y1 x2 y2 :
  x1 ≠ x2 → x1 ≠ y2 → y1 ≠ x2 → y1 ≠ y2 →
  row_touch (row_touch (row_touch (row_touch S x1) y1) x2) y2 =
  row_touch (row_touch (row_touch (row_touch S x2) y2) x1) y1.
Proof.
  intros H1 H2 H3 H4.
  rewrite (row_touch_comm _ y1 x2) by done.
  rewrite (row_touch_comm S x1 x2) by done.
  rewrite (row_touch_comm _ y1 y2) by done.
  by rewrite (row_touch_comm _ x1 y2) by done.
Qed.

Lemma touch_ins_comm S x1 y1 u1 v1 d1 x2 y2 u2 v2 d2 :
  x1 ≠ x2 → x1 ≠ y2 → y1 ≠ x2 → y1 ≠ y2 →
  u1 = x1 ∨ u1 = y1 → u2 = x2 ∨ u2 = y2 →
  edge_ins (row_touch (row_touch
     (edge_ins (row_touch (row_touch S x1) y1) u1 v1 d1) x2) y2) u2 v2 d2 =
  edge_ins (row_touch (row_touch
     (edge_ins (row_touch (row_touch S x2) y2) u2 v2 d2) x1) y1) u1 v1 d1.
Proof.
  intros H1 H2 H3 H4 Hu1 Hu2.
  assert (x2 ≠ u1 ∧ y2 ≠ u1 ∧ x1 ≠ u2 ∧ y1 ≠ u2 ∧ u1 ≠ u2)
    as (G1 & G2 & G3 & G4 & G5)
    by (destruct Hu1 as [-> | ->], Hu2 as [-> | ->]; split_and!; congruence).
  rewrite (row_touch_edge_ins _ u1 v1 d1 x2) by done.
  rewrite (row_touch_edge_ins _ u1 v1 d1 y2) by done.
  rewrite (edge_ins_comm _ u1 v1 d1 u2 v2 d2) by done.
  rewrite (touches_comm S x1 y1 x2 y2) by done.
  rewrite <- (row_touch_edge_ins _ u2 v2 d2 y1) by done.
  by rewrite <- (row_touch_edge_ins _ u2 v2 d2 x1) by done.
Qed.

Lemma node_upds_comm N x1 a1 y1 b1 x2 a2 y2 b2 :
  x1 ≠ x2 → x1 ≠ y2 → y1 ≠ x2 → y1 ≠ y2 →
  node_upd (node_upd (node_upd (node_upd N x1 a1) y1 b1) x2 a2) y2 b2 =
  node_upd (node_upd (node_upd (node_upd N x2 a2) y2 b2) x1 a1) y1 b1.
Proof.
  intros H1 H2 H3 H4.
  rewrite (node_upd_comm _ y1 b1 x2 a2) by done.
  rewrite (node_upd_comm N x1 a1 x2 a2) by done.
  rewrite (node_upd_comm _ y1 b1 y2 b2) by done.
  by rewrite (node_upd_comm _ x1 a1 y2 b2) by done.
Qed.

Lemma new_datadict_after g en u v a :
  ¬ (u = child_name en ∧ v = parent_name en) →
  new_datadict (graph_after g en) u v a = new_datadict g u v a.
Proof.
  intros Hne. unfold new_datadict. rewrite edge_after.
  by rewrite decide_False.
Qed.

Lemma graph_after_comm g e1 e2 :
  apart e1 e2 →
  graph_after (graph_after g e1) e2 = graph_after (graph_after g e2) e1.
Proof.
  intros (Hcc & Hcp & Hpc & Hpp).
  assert (∀ g1 g2 : DiGraph,
    _node g1 = _node g2 → _succ g1 = _succ g2 → _pred g1 = _pred g2 →
    g1 = g2) as Hext.
  { intros [N1 S1 P1] [N2 S2 P2]; simpl. by intros -> -> ->. }
  apply Hext.
  - change (_node (graph_after (graph_after g e1) e2)) with
      (node_upd (node_upd (node_upd (node_upd (_node g)
         (child_name e1) (child_kw e1)) (parent_name e1) (parent_kw e1))
         (child_name e2) (child_kw e2)) (parent_name e2) (parent_kw e2)).
    change (_node (graph_after (graph_after g e2) e1)) with
      (node_upd (node_upd (node_upd (node_upd (_node g)
         (child_name e2) (child_kw e2)) (parent_name e2) (parent_kw e2))
         (child_name e1) (child_kw e1)) (parent_name e1) (parent_kw e1)).
    by apply node_upds_comm.
  - change (_succ (graph_after (graph_after g e1) e2)) with
      (edge_ins (row_touch (row_touch
         (edge_ins (row_touch (row_touch (_succ g) (child_name e1))
                      (parent_name e1)) (child_name e1) (parent_name e1)
            (new_datadict g (child_name e1) (parent_name e1)
               {["label" := label e1]}))
         (child_name e2)) (parent_name e2)) (child_name e2) (parent_name e2)
         (new_datadict (graph_after g e1) (child_name e2) (parent_name e2)
            {["label" := label e2]})).
    change (_succ (graph_after (graph_after g e2) e1)) with
      (edge_ins (row_touch (row_touch
         (edge_ins (row_touch (row_touch (_succ g) (child_name e2))
                      (parent_name e2)) (child_name e2) (parent_name e2)
            (new_datadict g (child_name e2) (parent_name e2)
               {["label" := label e2]}))
         (child_name e1)) (parent_name e1)) (child_name e1) (parent_name e1)
         (new_datadict (graph_after g e2) (child_name e1) (parent_name e1)
            {["label" := label e1]})).
    rewrite !new_datadict_after by (intros [? ?]; congruence).
    apply touch_ins_comm; auto.
  - change (_pred (graph_after (graph_after g e1) e2)) with
      (edge_ins (row_touch (row_touch
         (edge_ins (row_touch (row_touch (_pred g) (child_name e1))
                      (parent_name e1)) (parent_name e1) (child_name e1)
            (new_datadict g (child_name e1) (parent_name e1)
               {["label" := label e1]}))
         (child_name e2)) (parent_name e2)) (parent_name e2) (child_name e2)
         (new_datadict (graph_after g e1) (child_name e2) (parent_name e2)
            {["label" := label e2]})).
    change (_pred (graph_after (graph_after g e2) e1)) with
      (edge_ins (row_touch (row_touch
         (edge_ins (row_touch (row_touch (_pred g) (child_name e2))
                      (parent_name e2)) (parent_name e2) (child_name e2)
            (new_datadict g (child_name e2) (parent_name e2)
               {["label" := label e2]}))
         (child_name e1)) (parent_name e1)) (parent_name e1) (child_name e1)
         (new_datadict (graph_after g e2) (child_name e1) (parent_name e1)
            {["label" := label e1]})).
    rewrite !new_datadict_after by (intros [? ?]; congruence).
    apply touch_ins_comm; auto.
Qed.

Lemma locs_swap pre t1 t2 post :
  locs (pre ++ t2 :: t1 :: post) ≡ₚ locs (pre ++ t1 :: t2 :: post).
Proof.
  destruct t1 as [[c1 e1] p1], t2 as [[c2 e2] p2].
  rewrite !locs_app, !locs_cons.
  apply Permutation_app_head.
  change (c2 :: p2 :: c1 :: p1 :: locs post)
    with ([c2; p2] ++ [c1; p1] ++ locs post)%list.
  change (c1 :: p1 :: c2 :: p2 :: locs post)
    with ([c1; p1] ++ [c2; p2] ++ locs post)%list.
  rewrite !(assoc_L (++)%list). apply Permutation_app_tail.
  apply Permutation_app_comm.
Qed.

(** X8: two adjacent tuples that have no name in common can change places:
    a stream that [build_graph] accepts is accepted with the two tuples
    swapped, and the graph has the same nodes, attributes and edges. *)
Theorem build_graph_swap_apart pre t1 t2 post h g h' e1 e2 :
  build_graph (pre ++ t1 :: t2 :: post) h = (Ok g, h') →
  view h t1 = Some e1 → view h t2 = Some e2 → apart e1 e2 →
  ∃ h'', build_graph (pre ++ t2 :: t1 :: post) h = (Ok g, h'').
Proof.
  intros (es & Hvs & Hoks & -> & _ & Hnd & _)%build_graph_ok_inv Hv1 Hv2 Hap.
  apply Forall2_app_inv_l in Hvs as (es1 & es2 & Hvs1 & Hvs2 & ->).
  apply Forall2_cons_inv_l in Hvs2 as (e1' & es3 & Hv1' & Hvs2 & ->).
  apply Forall2_cons_inv_l in Hvs2 as (e2' & es4 & Hv2' & Hvs2 & ->).
  assert (e1' = e1) as -> by congruence.
  assert (e2' = e2) as -> by congruence.
  apply Forall_app in Hoks as [Hoks1 Hoks2].
  apply Forall_cons_1 in Hoks2 as [Hok1 Hoks2].
  apply Forall_cons_1 in Hoks2 as [Hok2 Hoks2].
  destruct (build_graph_ok_intro (pre ++ t2 :: t1 :: post) h
              (es1 ++ e2 :: e1 :: es4)) as [h'' Hb].
  - by rewrite locs_swap.
  - unfold views. apply Forall2_app; [done|].
    constructor; [done|]. by constructor.
  - apply Forall_app. split; [done|].
    constructor; [done|]. by constructor.
  - exists h''. rewrite Hb. do 2 f_equal.
    rewrite !foldl_app. simpl. by rewrite (graph_after_comm _ e1 e2 Hap).
Qed.

Lemma build_graph_swap_apart_witness :
  ∃ h'', build_graph ([] ++ [(2, VStr "isContainedIn", 3);
                             (0, VStr "isPartOf", 1)])%list apart_store
         = (Ok (graph_of apart_stream apart_store), h'').
Proof.
  apply (build_graph_swap_apart [] (0, VStr "isPartOf", 1)
           (2, VStr "isContainedIn", 3) [] apart_store
           (graph_of apart_stream apart_store)
           (build_graph apart_stream apart_store).2
           (mkEntry (VStr "M1") {["color" := VStr "green"]} (VStr "isPartOf")
                    (VStr "nucleus") {["color" := VStr "yellow"]})
           (mkEntry (VStr "S1") {["color" := VStr "blue"]}
                    (VStr "isContainedIn") (VStr "M2") ∅)).
  - reflexivity.
  - reflexivity.
  - reflexivity.
  - repeat split; discriminate.
Defined.

(** * The identifier and the errors of the resolver *)

Lemma append_assoc (s1 s2 s3 : string) : (s1 ++ s2) ++ s3 = s1 ++ (s2 ++ s3).
Proof.
  induction s1 as [|c s1 IH]; [done|].
  change (String c ((s1 ++ s2) ++ s3) = String c (s1 ++ (s2 ++ s3))).
  by rewrite IH.
Qed.

Lemma append_empty_r (s : string) : s ++ EmptyString = s.
Proof.
  induction s as [|c s IH]; [done|].
  change (String c (s ++ EmptyString) = String c s). by rewrite IH.
Qed.

Lemma split_snoc sep s :
  ∃ init lst, split sep s = (init ++ [lst])%list ∧
              s = followed_by (String sep EmptyString) init ++ lst ∧
              Forall (λ seg, sep ∉ String.list_ascii_of_string seg)
                     (init ++ [lst])%list.
Proof.
  induction s as [|c r (init & lst & Hs & Hr & Hfree)]; simpl.
  - exists [], EmptyString. split_and!; [done|done|].
    constructor; [|constructor]. simpl. by intros ?%elem_of_nil.
  - case_decide as Hc.
    + subst c. exists (EmptyString :: init), lst. rewrite Hs.
      split_and!; [done| |].
      { change (String sep r =
                String sep (followed_by (String sep EmptyString) init ++ lst)).
        congruence. }
      constructor; [|done]. simpl. by intros ?%elem_of_nil.
    + rewrite Hs. destruct init as [|seg init].
      * exists [], (String c lst). split_and!; [done| |].
        { change (String c r =
                  String c (followed_by (String sep EmptyString) [] ++ lst)).
          congruence. }
        apply Forall_cons_1 in Hfree as [Hl _].
        constructor; [|constructor]. simpl.
        intros [?|?]%elem_of_cons; [congruence|done].
      * exists (String c seg :: init), lst.
        split_and!; [done| |].
        { change (String c r =
                  String c (followed_by (String sep EmptyString) (seg :: init)
                            ++ lst)).
          congruence. }
        apply Forall_cons_1 in Hfree as [Hl Hfree].
        constructor; [|done]. simpl.
        intros [?|?]%elem_of_cons; [congruence|done].
Qed.

Lemma followed_by_end sep init :
  init ≠ [] → ∃ pre, followed_by sep init = pre ++ sep.
Proof.
  induction init as [|seg init IH]; [done|]. intros _. simpl.
  destruct init as [|seg' init].
  - exists seg. simpl. by rewrite append_empty_r.
  - destruct IH as [pre Hpre]; [done|]. rewrite Hpre.
    exists (seg ++ sep ++ pre). by rewrite !append_assoc.
Qed.

(** The last segment of a split is what follows the last separator. *)
Lemma split_last sep s :
  ∃ pre, s = pre ++ List.last (split sep s) EmptyString ∧
         (pre = EmptyString ∨ ∃ pre', pre = pre' ++ String sep EmptyString) ∧
         sep ∉ String.list_ascii_of_string (List.last (split sep s) EmptyString).
Proof.
  destruct (split_snoc sep s) as (init & lst & Hs & Hr & Hfree).
  rewrite Hs, List.last_last.
  exists (followed_by (String sep EmptyString) init).
  split_and!; [done| |].
  - destruct init as [|seg init]; [by left|right].
    by apply followed_by_end.
  - apply Forall_app in Hfree as [_ Hl]. by apply Forall_cons_1 in Hl as [? _].
Qed.

(** X9: [_get_go_id] returns [None] exactly for a tag without an [rdf:li]
    descendant and raises nothing but the [KeyError] of a first [rdf:li]
    without an [rdf:resource]; the identifier it returns is what follows the
    last slash of the resource of the first [rdf:li] (the whole resource if
    it has no slash), and has no slash. *)
Theorem _get_go_id_last_segment tag :
  (_get_go_id tag = Ok None ↔ find tag "rdf:li" = None) ∧
  (∀ e, _get_go_id tag = Raise e →
     e = KeyError ∧
     ∃ li, find tag "rdf:li" = Some li ∧ attrs li !! "rdf:resource" = None) ∧
  (∀ go_id, _get_go_id tag = Ok (Some go_id) →
     ∃ li resource pre,
       find tag "rdf:li" = Some li ∧
       attrs li !! "rdf:resource" = Some resource ∧
       resource = pre ++ go_id ∧
       (pre = EmptyString ∨ ∃ pre', pre = pre' ++ "/") ∧
       "/"%char ∉ String.list_ascii_of_string go_id).
Proof.
  unfold _get_go_id.
  destruct (find tag "rdf:li") as [li|]; [|by split_and!].
  destruct (attrs li !! "rdf:resource") as [resource|] eqn:Hres.
  - split_and!; [done|done|]. intros go_id [= <-].
    destruct (split_last "/" resource) as (pre & Hpre & Hend & Hfree).
    by exists li, resource, pre.
  - split_and!; [done| |done]. intros e [= <-]. split; [done|]. by exists li.
Qed.

Lemma _get_go_id_last_segment_witness :
  ∃ li resource pre,
    find (annotated_tag "http://identifiers.org/go/GO:0005737") "rdf:li"
      = Some li ∧
    attrs li !! "rdf:resource" = Some resource ∧
    resource = pre ++ "GO:0005737" ∧
    (pre = EmptyString ∨ ∃ pre', pre = pre' ++ "/") ∧
    "/"%char ∉ String.list_ascii_of_string "GO:0005737".
Proof.
  apply (_get_go_id_last_segment
           (annotated_tag "http://identifiers.org/go/GO:0005737")).
  reflexivity.
Defined.

(** X10: [_get_name] never raises [AssertionError] or [ValueError]: it
    catches them.  What it raises is the error of the lookup, or the
    [KeyError] of a tag that declares neither a name nor an id when the
    lookup has failed with one of the two. *)
Theorem _get_name_errors get_go_json tag refs e :
  _get_name get_go_json tag refs = Raise e →
  e ≠ AssertionError ∧ e ≠ ValueError ∧
  (lookup_name get_go_json tag = Raise e ∨
   e = KeyError ∧ declared_name tag = None ∧
   (lookup_name get_go_json tag = Raise AssertionError ∨
    lookup_name get_go_json tag = Raise ValueError)).
Proof.
  unfold _get_name.
  assert (fuzzy_name tag refs = Raise e →
          e = KeyError ∧ declared_name tag = None) as Hfuzzy.
  { unfold fuzzy_name, declared_name.
    destruct (attrs tag !! "name") as [name|]; simpl.
    { by destruct (get_close_matches _ _ _). }
    destruct (attrs tag !! "id") as [id|]; simpl.
    { by destruct (get_close_matches _ _ _). }
    by intros [= <-]. }
  destruct (lookup_name get_go_json tag) as [v|[]] eqn:Hl; try done;
    try (intros [= <-]; split_and!; [done|done|by left]).
  - intros [-> Hd]%Hfuzzy. split_and!; [done|done|]. right. auto.
  - intros [-> Hd]%Hfuzzy. split_and!; [done|done|]. right. auto.
Qed.

Lemma _get_name_errors_witness :
  KeyError ≠ AssertionError ∧ KeyError ≠ ValueError ∧
  (lookup_name cytoplasm_service bare_li_tag = Raise KeyError ∨
   KeyError = KeyError ∧ declared_name bare_li_tag = None ∧
   (lookup_name cytoplasm_service bare_li_tag = Raise AssertionError ∨
    lookup_name cytoplasm_service bare_li_tag = Raise ValueError)).
Proof.
  apply (_get_name_errors cytoplasm_service bare_li_tag ["cytosol"] KeyError).
  reflexivity.
Defined.

(** * The reference set *)

Lemma add_compartment_ok_inv get_go_json all_compartments tag all' :
  add_compartment get_go_json all_compartments tag = Ok all' →
  (all' = all_compartments ∧
   ∀ v, compartment_label get_go_json tag = Ok v → hashable v = false) ∨
  ∃ v, compartment_label get_go_json tag = Ok v ∧ hashable v = true ∧
       all' = v :: all_compartments.
Proof.
  unfold add_compartment.
  destruct (compartment_label get_go_json tag) as [v|e].
  - destruct (hashable v) eqn:Hh; intros [= <-].
    + right. by exists v.
    + left. split; [done|]. by intros ? [= <-].
  - destruct e; intros [= <-]; by left.
Qed.

Lemma add_compartment_raise_inv get_go_json all_compartments tag e :
  add_compartment get_go_json all_compartments tag = Raise e →
  compartment_label get_go_json tag = Raise e ∧ escapes e.
Proof.
  unfold add_compartment, escapes.
  destruct (compartment_label get_go_json tag) as [v|e'].
  - by destruct (hashable v).
  - destruct e'; intros [= <-]; done.
Qed.

Lemma add_compartment_caught get_go_json all_compartments tag e :
  compartment_label get_go_json tag = Raise e → ¬ escapes e →
  add_compartment get_go_json all_compartments tag = Ok all_compartments.
Proof.
  unfold add_compartment, escapes. intros -> He.
  destruct e; try done; exfalso; apply He; done.
Qed.

Lemma add_compartments_ok_inv get_go_json tags : ∀ all_compartments all',
  add_compartments get_go_json all_compartments tags = Ok all' →
  (∀ v, v ∈ all' ↔
     v ∈ all_compartments ∨
     ∃ tag, tag ∈ tags ∧ compartment_label get_go_json tag = Ok v ∧
            hashable v = true) ∧
  (∀ tag e, tag ∈ tags → compartment_label get_go_json tag = Raise e →
     ¬ escapes e).
Proof.
  induction tags as [|tag rest IH]; intros all0 all'; simpl.
  - intros [= <-]. split.
    + intros v. split; [by left|].
      intros [? | (tag & ?%elem_of_nil & _)]; done.
    + by intros tag e ?%elem_of_nil.
  - destruct (add_compartment get_go_json all0 tag) as [all1|e] eqn:Hadd;
      [|done].
    simpl. intros [Hin Herr]%IH. split.
    + intros v. rewrite Hin.
      destruct (add_compartment_ok_inv _ _ _ _ Hadd)
        as [[-> Hno] | (w & Hw & Hh & ->)].
      * split.
        -- intros [? | (t & Ht & Hl)]; [by left|right].
           exists t. split; [by apply list_elem_of_further|done].
        -- intros [? | (t & Ht & Hl & Hh)]; [by left|].
           apply elem_of_cons in Ht as [-> | Ht]; [|right; by exists t].
           by rewrite (Hno v Hl) in Hh.
      * split.
        -- intros [[-> | ?]%elem_of_cons | (t & Ht & Hl)].
           ++ right. exists tag. split; [apply list_elem_of_here|done].
           ++ by left.
           ++ right. exists t. split; [by apply list_elem_of_further|done].
        -- intros [? | (t & Ht & Hl & Hh')].
           ++ left. by apply list_elem_of_further.
           ++ apply elem_of_cons in Ht as [-> | Ht]; [|right; by exists t].
              left. rewrite Hl in Hw. injection Hw as ->.
              apply list_elem_of_here.
    + intros t e [-> | Ht]%elem_of_cons Hl; [|by eapply Herr].
      intros Hesc. unfold add_compartment in Hadd. rewrite Hl in Hadd.
      destruct Hesc as [? ?]. by destruct e.
Qed.

Lemma add_compartments_raise_inv get_go_json tags : ∀ all_compartments e,
  add_compartments get_go_json all_compartments tags = Raise e →
  ∃ tag, tag ∈ tags ∧ compartment_label get_go_json tag = Raise e ∧ escapes e.
Proof.
  induction tags as [|tag rest IH]; intros all0 e; simpl; [done|].
  destruct (add_compartment get_go_json all0 tag) as [all1|e'] eqn:Hadd; simpl.
  - intros (t & Ht & Hl)%IH. exists t.
    split; [by apply list_elem_of_further|done].
  - intros [= ->]. exists tag. split; [apply list_elem_of_here|].
    by eapply add_compartment_raise_inv.
Qed.

Lemma scan_document_single get_go_json all_compartments soup :
  ¬ multi_compartment soup →
  scan_document get_go_json all_compartments soup = Ok all_compartments.
Proof.
  unfold scan_document, multi_compartment. intros Hs.
  destruct (Nat.ltb_spec (length (find_all soup "compartment")) 2); [done|lia].
Qed.

Lemma scan_document_multi get_go_json all_compartments soup :
  multi_compartment soup →
  scan_document get_go_json all_compartments soup =
    add_compartments get_go_json all_compartments
      (find_all soup "compartment").
Proof.
  unfold scan_document, multi_compartment. intros Hs.
  destruct (Nat.ltb_spec (length (find_all soup "compartment")) 2); [lia|done].
Qed.

Lemma scan_documents_ok_inv get_go_json soups : ∀ all_compartments all',
  scan_documents get_go_json all_compartments soups = Ok all' →
  (∀ v, v ∈ all' ↔
     v ∈ all_compartments ∨ contributes get_go_json soups v) ∧
  (∀ soup tag e, soup ∈ soups → multi_compartment soup →
     tag ∈ find_all soup "compartment" →
     compartment_label get_go_json tag = Raise e → ¬ escapes e).
Proof.
  induction soups as [|soup rest IH]; intros all0 all'; simpl.
  - intros [= <-]. split.
    + intros v. split; [by left|].
      intros [? | (s & t & ?%elem_of_nil & _)]; done.
    + by intros s t e ?%elem_of_nil.
  - destruct (scan_document get_go_json all0 soup) as [all1|e] eqn:Hdoc;
      [|done].
    simpl. intros [Hin Herr]%IH.
    destruct (decide (multi_compartment soup)) as [Hm|Hs].
    + rewrite (scan_document_multi _ _ _ Hm) in Hdoc.
      apply add_compartments_ok_inv in Hdoc as [Hin1 Herr1]. split.
      * intros v. rewrite Hin, Hin1. split.
        -- intros [[? | (t & Ht & Hl & Hh)] | (s & t & Hs & Hc)].
           ++ by left.
           ++ right. exists soup, t.
              split; [apply list_elem_of_here|done].
           ++ right. exists s, t. split; [by apply list_elem_of_further|done].
        -- intros [? | (s & t & Hs & Hms & Ht & Hl & Hh)]; [by left; left|].
           apply elem_of_cons in Hs as [-> | Hs].
           ++ left. right. by exists t.
           ++ right. by exists s, t.
      * intros s t e [-> | Hs]%elem_of_cons Hms Ht Hl;
          [by eapply Herr1|by eapply Herr].
    + rewrite (scan_document_single _ _ _ Hs) in Hdoc. injection Hdoc as <-.
      split.
      * intros v. rewrite Hin. split.
        -- intros [? | (s & t & Hs' & Hc)]; [by left|right].
           exists s, t. split; [by apply list_elem_of_further|done].
        -- intros [? | (s & t & Hs' & Hms & Hc)]; [by left|right].
           apply elem_of_cons in Hs' as [-> | Hs']; [done|]. by exists s, t.
      * intros s t e [-> | Hs']%elem_of_cons Hms Ht Hl; [done|by eapply Herr].
Qed.

Lemma scan_documents_raise_inv get_go_json soups : ∀ all_compartments e,
  scan_documents get_go_json all_compartments soups = Raise e →
  ∃ soup tag, soup ∈ soups ∧ multi_compartment soup ∧
    tag ∈ find_all soup "compartment" ∧
    compartment_label get_go_json tag = Raise e ∧ escapes e.
Proof.
  induction soups as [|soup rest IH]; intros all0 e; simpl; [done|].
  destruct (scan_document get_go_json all0 soup) as [all1|e'] eqn:Hdoc; simpl.
  - intros (s & t & Hs & Hc)%IH. exists s, t.
    split; [by apply list_elem_of_further|done].
  - intros [= ->].
    destruct (decide (multi_compartment soup)) as [Hm|Hs].
    + rewrite (scan_document_multi _ _ _ Hm) in Hdoc.
      apply add_compartments_raise_inv in Hdoc as (t & Ht & Hl & He).
      exists soup, t. split; [apply list_elem_of_here|done].
    + by rewrite (scan_document_single _ _ _ Hs) in Hdoc.
Qed.

Lemma scan_documents_filter get_go_json soups : ∀ all_compartments,
  scan_documents get_go_json all_compartments soups =
  scan_documents get_go_json all_compartments (filter multi_compartment soups).
Proof.
  induction soups as [|soup rest IH]; intros all0; [done|].
  rewrite filter_cons. destruct (decide (multi_compartment soup)) as [Hm|Hs].
  - simpl. destruct (scan_document get_go_json all0 soup); simpl; [|done].
    apply IH.
  - simpl. rewrite (scan_document_single _ _ _ Hs). simpl. apply IH.
Qed.

Lemma lookup_name_label get_go_json tag v :
  lookup_name get_go_json tag = Ok v →
  compartment_label get_go_json tag = Ok v.
Proof.
  unfold lookup_name, compartment_label, _get_go_id.
  destruct (find tag "rdf:li") as [li|]; [|done].
  destruct (attrs li !! "rdf:resource") as [resource|]; [|done].
  simpl. by destruct (List.last (split "/" resource) EmptyString).
Qed.

(** X11: when [get_all_go_compartments] returns, the reference set holds
    exactly the labels that the lookup returns for the compartment tags of
    the documents with two or more compartments, those that are hashable;
    the set is not returned if the label of such a tag raises an error other
    than [ValueError] and [TypeError]. *)
Theorem get_all_go_compartments_exact get_go_json soups refs :
  get_all_go_compartments get_go_json soups = Ok refs →
  (∀ v, v ∈ refs ↔ contributes get_go_json soups v) ∧
  (∀ soup tag e, soup ∈ soups → multi_compartment soup →
     tag ∈ find_all soup "compartment" →
     compartment_label get_go_json tag = Raise e →
     e = ValueError ∨ e = TypeError).
Proof.
  unfold get_all_go_compartments. intros [Hin Herr]%scan_documents_ok_inv.
  split.
  - intros v. rewrite Hin. split; [|by right].
    intros [?%elem_of_nil | ?]; done.
  - intros soup tag e Hs Hm Ht Hl.
    specialize (Herr soup tag e Hs Hm Ht Hl). unfold escapes in Herr.
    destruct (decide (e = ValueError)) as [?|Hv]; [by left|].
    destruct (decide (e = TypeError)) as [?|Ht']; [by right|].
    exfalso. by apply Herr.
Qed.

Lemma get_all_go_compartments_exact_witness :
  (∀ v, v ∈ [JStr "cytoplasm"] ↔
     contributes cytoplasm_service
       [two_compartments "http://identifiers.org/go/GO:0005737";
        one_compartment] v) ∧
  (∀ soup tag e,
     soup ∈ [two_compartments "http://identifiers.org/go/GO:0005737";
             one_compartment] →
     multi_compartment soup →
     tag ∈ find_all soup "compartment" →
     compartment_label cytoplasm_service tag = Raise e →
     e = ValueError ∨ e = TypeError).
Proof.
  apply (get_all_go_compartments_exact cytoplasm_service
           [two_compartments "http://identifiers.org/go/GO:0005737";
            one_compartment] [JStr "cytoplasm"]).
  reflexivity.
Defined.

(** X12: an error of [get_all_go_compartments] is the error that the lookup
    of the label raises for a compartment tag of a document with two or more
    compartments, and it is neither a [ValueError] nor a [TypeError]; the
    labels collected before are lost. *)
Theorem get_all_go_compartments_error get_go_json soups e :
  get_all_go_compartments get_go_json soups = Raise e →
  e ≠ ValueError ∧ e ≠ TypeError ∧
  ∃ soup tag, soup ∈ soups ∧ multi_compartment soup ∧
    tag ∈ find_all soup "compartment" ∧
    compartment_label get_go_json tag = Raise e.
Proof.
  unfold get_all_go_compartments.
  intros (s & t & Hs & Hm & Ht & Hl & [? ?])%scan_documents_raise_inv.
  split_and!; [done|done|]. by exists s, t.
Qed.

Lemma get_all_go_compartments_error_witness :
  KeyError ≠ ValueError ∧ KeyError ≠ TypeError ∧
  ∃ soup tag, soup ∈ [broken_compartments] ∧ multi_compartment soup ∧
    tag ∈ find_all soup "compartment" ∧
    compartment_label cytoplasm_service tag = Raise KeyError.
Proof.
  apply (get_all_go_compartments_error cytoplasm_service
           [broken_compartments] KeyError).
  reflexivity.
Defined.

(** X13: the documents with fewer than two compartments do not count:
    whatever they hold, [get_all_go_compartments] returns or raises what it
    does without them. *)
Theorem get_all_go_compartments_skips_single get_go_json soups :
  get_all_go_compartments get_go_json soups =
  get_all_go_compartments get_go_json (filter multi_compartment soups).
Proof. unfold get_all_go_compartments. apply scan_documents_filter. Qed.

(** X14: the reference set holds what the resolver finds by identifier: if
    the lookup of the resolver returns a string for a compartment tag of a
    document with two or more compartments, the resolver returns this
    string, whatever references it is given, and the set that
    [get_all_go_compartments] returns for a directory with the document
    holds it. *)
Theorem resolver_label_in_reference_set get_go_json soups refs soup tag s :
  get_all_go_compartments get_go_json soups = Ok refs →
  soup ∈ soups → multi_compartment soup →
  tag ∈ find_all soup "compartment" →
  lookup_name get_go_json tag = Ok (JStr s) →
  JStr s ∈ refs ∧
  ∀ names, _get_name get_go_json tag names = Ok (JStr s).
Proof.
  unfold get_all_go_compartments.
  intros [Hin _]%scan_documents_ok_inv Hs Hm Ht Hl. split.
  - apply Hin. right. exists soup, tag.
    split_and!; [done|done|done|by apply lookup_name_label|done].
  - intros names. unfold _get_name. by rewrite Hl.
Qed.

Lemma resolver_label_in_reference_set_witness :
  JStr "cytoplasm" ∈ [JStr "cytoplasm"] ∧
  ∀ names,
    _get_name cytoplasm_service
      (annotated_tag "http://identifiers.org/go/GO:0005737") names
    = Ok (JStr "cytoplasm").
Proof.
  apply (resolver_label_in_reference_set cytoplasm_service
           [two_compartments "http://identifiers.org/go/GO:0005737";
            one_compartment] [JStr "cytoplasm"]
           (two_compartments "http://identifiers.org/go/GO:0005737")
           (annotated_tag "http://identifiers.org/go/GO:0005737")
           "cytoplasm").
  - reflexivity.
  - apply list_elem_of_here.
  - unfold multi_compartment. vm_compute. lia.
  - apply list_elem_of_here.
  - reflexivity.
Defined.

(** * The parsers and the graph builder *)

(** ** Descriptors that are objects of their own *)

Lemma locs_addressed ts : ∀ i, locs (addressed i ts) = seq i (2 * length ts).
Proof.
  induction ts as [|t ts IH]; intros i; [done|].
  simpl addressed. rewrite locs_cons, IH. simpl.
  by rewrite Nat.add_succ_r.
Qed.

Lemma entry_of_ok t :
  well_formed t.1.1 → well_formed t.2 → entry_ok (entry_of t).
Proof.
  intros ([s1 H1] & Hs1 & Hn1) ([s2 H2] & Hs2 & Hn2).
  unfold entry_ok, entry_of, name_in, reserved_kw; simpl.
  rewrite H1, H2. simpl. rewrite !lookup_delete_ne by done.
  rewrite Hs1, Hn1, Hs2, Hn2.
  split_and!; [done|done|by intros [[? ?]|[? ?]]|by intros [[? ?]|[? ?]]].
Qed.

Lemma views_addressed ts : ∀ pre,
  Forall (λ t : triple, well_formed t.1.1 ∧ well_formed t.2) ts →
  views (store_of (pre ++ objects ts)) (addressed (length pre) ts)
        (map entry_of ts).
Proof.
  induction ts as [|[[d1 e] d2] ts IH]; intros pre Hwf; [constructor|].
  apply Forall_cons_1 in Hwf as [[([s1 H1] & _) ([s2 H2] & _)] Hwf].
  simpl in H1, H2. constructor.
  - unfold view, name_of, attrs_of, store_of, entry_of, name_in. simpl.
    rewrite list_lookup_middle by done.
    replace (pre ++ d1 :: d2 :: objects ts)%list
      with ((pre ++ [d1]) ++ d2 :: objects ts)%list
      by (by rewrite <- (assoc_L (++)%list)).
    rewrite (list_lookup_middle (pre ++ [d1]) _ d2 (S (length pre)))
      by (rewrite length_app; simpl; lia).
    simpl. rewrite H1, H2. done.
  - specialize (IH (pre ++ [d1; d2])%list Hwf).
    rewrite length_app in IH. simpl in IH.
    replace (length pre + 2) with (S (S (length pre))) in IH by lia.
    rewrite <- (assoc_L (++)%list) in IH. exact IH.
Qed.

(** [build_graph] accepts tuples whose descriptors are well formed and are
    objects of their own, and folds their entries. *)
Lemma build_graph_fresh ts :
  Forall (λ t : triple, well_formed t.1.1 ∧ well_formed t.2) ts →
  ∃ h', build_graph (addressed 0 ts) (store_of (objects ts)) =
          (Ok (foldl graph_after empty_graph (map entry_of ts)), h').
Proof.
  intros Hwf. apply build_graph_ok_intro.
  - rewrite locs_addressed. apply NoDup_seq.
  - exact (views_addressed ts [] Hwf).
  - apply Forall_map. apply list.Forall_forall. intros t Ht.
    destruct (proj1 (list.Forall_forall _ _) Hwf t Ht) as [? ?].
    by apply entry_of_ok.
Qed.

(** ** The edges of a fold *)

Lemma edge_foldl_inv es : ∀ g u v d,
  edges_labelled g →
  edge_data (foldl graph_after g es) u v = Some d →
  edge_data g u v = Some d ∨
  ∃ en, en ∈ es ∧ u = child_name en ∧ v = parent_name en ∧
        d = {["label" := label en]}.
Proof.
  induction es as [|en es IH]; intros g u v d Hg; simpl; [by left|].
  intros [Hd | (en' & Hin & Hen)]%IH; [| |by apply edges_labelled_after].
  - rewrite edge_after in Hd. case_decide as Huv; [|by left].
    right. exists en. destruct Huv as [-> ->].
    rewrite new_datadict_labelled in Hd by done. injection Hd as <-.
    split_and!; [apply list_elem_of_here|done..].
  - right. exists en'. split; [by apply list_elem_of_further|done].
Qed.

Lemma edge_foldl_intro es : ∀ g en,
  en ∈ es →
  is_Some (edge_data (foldl graph_after g es) (child_name en) (parent_name en)).
Proof.
  assert (∀ es g u v, is_Some (edge_data g u v) →
            is_Some (edge_data (foldl graph_after g es) u v)) as Hkeep.
  { intros es'. induction es' as [|en' es' IH]; intros g u v Hg; [done|].
    simpl. apply IH. rewrite edge_after. by case_decide. }
  induction es as [|en' es IH]; intros g en; [by intros ?%elem_of_nil|].
  intros [-> | Hin]%elem_of_cons; simpl; [|by apply IH].
  apply Hkeep. rewrite edge_after. by rewrite decide_True.
Qed.

(** ** The tuples of the parsers *)

Lemma model_data_wf name created :
  well_formed (model_data name created) ∧
  name_in (model_data name created) = VStr (model_name name).
Proof. split; [|done]. split_and!; [by eexists|done|done]. Qed.

Lemma child_data_wf name created :
  well_formed (child_data name created) ∧
  name_in (child_data name created) = VStr (model_name name).
Proof. split; [|done]. split_and!; [by eexists|done|done]. Qed.

Lemma parent_data_wf parent_URI :
  well_formed (parent_data parent_URI) ∧
  name_in (parent_data parent_URI) = VStr (URI_name parent_URI).
Proof.
  unfold parent_data. case_decide.
  - split; [|done]. split_and!; [by eexists|done|done].
  - split; [|done]. split_and!; [by eexists|done|done].
Qed.

Lemma compartment_data_inv get_go_json tag refs cd :
  compartment_data get_go_json tag refs = inr cd →
  ∃ s, _get_name get_go_json tag refs = Ok (JStr s) ∧
       well_formed cd ∧ name_in cd = VStr (lower s).
Proof.
  unfold compartment_data.
  destruct (_get_name get_go_json tag refs) as [[| | |s| |]|]; try done.
  destruct (_get_go_id tag) as [[[|c r]|]|]; try done; intros [= <-];
    exists s; (split; [done|]); (split; [|done]);
    (split_and!; [by eexists|done|done]).
Qed.

Lemma compartment_tuples_inv get_go_json name created refs tags : ∀ ts err,
  compartment_tuples get_go_json name created refs tags = (ts, err) →
  Forall (λ t : triple,
    t.1.1 = model_data name created ∧ t.1.2 = VStr "isPartOf" ∧
    well_formed t.2 ∧
    ∃ tag s, tag ∈ tags ∧ _get_name get_go_json tag refs = Ok (JStr s) ∧
             name_in t.2 = VStr (lower s)) ts ∧
  (err = None → ∀ tag, tag ∈ tags →
     ∃ t s, t ∈ ts ∧ _get_name get_go_json tag refs = Ok (JStr s) ∧
            name_in t.2 = VStr (lower s)).
Proof.
  induction tags as [|tag rest IH]; intros ts err; simpl.
  - intros [= <- <-]. split; [constructor|]. by intros _ t ?%elem_of_nil.
  - destruct (compartment_data get_go_json tag refs) as [e|cd] eqn:Hcd.
    { intros [= <- <-]. split; [constructor|done]. }
    destruct (compartment_tuples get_go_json name created refs rest)
      as [ts' err'] eqn:Hrest.
    intros [= <- <-]. destruct (IH _ _ eq_refl) as [Hall Hdone].
    destruct (compartment_data_inv _ _ _ _ Hcd) as (s & Hs & Hwf & Hn).
    split.
    + constructor.
      * split_and!; [done|done|done|]. exists tag, s.
        split; [apply list_elem_of_here|done].
      * eapply list.Forall_impl; [exact Hall|]. simpl.
        intros t (? & ? & ? & tag' & s' & Hin & ?).
        split_and!; [done|done|done|]. exists tag', s'.
        split; [by apply list_elem_of_further|done].
    + intros -> tag' [-> | Hin]%elem_of_cons.
      * exists (model_data name created, VStr "isPartOf", cd), s.
        split; [apply list_elem_of_here|done].
      * destruct (Hdone eq_refl tag' Hin) as (t & s' & Ht & ?).
        exists t, s'. split; [by apply list_elem_of_further|done].
Qed.

Lemma resources_inv lis : ∀ rs e,
  resources lis = (rs, e) →
  Forall (λ r, ∃ li, li ∈ lis ∧ attrs li !! "rdf:resource" = Some r) rs ∧
  (e = None → ∀ li, li ∈ lis →
     ∃ r, r ∈ rs ∧ attrs li !! "rdf:resource" = Some r).
Proof.
  induction lis as [|li rest IH]; intros rs e; simpl.
  - intros [= <- <-]. split; [constructor|]. by intros _ li ?%elem_of_nil.
  - destruct (attrs li !! "rdf:resource") as [r|] eqn:Hr.
    2:{ intros [= <- <-]. split; [constructor|done]. }
    destruct (resources rest) as [rs' e'] eqn:Hrest.
    intros [= <- <-]. destruct (IH _ _ eq_refl) as [Hall Hdone]. split.
    + constructor.
      * exists li. split; [apply list_elem_of_here|done].
      * eapply list.Forall_impl; [exact Hall|]. simpl.
        intros r' (li' & Hin & ?). exists li'.
        split; [by apply list_elem_of_further|done].
    + intros -> li' [-> | Hin]%elem_of_cons.
      * exists r. split; [apply list_elem_of_here|done].
      * destruct (Hdone eq_refl li' Hin) as (r' & Hr' & ?).
        exists r'. split; [by apply list_elem_of_further|done].
Qed.

(** ** From a document to the graph *)

Lemma fold_edges ts g h' :
  Forall (λ t : triple, well_formed t.1.1 ∧ well_formed t.2) ts →
  build_graph (addressed 0 ts) (store_of (objects ts)) = (Ok g, h') →
  (∀ u v d, edge_data g u v = Some d →
     ∃ t, t ∈ ts ∧ u = name_in t.1.1 ∧ v = name_in t.2 ∧
          d = {["label" := t.1.2]}) ∧
  (∀ t, t ∈ ts → is_Some (edge_data g (name_in t.1.1) (name_in t.2))).
Proof.
  intros Hwf Hb. destruct (build_graph_fresh ts Hwf) as [h'' Hb'].
  rewrite Hb in Hb'. injection Hb' as -> _. split.
  - intros u v d Hd. apply edge_foldl_inv in Hd as [Hd | (en & Hin & Hen)].
    + unfold edge_data, empty_graph in Hd; simpl in Hd.
      by rewrite lookup_empty in Hd.
    + apply list_elem_of_fmap in Hin as (t & -> & Ht). by exists t.
    + apply edges_labelled_empty.
  - intros t Ht.
    apply (edge_foldl_intro (map entry_of ts) empty_graph (entry_of t)).
    apply list_elem_of_fmap. by exists t.
Qed.

(** X15: [build_graph] accepts the tuples of [parse_mcmp_model], whatever
    the document: it returns a graph whose edges all start at the node of
    the model, carry the label "isPartOf" and end at the lower-cased name
    that [_get_name] returns for a compartment tag of the document; if the
    parser ends without an exception and does not skip the document, every
    compartment tag has such an edge. *)
Theorem parse_mcmp_model_graph
    text parse_date get_go_json name soup refs skip ts err :
  parse_mcmp_model text parse_date get_go_json name soup refs skip
    = (ts, err) →
  ∃ g h',
    build_graph (addressed 0 ts) (store_of (objects ts)) = (Ok g, h') ∧
    (∀ u v d, edge_data g u v = Some d →
       u = VStr (model_name name) ∧ d = {["label" := VStr "isPartOf"]} ∧
       ∃ tag s, tag ∈ find_all soup "compartment" ∧
         _get_name get_go_json tag refs = Ok (JStr s) ∧ v = VStr (lower s)) ∧
    (err = None →
     skip = false ∨ (2 ≤ length (find_all soup "compartment"))%nat →
     ∀ tag, tag ∈ find_all soup "compartment" →
       ∃ s, _get_name get_go_json tag refs = Ok (JStr s) ∧
            edge_data g (VStr (model_name name)) (VStr (lower s))
              = Some {["label" := VStr "isPartOf"]}).
Proof.
  intros Hp.
  assert (∃ created,
    Forall (λ t : triple,
      t.1.1 = model_data name created ∧ t.1.2 = VStr "isPartOf" ∧
      well_formed t.2 ∧
      ∃ tag s, tag ∈ find_all soup "compartment" ∧
        _get_name get_go_json tag refs = Ok (JStr s) ∧
        name_in t.2 = VStr (lower s)) ts ∧
    (err = None →
     skip = false ∨ (2 ≤ length (find_all soup "compartment"))%nat →
     ∀ tag, tag ∈ find_all soup "compartment" →
       ∃ t s, t ∈ ts ∧ _get_name get_go_json tag refs = Ok (JStr s) ∧
              name_in t.2 = VStr (lower s))) as (created & Hall & Hdone).
  { unfold parse_mcmp_model in Hp.
    destruct ((length (find_all soup "compartment") <? 2)%nat && skip)
      eqn:Hskip.
    { injection Hp as <- <-. exists EmptyString. split; [constructor|].
      intros _ Hno. apply andb_true_iff in Hskip as [Hlt%Nat.ltb_lt ->].
      destruct Hno as [?|?]; [done|lia]. }
    destruct (_extract_publication_date text parse_date soup)
      as [e|created].
    { injection Hp as <- <-. exists EmptyString. split; [constructor|done]. }
    exists created. apply compartment_tuples_inv in Hp as [Hall Hdone].
    split; [done|]. intros He _. by apply Hdone. }
  assert (Forall (λ t : triple, well_formed t.1.1 ∧ well_formed t.2) ts)
    as Hwf.
  { eapply list.Forall_impl; [exact Hall|]. simpl.
    intros t (-> & _ & Hwf & _). split; [apply model_data_wf|done]. }
  destruct (build_graph_fresh ts Hwf) as [h' Hb].
  destruct (fold_edges ts _ h' Hwf Hb) as [Hinv Hintro].
  eexists _, h'. split; [exact Hb|]. split.
  - intros u v d (t & Ht & -> & -> & ->)%Hinv.
    destruct (proj1 (list.Forall_forall _ _) Hall t Ht)
      as (-> & -> & _ & tag & s & Hin & Hs & Hn).
    split_and!; [done|done|]. by exists tag, s.
  - intros He Hno tag Hin.
    destruct (Hdone He Hno tag Hin) as (t & s & Ht & Hs & Hn).
    exists s. split; [done|].
    destruct (proj1 (list.Forall_forall _ _) Hall t Ht)
      as (Hm & Hl & _).
    destruct (Hintro t Ht) as [d Hd].
    rewrite Hm, Hn in Hd. change (name_in (model_data name created))
      with (VStr (model_name name)) in Hd.
    rewrite Hd. f_equal.
    destruct (Hinv _ _ _ Hd) as (t' & Ht' & _ & _ & ->).
    destruct (proj1 (list.Forall_forall _ _) Hall t' Ht') as (_ & -> & _).
    done.
Qed.

Lemma parse_mcmp_model_graph_witness :
  ∃ g h',
    build_graph
      (addressed 0
         (parse_mcmp_model a_text a_date cytoplasm_service
            "models/BIOMD0000000012.xml"
            (dated_document "http://identifiers.org/go/GO:0005737")
            [] true).1)
      (store_of (objects
         (parse_mcmp_model a_text a_date cytoplasm_service
            "models/BIOMD0000000012.xml"
            (dated_document "http://identifiers.org/go/GO:0005737")
            [] true).1)) = (Ok g, h') ∧
    (∀ u v d, edge_data g u v = Some d →
       u = VStr (model_name "models/BIOMD0000000012.xml") ∧
       d = {["label" := VStr "isPartOf"]} ∧
       ∃ tag s,
         tag ∈ find_all (dated_document "http://identifiers.org/go/GO:0005737")
                 "compartment" ∧
         _get_name cytoplasm_service tag [] = Ok (JStr s) ∧
         v = VStr (lower s)) ∧
    ((parse_mcmp_model a_text a_date cytoplasm_service
        "models/BIOMD0000000012.xml"
        (dated_document "http://identifiers.org/go/GO:0005737")
        [] true).2 = None →
     true = false ∨
     (2 ≤ length (find_all
                    (dated_document "http://identifiers.org/go/GO:0005737")
                    "compartment"))%nat →
     ∀ tag,
       tag ∈ find_all (dated_document "http://identifiers.org/go/GO:0005737")
               "compartment" →
       ∃ s, _get_name cytoplasm_service tag [] = Ok (JStr s) ∧
            edge_data g (VStr (model_name "models/BIOMD0000000012.xml"))
              (VStr (lower s)) = Some {["label" := VStr "isPartOf"]}).
Proof.
  apply (parse_mcmp_model_graph a_text a_date cytoplasm_service
           "models/BIOMD0000000012.xml"
           (dated_document "http://identifiers.org/go/GO:0005737") [] true).
  reflexivity.
Defined.

(** X16: [build_graph] accepts the tuples of [parse_derived_model], whatever
    the document: it returns a graph whose edges all start at the node of
    the model, carry the label "isDerivedFrom" and end at the name taken
    from the resource of an [rdf:li] in a [bqmodel:isDerivedFrom] element;
    if the parser ends without an exception, every such [rdf:li] has its
    edge. *)
Theorem parse_derived_model_graph text parse_date name soup ts err :
  parse_derived_model text parse_date name soup = (ts, err) →
  ∃ g h',
    build_graph (addressed 0 ts) (store_of (objects ts)) = (Ok g, h') ∧
    (∀ u v d, edge_data g u v = Some d →
       u = VStr (model_name name) ∧ d = {["label" := VStr "isDerivedFrom"]} ∧
       ∃ resource li parent_URI,
         resource ∈ find_all soup "bqmodel:isderivedfrom" ∧
         li ∈ find_all resource "rdf:li" ∧
         attrs li !! "rdf:resource" = Some parent_URI ∧
         v = VStr (URI_name parent_URI)) ∧
    (err = None →
     ∀ resource li,
       resource ∈ find_all soup "bqmodel:isderivedfrom" →
       li ∈ find_all resource "rdf:li" →
       ∃ parent_URI,
         attrs li !! "rdf:resource" = Some parent_URI ∧
         edge_data g (VStr (model_name name)) (VStr (URI_name parent_URI))
           = Some {["label" := VStr "isDerivedFrom"]}).
Proof.
  intros Hp.
  set (lis := flat_map (λ resource, find_all resource "rdf:li")
                (find_all soup "bqmodel:isderivedfrom")).
  assert (∃ created rs,
    ts = map (λ parent_URI, (child_data name created, VStr "isDerivedFrom",
                             parent_data parent_URI)) rs ∧
    Forall (λ r, ∃ li, li ∈ lis ∧ attrs li !! "rdf:resource" = Some r) rs ∧
    (err = None → ∀ li, li ∈ lis →
       ∃ r, r ∈ rs ∧ attrs li !! "rdf:resource" = Some r))
    as (created & rs & -> & Hall & Hdone).
  { unfold parse_derived_model in Hp.
    destruct (_extract_publication_date text parse_date soup)
      as [e|created].
    { injection Hp as <- <-. exists EmptyString, []. split; [done|].
      split; [constructor|done]. }
    unfold _extract_parent_URIs in Hp. fold lis in Hp.
    destruct (resources lis) as [rs e] eqn:Hrs. injection Hp as <- <-.
    exists created, rs. split; [done|]. by apply resources_inv. }
  set (ts := map _ rs).
  assert (Forall (λ t : triple, well_formed t.1.1 ∧ well_formed t.2) ts)
    as Hwf.
  { apply Forall_map. apply list.Forall_forall. intros r _. simpl.
    split; [apply child_data_wf|apply parent_data_wf]. }
  assert (∀ li, li ∈ lis ↔
            ∃ resource, resource ∈ find_all soup "bqmodel:isderivedfrom" ∧
                        li ∈ find_all resource "rdf:li") as Hlis.
  { intros li. unfold lis. rewrite list_elem_of_In, in_flat_map.
    setoid_rewrite list_elem_of_In. done. }
  destruct (build_graph_fresh ts Hwf) as [h' Hb].
  destruct (fold_edges ts _ h' Hwf Hb) as [Hinv Hintro].
  eexists _, h'. split; [exact Hb|]. split.
  - intros u v d (t & Ht & -> & -> & ->)%Hinv.
    apply list_elem_of_fmap in Ht as (r & -> & Hr). simpl.
    destruct (proj1 (list.Forall_forall _ _) Hall r Hr) as (li & Hli & Hres).
    apply Hlis in Hli as (resource & Hres' & Hli).
    split_and!; [done|done|]. exists resource, li, r.
    split_and!; [done|done|done|]. apply parent_data_wf.
  - intros He resource li Hres Hli.
    destruct (Hdone He li) as (r & Hr & Hattr).
    { apply Hlis. by exists resource. }
    exists r. split; [done|].
    assert ((child_data name created, VStr "isDerivedFrom", parent_data r)
            ∈ ts) as Ht by (apply list_elem_of_fmap; by exists r).
    destruct (Hintro _ Ht) as [d Hd]. simpl in Hd.
    rewrite (proj2 (parent_data_wf r)) in Hd.
    change (name_in (child_data name created))
      with (VStr (model_name name)) in Hd.
    rewrite Hd. f_equal.
    destruct (Hinv _ _ _ Hd) as (t' & Ht' & _ & _ & ->).
    apply list_elem_of_fmap in Ht' as (r' & -> & _). done.
Qed.

Lemma parse_derived_model_graph_witness :
  ∃ g h',
    build_graph
      (addressed 0
         (parse_derived_model a_text a_date "models/BIOMD0000000012.xml"
            (derived_document
               "http://identifiers.org/biomodels.db/BIOMD0000000010"
               "http://identifiers.org/pubmed/10643740")).1)
      (store_of (objects
         (parse_derived_model a_text a_date "models/BIOMD0000000012.xml"
            (derived_document
               "http://identifiers.org/biomodels.db/BIOMD0000000010"
               "http://identifiers.org/pubmed/10643740")).1))
      = (Ok g, h') ∧
    (∀ u v d, edge_data g u v = Some d →
       u = VStr (model_name "models/BIOMD0000000012.xml") ∧
       d = {["label" := VStr "isDerivedFrom"]} ∧
       ∃ resource li parent_URI,
         resource ∈ find_all
           (derived_document
              "http://identifiers.org/biomodels.db/BIOMD0000000010"
              "http://identifiers.org/pubmed/10643740")
           "bqmodel:isderivedfrom" ∧
         li ∈ find_all resource "rdf:li" ∧
         attrs li !! "rdf:resource" = Some parent_URI ∧
         v = VStr (URI_name parent_URI)) ∧
    ((parse_derived_model a_text a_date "models/BIOMD0000000012.xml"
        (derived_document
           "http://identifiers.org/biomodels.db/BIOMD0000000010"
           "http://identifiers.org/pubmed/10643740")).2 = None →
     ∀ resource li,
       resource ∈ find_all
         (derived_document
            "http://identifiers.org/biomodels.db/BIOMD0000000010"
            "http://identifiers.org/pubmed/10643740")
         "bqmodel:isderivedfrom" →
       li ∈ find_all resource "rdf:li" →
       ∃ parent_URI,
         attrs li !! "rdf:resource" = Some parent_URI ∧
         edge_data g (VStr (model_name "models/BIOMD0000000012.xml"))
           (VStr (URI_name parent_URI))
           = Some {["label" := VStr "isDerivedFrom"]}).
Proof.
  apply (parse_derived_model_graph a_text a_date
           "models/BIOMD0000000012.xml"
           (derived_document
              "http://identifiers.org/biomodels.db/BIOMD0000000010"
              "http://identifiers.org/pubmed/10643740")).
  reflexivity.
Defined.

Example parse_mcmp_model_example :
  map (λ t : triple, (name_in t.1.1, t.1.2, name_in t.2, t.2 !! "identifier"))
    (parse_mcmp_model a_text a_date cytoplasm_service
       "models/BIOMD0000000012.xml"
       (dated_document "http://identifiers.org/go/GO:0005737") [] true).1
  = [ (VStr "BIOMD0000000012", VStr "isPartOf", VStr "cytoplasm",
       Some (VStr "GO:0005737"));
      (VStr "BIOMD0000000012", VStr "isPartOf", VStr "cytosol", None) ].
Proof. vm_compute. reflexivity. Qed.

Example parse_derived_model_example :
  map (λ t : triple, (name_in t.1.1, t.1.2, name_in t.2, t.2 !! "color"))
    (parse_derived_model a_text a_date "models/BIOMD0000000012.xml"
       (derived_document
          "http://identifiers.org/biomodels.db/BIOMD0000000010"
          "http://identifiers.org/pubmed/10643740")).1
  = [ (VStr "BIOMD0000000012", VStr "isDerivedFrom", VStr "BIOMD0000000010",
       Some (VStr "green"));
      (VStr "BIOMD0000000012", VStr "isDerivedFrom", VStr "10643740",
       Some (VStr "red")) ].
Proof. vm_compute. reflexivity. Qed.

(** ** The name and the provider in a URI *)

Lemma occurrences_app c s1 s2 :
  occurrences c (s1 ++ s2) = (occurrences c s1 + occurrences c s2)%nat.
Proof.
  induction s1 as [|x s1 IH]; [done|].
  change (occurrences c (String x (s1 ++ s2)) =
          (occurrences c (String x s1) + occurrences c s2)%nat).
  simpl. rewrite IH. lia.
Qed.

Lemma occurrences_absent c s :
  c ∉ String.list_ascii_of_string s → occurrences c s = 0.
Proof.
  induction s as [|x s IH]; [done|]. simpl.
  intros Hnot. rewrite IH.
  - case_decide as Hx; [|done]. subst x. exfalso. apply Hnot.
    apply list_elem_of_here.
  - intros Hin. apply Hnot. by apply list_elem_of_further.
Qed.

Lemma startswith_occurrences c p : ∀ s,
  startswith s p = true → (occurrences c p ≤ occurrences c s)%nat.
Proof.
  induction p as [|a p IH]; intros s; [simpl; lia|].
  destruct s as [|b s]; [done|]. simpl startswith.
  destruct (decide (a = b)) as [<-|Hab]; [|done].
  intros Hs%IH. simpl. lia.
Qed.

Lemma contains_occurrences c p s :
  contains s p = true → (occurrences c p ≤ occurrences c s)%nat.
Proof.
  induction s as [|x s IH].
  - change (contains EmptyString p) with (startswith EmptyString p || false).
    rewrite orb_false_r. apply startswith_occurrences.
  - change (contains (String x s) p)
      with (startswith (String x s) p || contains s p).
    intros [Hs | Hc]%orb_true_iff.
    + by apply (startswith_occurrences c p (String x s)).
    + apply IH in Hc. simpl. lia.
Qed.

Lemma split_from_absent sep s :
  contains s sep = false → split_from sep 0 s = [s].
Proof.
  induction s as [|x s IH]; [done|].
  change (contains (String x s) sep)
    with (startswith (String x s) sep || contains s sep).
  intros [Hs Hc]%orb_false_iff.
  change (split_from sep 0 (String x s)) with
    (if startswith (String x s) sep
     then EmptyString :: split_from sep (String.length sep - 1) s
     else match split_from sep 0 s with
          | seg :: segs => String x seg :: segs
          | [] => [String x EmptyString]
          end).
  rewrite Hs, (IH Hc). done.
Qed.

Lemma split_from_skip sep p : ∀ s,
  split_from sep (String.length p) (p ++ s) = split_from sep 0 s.
Proof.
  induction p as [|a p IH]; intros s.
  - change (EmptyString ++ s) with s. simpl String.length. by destruct s.
  - change (String a p ++ s) with (String a (p ++ s)). simpl. apply IH.
Qed.

Lemma startswith_app p s : startswith (p ++ s) p = true.
Proof.
  induction p as [|a p IH]; [reflexivity|].
  change (String a p ++ s) with (String a (p ++ s)). simpl startswith.
  by rewrite decide_True.
Qed.

(** A separator at the start of a string gives an empty first segment. *)
Lemma split_str_prefix a sep s :
  split_str (String a sep) (String a sep ++ s) =
    EmptyString :: split_str (String a sep) s.
Proof.
  unfold split_str.
  change (String a sep ++ s) with (String a (sep ++ s)).
  change (split_from (String a sep) 0 (String a (sep ++ s))) with
    (if startswith (String a (sep ++ s)) (String a sep)
     then EmptyString :: split_from (String a sep)
                           (String.length (String a sep) - 1) (sep ++ s)
     else match split_from (String a sep) 0 (sep ++ s) with
          | seg :: segs => String a seg :: segs
          | [] => [String a EmptyString]
          end).
  pose proof (startswith_app (String a sep) s) as Hst.
  change (String a sep ++ s) with (String a (sep ++ s)) in Hst.
  rewrite Hst.
  replace (String.length (String a sep) - 1) with (String.length sep)
    by (simpl; lia).
  by rewrite split_from_skip.
Qed.

Lemma split_absent sep s : occurrences sep s = 0 → split sep s = [s].
Proof.
  induction s as [|x s IH]; [done|]. simpl.
  case_decide as Hx; [simpl; lia|]. intros Hs. by rewrite IH.
Qed.

Lemma split_app sep s1 s2 :
  occurrences sep s1 = 0 →
  split sep (s1 ++ String sep s2) = s1 :: split sep s2.
Proof.
  induction s1 as [|x s1 IH].
  - intros _. change (EmptyString ++ String sep s2) with (String sep s2).
    simpl. by rewrite decide_True.
  - change (String x s1 ++ String sep s2)
      with (String x (s1 ++ String sep s2)). simpl.
    case_decide as Hx; [simpl; lia|]. intros Hs. by rewrite IH.
Qed.

(** X17: the provider and the name that [parse_derived_model] reads from a
    URI: for the URI made of "http://identifiers.org/", a provider, a slash
    and a name, where neither the provider nor the name has a slash, they
    are this provider and this name; the parent is red for the provider
    "pubmed", green for "biomodels.db" and has no colour otherwise. *)
Theorem parent_data_decodes provider name :
  "/"%char ∉ String.list_ascii_of_string provider →
  "/"%char ∉ String.list_ascii_of_string name →
  URI_provider ("http://identifiers.org/" ++ provider ++ "/" ++ name)
    = provider ∧
  URI_name ("http://identifiers.org/" ++ provider ++ "/" ++ name) = name ∧
  parent_data ("http://identifiers.org/" ++ provider ++ "/" ++ name)
    !! "name" = Some (VStr name) ∧
  parent_data ("http://identifiers.org/" ++ provider ++ "/" ++ name)
    !! "provider" = Some (VStr provider) ∧
  parent_data ("http://identifiers.org/" ++ provider ++ "/" ++ name)
    !! "URI" =
    Some (VStr ("http://identifiers.org/" ++ provider ++ "/" ++ name)) ∧
  parent_data ("http://identifiers.org/" ++ provider ++ "/" ++ name)
    !! "color" =
    (if decide (provider = "pubmed") then Some (VStr "red")
     else if decide (provider = "biomodels.db") then Some (VStr "green")
     else None).
Proof.
  intros Hp%occurrences_absent Hn%occurrences_absent.
  set (rest := provider ++ "/" ++ name).
  assert (occurrences "/" rest = 1) as Hrest.
  { unfold rest. rewrite occurrences_app.
    change ("/" ++ name) with (String "/" name). simpl. lia. }
  assert (URI_path ("http://identifiers.org/" ++ rest) = rest) as Hpath.
  { unfold URI_path.
    rewrite (split_str_prefix "h" "ttp://identifiers.org/" rest).
    unfold split_str. rewrite split_from_absent; [done|].
    destruct (contains rest "http://identifiers.org/") eqn:Hc; [|done].
    apply (contains_occurrences "/") in Hc. simpl in Hc. lia. }
  assert (split "/" rest = [provider; name]) as Hsplit.
  { unfold rest. change ("/" ++ name) with (String "/" name).
    rewrite split_app by done. by rewrite split_absent. }
  assert (URI_provider ("http://identifiers.org/" ++ rest) = provider) as Hprov
    by (unfold URI_provider; by rewrite Hpath, Hsplit).
  assert (URI_name ("http://identifiers.org/" ++ rest) = name) as Hname
    by (unfold URI_name; by rewrite Hpath, Hsplit).
  split_and!; [done|done| | | |]; unfold parent_data; rewrite Hprov, Hname.
  - by case_decide.
  - by case_decide.
  - by case_decide.
  - destruct (decide (provider = "pubmed")) as [->|Hpm].
    { by rewrite decide_True by (by right). }
    destruct (decide (provider = "biomodels.db")) as [->|Hbm].
    { by rewrite decide_True by (by left). }
    rewrite decide_False by (by intros [?|?]). done.
Qed.

Lemma parent_data_decodes_witness :
  URI_provider ("http://identifiers.org/" ++ "pubmed" ++ "/" ++ "10643740")
    = "pubmed" ∧
  URI_name ("http://identifiers.org/" ++ "pubmed" ++ "/" ++ "10643740")
    = "10643740" ∧
  parent_data ("http://identifiers.org/" ++ "pubmed" ++ "/" ++ "10643740")
    !! "name" = Some (VStr "10643740") ∧
  parent_data ("http://identifiers.org/" ++ "pubmed" ++ "/" ++ "10643740")
    !! "provider" = Some (VStr "pubmed") ∧
  parent_data ("http://identifiers.org/" ++ "pubmed" ++ "/" ++ "10643740")
    !! "URI" =
    Some (VStr ("http://identifiers.org/" ++ "pubmed" ++ "/" ++ "10643740")) ∧
  parent_data ("http://identifiers.org/" ++ "pubmed" ++ "/" ++ "10643740")
    !! "color" =
    (if decide ("pubmed" = "pubmed") then Some (VStr "red")
     else if decide ("pubmed" = "biomodels.db") then Some (VStr "green")
     else None).
Proof.
  apply (parent_data_decodes "pubmed" "10643740").
  - vm_compute. intros Hin.
    repeat (inversion Hin as [|? ? ? Hin']; subst; clear Hin;
            rename Hin' into Hin).
  - vm_compute. intros Hin.
    repeat (inversion Hin as [|? ? ? Hin']; subst; clear Hin;
            rename Hin' into Hin).
Defined.

(** ** The exception that ends parse_mcmp_model *)






Example parse_mcmp_model_keeps_tuples :
  map (λ t : triple, name_in t.2)
    (parse_mcmp_model a_text a_date no_service "models/BIOMD0000000012.xml"
       failing_document [] true).1 = [VStr "cytosol"] ∧
  (parse_mcmp_model a_text a_date no_service "models/BIOMD0000000012.xml"
     failing_document [] true).2 = Some (Exn KeyError).
Proof. split; vm_compute; reflexivity. Qed.

(** ** The name in any URI *)

Lemma startswith_inv p : ∀ s, startswith s p = true → ∃ t, s = p ++ t.
Proof.
  induction p as [|a p IH]; intros s; [by exists s|].
  destruct s as [|b s]; [done|]. simpl.
  destruct (decide (a = b)) as [<-|]; [|done].
  intros [t ->]%IH. by exists t.
Qed.

Lemma length_append (s1 s2 : string) :
  String.length (s1 ++ s2) = (String.length s1 + String.length s2)%nat.
Proof.
  induction s1 as [|c s1 IH]; [done|].
  change (S (String.length (s1 ++ s2)) =
          S (String.length s1 + String.length s2)). by rewrite IH.
Qed.

Lemma split_from_snoc a sep s :
  ∃ init lst,
    split_from (String a sep) 0 s = (init ++ [lst])%list ∧
    s = followed_by (String a sep) init ++ lst.
Proof.
  remember (String.length s) as n eqn:Hn. revert s Hn.
  induction n as [n IH] using lt_wf_ind. intros s ->.
  destruct s as [|c r]; [by exists [], EmptyString|].
  destruct (startswith (String c r) (String a sep)) eqn:Hst.
  - destruct (startswith_inv _ _ Hst) as [t Ht]. rewrite Ht.
    pose proof (split_str_prefix a sep t) as Hp. unfold split_str in Hp.
    rewrite Hp.
    destruct (IH (String.length t)) with (s := t)
      as (init & lst & Hs & Hr); [|done|].
    { rewrite Ht, length_append. simpl. lia. }
    exists (EmptyString :: init), lst. rewrite Hs. split; [done|].
    simpl. change (EmptyString ++ String a sep ++ followed_by (String a sep) init)
      with (String a sep ++ followed_by (String a sep) init).
    rewrite append_assoc. by rewrite <- Hr.
  - change (split_from (String a sep) 0 (String c r)) with
      (if startswith (String c r) (String a sep)
       then EmptyString :: split_from (String a sep)
                             (String.length (String a sep) - 1) r
       else match split_from (String a sep) 0 r with
            | seg :: segs => String c seg :: segs
            | [] => [String c EmptyString]
            end).
    rewrite Hst.
    destruct (IH (String.length r)) with (s := r)
      as (init & lst & Hs & Hr); [simpl; lia|done|].
    rewrite Hs. destruct init as [|seg init].
    + exists [], (String c lst). split; [done|].
      change (String c r = String c (followed_by (String a sep) [] ++ lst)).
      congruence.
    + exists (String c seg :: init), lst. split; [done|].
      change (String c r =
              String c (followed_by (String a sep) (seg :: init) ++ lst)).
      congruence.
Qed.

Lemma split_nonempty sep s : split sep s ≠ [].
Proof.
  destruct s as [|c r]; [done|]. simpl. case_decide; [done|].
  by destruct (split sep r).
Qed.

Lemma split_after sep x y :
  ∃ segs, segs ≠ [] ∧
    split sep (x ++ String sep y) = (segs ++ split sep y)%list.
Proof.
  induction x as [|c x (segs & Hne & Hs)].
  - exists [EmptyString]. split; [done|].
    change (EmptyString ++ String sep y) with (String sep y). simpl.
    by rewrite decide_True.
  - change (String c x ++ String sep y) with (String c (x ++ String sep y)).
    simpl. rewrite Hs. case_decide.
    + exists (EmptyString :: segs). by split.
    + destruct segs as [|seg segs]; [done|].
      exists (String c seg :: segs). by split.
Qed.

Lemma last_app_nonempty {A} (l1 l2 : list A) d :
  l2 ≠ [] → List.last (l1 ++ l2) d = List.last l2 d.
Proof.
  intros Hne. destruct (exists_last Hne) as (l2' & x & ->).
  by rewrite (assoc_L (++)%list), !List.last_last.
Qed.

(** X19: whatever the URI, the name that [parse_derived_model] gives the
    parent is what follows the last slash of the URI, and the whole URI if
    it has no slash: the split at "http://identifiers.org/" does not change
    it. *)
Theorem URI_name_last_segment parent_URI :
  URI_name parent_URI = List.last (split "/" parent_URI) EmptyString.
Proof.
  unfold URI_name, URI_path, split_str.
  destruct (split_from_snoc "h" "ttp://identifiers.org/" parent_URI)
    as (init & lst & Hs & Hr).
  rewrite Hs, List.last_last. rewrite Hr.
  destruct init as [|seg init]; [done|].
  destruct (followed_by_end "http://identifiers.org/" (seg :: init))
    as [pre Hpre]; [done|].
  rewrite Hpre.
  change "http://identifiers.org/"
    with ("http://identifiers.org" ++ String "/" EmptyString).
  rewrite <- append_assoc, append_assoc.
  change (String "/" EmptyString ++ lst) with (String "/" lst).
  destruct (split_after "/" (pre ++ "http://identifiers.org") lst)
    as (segs & Hne & ->).
  rewrite last_app_nonempty; [done|]. apply split_nonempty.
Qed.

Example URI_name_examples :
  URI_name "urn:miriam:biomodels.db:BIOMD0000000012"
    = "urn:miriam:biomodels.db:BIOMD0000000012" ∧
  URI_provider "urn:miriam:biomodels.db:BIOMD0000000012"
    = "urn:miriam:biomodels.db:BIOMD0000000012" ∧
  URI_name "http://identifiers.org/pubmed/10643740/" = EmptyString ∧
  URI_name "https://www.ebi.ac.uk/biomodels/BIOMD0000000012"
    = "BIOMD0000000012" ∧
  URI_provider "https://www.ebi.ac.uk/biomodels/BIOMD0000000012" = "https:".
Proof. split_and!; vm_compute; reflexivity. Qed.
